(** * A dynamic array over raw storage: [RawMemory<T>] and [Vector<T>]

    Shallow embedding of [advanced-vector/vector.h].

    - An element type [T] comes with its special member functions, gathered
      in the class [Element]: which of them are declared, and on which values
      they throw.
    - A block of raw storage is a list of slots, each one uninitialized
      memory or a live object.  Blocks are owned by exactly one [RawMemory]
      at a time, so a [RawMemory] carries the contents of the block it points
      to; a pointer to storage that was given back is [Released].
    - A method is a function from the state of the objects it works on to a
      [result]: a normal return, an exception leaving the call, or undefined
      behaviour, the first two with the final state and the trace of the
      element operations performed.
    - The algorithms of [<memory>] and [<algorithm>] that the methods call
      ([std::uninitialized_copy_n], [std::move_backward], ...) are modelled
      after their specification in the standard, element by element.
    - Sizes and counts are [nat].  A block that exists has fewer than
      [2^63] bytes, so what the methods compute from the size of a block they
      hold ([2 * size_], [pos + 1], the byte count of [2 * size_] elements)
      does not wrap.  A count that the caller chooses, in [Reserve],
      [Resize] and [Vector(size)], can be anything: the byte count that
      [Allocate] computes for it is taken modulo [2^64], and the block
      obtained can be smaller than the capacity recorded.
      [operator new] is taken to succeed.
    - A parameter [const T&] or [T&&] is modelled by the value of the
      object it names, which is exact when that object lies outside the
      vector: no step of the call changes it.  [Insert(position, const T&)]
      is also given for a reference to an element of the vector itself
      ([Insert_ref]): [Emplace] reads its arguments when it builds the new
      element, in a vector with room after the tail was shifted.
    - The two assignment operators compare or share the addresses of their
      operands, so they are modelled on a store of vectors; every other
      method works on the one vector it is called on. *)

From stdpp Require Import base tactics option list gmap.

Set Default Proof Using "Type".

(** ** Element types *)

(** What [Vector<T>] asks of [T].  [is_nothrow_move_constructible] and
    [is_copy_constructible] are the two type traits the methods test with
    [if constexpr]; the predicates tell on which source value a special
    member function throws; [moved_from x] is the state in which a move
    leaves an object that held [x]; [value_init] is the result of [T()],
    [None] when it throws; [sizeof_T] is [sizeof(T)], in bytes. *)
Class Element (T : Type) := {
  is_nothrow_move_constructible : bool;
  is_copy_constructible : bool;
  copy_ctor_throws : T → bool;
  move_ctor_throws : T → bool;
  copy_assign_throws : T → bool;
  move_assign_throws : T → bool;
  moved_from : T → T;
  value_init : option T;
  sizeof_T : positive;
}.

(** No special member function of [T] throws. *)
Definition NoThrow (T : Type) `{Element T} : Prop :=
  ∀ x : T,
    copy_ctor_throws x = false ∧ move_ctor_throws x = false ∧
    copy_assign_throws x = false ∧ move_assign_throws x = false.

(** ** Traces and results *)

(** What a call does to the elements and to the free store.  The new element
    of [EmplaceBack] and [Emplace] is built from the arguments of the call,
    whatever the constructor they select; copy and move constructions are
    those from an element of a vector. *)
Inductive event (T : Type) : Type :=
| EvAlloc (n : nat)        (* operator new for [n] elements, [n ≠ 0] *)
| EvConstruct (x : T)      (* T(std::forward<Args>(args)...), giving [x] *)
| EvValueInit (x : T)      (* T(), giving [x] *)
| EvCopyCtor (x : T)       (* T(const T&) from an element holding [x] *)
| EvMoveCtor (x : T)       (* T(T&&) from an element holding [x] *)
| EvCopyAssign (x : T)     (* operator=(const T&) from an element holding [x] *)
| EvMoveAssign (x : T)     (* operator=(T&&) from an object holding [x] *)
| EvDtor (x : T).          (* ~T() of an object holding [x] *)

Arguments EvAlloc {T} n.
Arguments EvConstruct {T} x.
Arguments EvValueInit {T} x.
Arguments EvCopyCtor {T} x.
Arguments EvMoveCtor {T} x.
Arguments EvCopyAssign {T} x.
Arguments EvMoveAssign {T} x.
Arguments EvDtor {T} x.

Definition trace (T : Type) : Type := list (event T).

(** The outcome of a call on a state [S] returning an [A]. *)
Inductive result (T S A : Type) : Type :=
| Done (a : A) (s : S) (tr : trace T)   (* normal return *)
| Thrown (s : S) (tr : trace T)         (* an exception leaves the call *)
| Undefined.                            (* the call has no defined behaviour *)

Arguments Done {T S A} a s tr.
Arguments Thrown {T S A} s tr.
Arguments Undefined {T S A}.

Section Results.
Context {T : Type}.

(** [tr] happened before the call. *)
Definition emit {S A} (tr : trace T) (r : result T S A) : result T S A :=
  match r with
  | Done a s tr' => Done a s (tr ++ tr')
  | Thrown s tr' => Thrown s (tr ++ tr')
  | Undefined => Undefined
  end.

(** Sequencing: an exception or undefined behaviour ends the sequence. *)
Definition bind {S A B} (r : result T S A) (k : A → S → result T S B)
  : result T S B :=
  match r with
  | Done a s tr => emit tr (k a s)
  | Thrown s tr => Thrown s tr
  | Undefined => Undefined
  end.

(** The same call seen on a larger state. *)
Definition lift {S S' A} (f : S → S') (r : result T S A) : result T S' A :=
  match r with
  | Done a s tr => Done a (f s) tr
  | Thrown s tr => Thrown (f s) tr
  | Undefined => Undefined
  end.

(** The call is the cleanup of a handler that rethrows. *)
Definition rethrow {S A B} (r : result T S A) : result T S B :=
  match r with
  | Done _ s tr => Thrown s tr
  | Thrown s tr => Thrown s tr
  | Undefined => Undefined
  end.

Definition final_state {S A} (r : result T S A) : option S :=
  match r with
  | Done _ s _ | Thrown s _ => Some s
  | Undefined => None
  end.

Definition events {S A} (r : result T S A) : trace T :=
  match r with
  | Done _ _ tr | Thrown _ tr => tr
  | Undefined => []
  end.
End Results.

(** ** Raw storage *)

Section Storage.
Context {T : Type} `{Element T}.

(** A slot of a block: uninitialized memory, or a live object. *)
Inductive slot : Type :=
| Raw
| Obj (x : T).

Definition is_obj (c : slot) : bool :=
  match c with Obj _ => true | Raw => false end.

Definition is_raw (c : slot) : bool :=
  match c with Raw => true | Obj _ => false end.

Definition obj_value (c : slot) : option T :=
  match c with Obj x => Some x | Raw => None end.

(** [new (p + i) T(...)] with result [x]. *)
Definition construct_at (cells : list slot) (i : nat) (x : T)
  : option (list slot) :=
  if decide (i < length cells) then Some (<[i := Obj x]> cells) else None.

(** [std::destroy_n(p + first, n)]. *)
Fixpoint destroy_n (cells : list slot) (first n : nat)
  : result T (list slot) unit :=
  match n with
  | 0 => Done () cells []
  | S n' =>
      match cells !! first with
      | Some (Obj x) =>
          emit [EvDtor x] (destroy_n (<[first := Raw]> cells) (S first) n')
      | _ => Undefined
      end
  end.

(** [std::uninitialized_copy_n(src + first, n, dst + d_first)], at the
    point where [dst + cur] is the next slot to fill.  When a copy throws,
    the objects built so far are destroyed and the exception goes on. *)
Fixpoint uninitialized_copy_loop (src : list slot) (first n : nat)
    (dst : list slot) (d_first cur : nat) : result T (list slot) unit :=
  match n with
  | 0 => Done () dst []
  | S n' =>
      match src !! first with
      | Some (Obj x) =>
          if copy_ctor_throws x then
            rethrow (destroy_n dst d_first (cur - d_first))
          else
            match construct_at dst cur x with
            | Some dst' =>
                emit [EvCopyCtor x]
                  (uninitialized_copy_loop src (S first) n' dst' d_first (S cur))
            | None => Undefined
            end
      | _ => Undefined
      end
  end.

Definition uninitialized_copy_n (src : list slot) (first n : nat)
    (dst : list slot) (d_first : nat) : result T (list slot) unit :=
  uninitialized_copy_loop src first n dst d_first d_first.

(** [std::uninitialized_move_n(src + first, n, dst + d_first)]; the state
    is the pair of the source and the destination blocks. *)
Fixpoint uninitialized_move_loop (src : list slot) (first n : nat)
    (dst : list slot) (d_first cur : nat)
  : result T (list slot * list slot) unit :=
  match n with
  | 0 => Done () (src, dst) []
  | S n' =>
      match src !! first with
      | Some (Obj x) =>
          if move_ctor_throws x then
            lift (pair src) (rethrow (destroy_n dst d_first (cur - d_first)))
          else
            match construct_at dst cur x with
            | Some dst' =>
                emit [EvMoveCtor x]
                  (uninitialized_move_loop
                     (<[first := Obj (moved_from x)]> src) (S first) n'
                     dst' d_first (S cur))
            | None => Undefined
            end
      | _ => Undefined
      end
  end.

Definition uninitialized_move_n (src : list slot) (first n : nat)
    (dst : list slot) (d_first : nat)
  : result T (list slot * list slot) unit :=
  uninitialized_move_loop src first n dst d_first d_first.

(** [std::uninitialized_value_construct_n(p + first, n)]. *)
Fixpoint uninitialized_value_construct_loop (cells : list slot)
    (first cur n : nat) : result T (list slot) unit :=
  match n with
  | 0 => Done () cells []
  | S n' =>
      match value_init with
      | None => rethrow (destroy_n cells first (cur - first))
      | Some x =>
          match construct_at cells cur x with
          | Some cells' =>
              emit [EvValueInit x]
                (uninitialized_value_construct_loop cells' first (S cur) n')
          | None => Undefined
          end
      end
  end.

Definition uninitialized_value_construct_n (cells : list slot)
    (first n : nat) : result T (list slot) unit :=
  uninitialized_value_construct_loop cells first first n.

(** [p[to] = std::move(p[from])]. *)
Definition move_assign_at (cells : list slot) (to from : nat)
  : result T (list slot) unit :=
  match cells !! from, cells !! to with
  | Some (Obj x), Some (Obj _) =>
      if move_assign_throws x then Thrown cells []
      else Done () (<[from := Obj (moved_from x)]> (<[to := Obj x]> cells))
             [EvMoveAssign x]
  | _, _ => Undefined
  end.

(** [std::move(p + first, p + first + n, p + d_first)]. *)
Fixpoint move_forward (cells : list slot) (first n d_first : nat)
  : result T (list slot) unit :=
  match n with
  | 0 => Done () cells []
  | S n' =>
      bind (move_assign_at cells d_first first)
        (λ _ cells', move_forward cells' (S first) n' (S d_first))
  end.

(** [std::move_backward(p + first, p + first + n, p + d_last)]. *)
Fixpoint move_backward (cells : list slot) (first n d_last : nat)
  : result T (list slot) unit :=
  match n with
  | 0 => Done () cells []
  | S n' =>
      bind (move_assign_at cells (d_last - 1) (first + n'))
        (λ _ cells', move_backward cells' first n' (d_last - 1))
  end.

(** [dst[i] = src[i]] of the copy assignment's loops. *)
Definition copy_assign_at (src dst : list slot) (i : nat)
  : result T (list slot) unit :=
  match src !! i, dst !! i with
  | Some (Obj x), Some (Obj _) =>
      if copy_assign_throws x then Thrown dst []
      else Done () (<[i := Obj x]> dst) [EvCopyAssign x]
  | _, _ => Undefined
  end.

(** [for (size_t i = first; i < first + n; ++i) dst[i] = src[i];] *)
Fixpoint copy_assign_loop (src dst : list slot) (i n : nat)
  : result T (list slot) unit :=
  match n with
  | 0 => Done () dst []
  | S n' =>
      bind (copy_assign_at src dst i)
        (λ _ dst', copy_assign_loop src dst' (S i) n')
  end.
End Storage.

Arguments slot T : clear implicits.

(** ** [RawMemory<T>] *)

Section RawMemory.
Context {T : Type} `{Element T}.

(** What [buffer_] points to: a block with its slots ([nullptr] is the
    block without slots), or storage that was given back. *)
Inductive block : Type :=
| Cells (cells : list (slot T))
| Released.

Record RawMemory : Type := {
  buffer_ : block;
  capacity_ : nat;
}.

(** [n * sizeof(T)] as [Allocate(n)] computes it, in the 64 bits of
    [size_t]. *)
Definition byte_count (n : nat) : N :=
  ((N.of_nat n * N.pos sizeof_T) mod 2 ^ 64)%N.

(** The byte count of [n] elements fits [size_t]. *)
Definition fits_size_t (n : nat) : bool :=
  (N.of_nat n * N.pos sizeof_T <? 2 ^ 64)%N.

(** The slots that the block obtained by [Allocate(n)] has room for: [n]
    when the byte count fits, fewer when it wrapped. *)
Definition granted (n : nat) : nat :=
  N.to_nat (byte_count n / N.pos sizeof_T).

(** [Allocate(n)]: [operator new] is called only for [n ≠ 0], for
    [byte_count n] bytes. *)
Definition Allocate (n : nat) : block * trace T :=
  (Cells (replicate (granted n) Raw),
   if decide (n = 0) then [] else [EvAlloc n]).

(** [RawMemory() = default]. *)
Definition RawMemory_default : RawMemory :=
  {| buffer_ := Cells []; capacity_ := 0 |}.

(** [explicit RawMemory(size_t capacity)]. *)
Definition RawMemory_new (capacity : nat) : RawMemory * trace T :=
  ({| buffer_ := (Allocate capacity).1; capacity_ := capacity |},
   (Allocate capacity).2).

(** The same constructor for a count that a method computes from the size
    of a block the vector holds: [other.size_], [1] or [2 * size_].  Such a
    block has fewer than [2^63] bytes, so the byte count of the new one
    fits and the block obtained has [capacity] slots. *)
Definition RawMemory_within (capacity : nat) : RawMemory * trace T :=
  ({| buffer_ := Cells (replicate capacity Raw); capacity_ := capacity |},
   if decide (capacity = 0) then [] else [EvAlloc capacity]).

(** [~RawMemory()]: the block is given back; the members keep their
    values, [buffer_] now dangling. *)
Definition RawMemory_dtor (m : RawMemory) : RawMemory :=
  {| buffer_ := Released; capacity_ := capacity_ m |}.

(** [Swap(other)], as the pair of [*this] and [other] afterwards. *)
Definition RawMemory_Swap (this other : RawMemory) : RawMemory * RawMemory :=
  ({| buffer_ := buffer_ other; capacity_ := capacity_ other |},
   {| buffer_ := buffer_ this; capacity_ := capacity_ this |}).

Definition RawMemory_Capacity (this : RawMemory) : nat := capacity_ this.

(** The slots reachable through [GetAddress()], [operator+] and
    [operator[]]: none through a dangling pointer. *)
Definition mem (m : RawMemory) : list (slot T) :=
  match buffer_ m with
  | Cells cells => cells
  | Released => []
  end.

(** The storage manager after its slots were written through such an
    address. *)
Definition with_mem (m : RawMemory) (cells : list (slot T)) : RawMemory :=
  match buffer_ m with
  | Cells _ => {| buffer_ := Cells cells; capacity_ := capacity_ m |}
  | Released => m
  end.
End RawMemory.

Arguments block T : clear implicits.
Arguments RawMemory T : clear implicits.
Arguments byte_count : simpl never.
Arguments fits_size_t : simpl never.
Arguments granted : simpl never.

(** ** [Vector<T>] *)

Section Vector.
Context {T : Type} `{Element T}.

Record Vector : Type := {
  data_ : RawMemory T;
  size_ : nat;
}.

Definition Size (this : Vector) : nat := size_ this.

Definition Capacity (this : Vector) : nat := RawMemory_Capacity (data_ this).

(** [*this] after its storage was written through [begin()]. *)
Definition with_cells (this : Vector) (cells : list (slot T)) : Vector :=
  {| data_ := with_mem (data_ this) cells; size_ := size_ this |}.

Definition with_size (this : Vector) (n : nat) : Vector :=
  {| data_ := data_ this; size_ := n |}.

(** [Vector() = default]. *)
Definition Vector_default : Vector :=
  {| data_ := RawMemory_default; size_ := 0 |}.

(** [explicit Vector(size_t size)]; the state is empty, the new object is
    the value returned. *)
Definition Vector_sized (size : nat) : result T unit Vector :=
  let (data, alloc) := RawMemory_new size in
  emit alloc
    match uninitialized_value_construct_n (mem data) 0 size with
    | Done _ cells tr =>
        Done {| data_ := with_mem data cells; size_ := size |} () tr
    | Thrown _ tr => Thrown () tr
    | Undefined => Undefined
    end.

(** [Vector(const Vector& other)]; the state is [other], the new object is
    the value returned. *)
Definition Vector_copy (other : Vector) : result T Vector Vector :=
  let (data, alloc) := RawMemory_within (size_ other) in
  emit alloc
    match uninitialized_copy_n (mem (data_ other)) 0 (size_ other)
            (mem data) 0 with
    | Done _ cells tr =>
        Done {| data_ := with_mem data cells; size_ := size_ other |} other tr
    | Thrown _ tr => Thrown other tr
    | Undefined => Undefined
    end.

(** [Vector(Vector&& other)]; the state is [other], the new object is the
    value returned. *)
Definition Vector_move (other : Vector) : result T Vector Vector :=
  let (data, alloc) := RawMemory_within (size_ other) in
  let (data', other_data) := RawMemory_Swap data (data_ other) in
  Done {| data_ := data'; size_ := size_ other |}
       {| data_ := other_data; size_ := 0 |}
       alloc.

(** [~Vector()]: the live elements are destroyed, then the member [data_]. *)
Definition Vector_dtor (this : Vector) : result T Vector unit :=
  match destroy_n (mem (data_ this)) 0 (size_ this) with
  | Done _ cells tr =>
      Done () {| data_ := RawMemory_dtor (with_mem (data_ this) cells);
                 size_ := size_ this |} tr
  | _ => Undefined
  end.

(** [Swap(other)], as the pair of [*this] and [other] afterwards. *)
Definition Swap (this other : Vector) : Vector * Vector :=
  let (d, od) := RawMemory_Swap (data_ this) (data_ other) in
  ({| data_ := d; size_ := size_ other |},
   {| data_ := od; size_ := size_ this |}).

(** [operator[](index)]: the element, when the index is below [size_]. *)
Definition at_index (this : Vector) (index : nat) : option T :=
  if decide (index < size_ this) then mem (data_ this) !! index ≫= obj_value
  else None.

(** The transfer of the elements [first, first + n) of the old storage to
    the slots from [d_first] of the new one, as the three growing methods
    select it with [if constexpr]. *)
Definition relocate (src : list (slot T)) (first n : nat)
    (dst : list (slot T)) (d_first : nat)
  : result T (list (slot T) * list (slot T)) unit :=
  if is_nothrow_move_constructible || negb is_copy_constructible then
    uninitialized_move_n src first n dst d_first
  else
    lift (pair src) (uninitialized_copy_n src first n dst d_first).

(** The common end of a reallocation: [std::destroy_n(begin(), size_);
    data_.Swap(new_data);], after which [new_data], owning the old block,
    goes out of scope. *)
Definition commit (this : Vector) (src : list (slot T))
    (new_data : RawMemory T) : result T Vector unit :=
  match destroy_n src 0 (size_ this) with
  | Done _ src' tr =>
      let (d, _) := RawMemory_Swap (with_mem (data_ this) src') new_data in
      Done () {| data_ := d; size_ := size_ this |} tr
  | _ => Undefined
  end.

Definition Reserve (new_capacity : nat) (this : Vector)
  : result T Vector unit :=
  if decide (new_capacity ≤ RawMemory_Capacity (data_ this)) then
    Done () this []
  else
    let (new_data, alloc) := RawMemory_new new_capacity in
    emit alloc
      match relocate (mem (data_ this)) 0 (size_ this) (mem new_data) 0 with
      | Done _ (src, dst) tr =>
          emit tr (commit this src (with_mem new_data dst))
      | Thrown (src, _) tr => Thrown (with_cells this src) tr
      | Undefined => Undefined
      end.

Definition Resize (new_size : nat) (this : Vector) : result T Vector unit :=
  bind (Reserve new_size this) (λ _ this,
    bind
      (if decide (size_ this < new_size) then
         lift (with_cells this)
           (uninitialized_value_construct_n (mem (data_ this)) (size_ this)
              (new_size - size_ this))
       else if decide (new_size < size_ this) then
         lift (with_cells this)
           (destroy_n (mem (data_ this)) new_size (size_ this - new_size))
       else Done () this [])
      (λ _ this, Done () (with_size this new_size) [])).

(** [EmplaceBack(args...)]; [args] is the outcome of
    [T(std::forward<Args>(args)...)], [None] when it throws.  The value
    returned is the index of the element the returned reference names. *)
Definition EmplaceBack (args : option T) (this : Vector)
  : result T Vector nat :=
  bind
    (if decide (size_ this = RawMemory_Capacity (data_ this)) then
       let (new_data, alloc) :=
         RawMemory_within
           (if decide (size_ this = 0) then 1 else 2 * size_ this) in
       emit alloc
         match args with
         | None => Thrown this []
         | Some x =>
             match construct_at (mem new_data) (size_ this) x with
             | None => Undefined
             | Some dst0 =>
                 emit [EvConstruct x]
                   match relocate (mem (data_ this)) 0 (size_ this) dst0 0 with
                   | Done _ (src, dst) tr =>
                       emit tr (commit this src (with_mem new_data dst))
                   | Thrown (src, _) tr => Thrown (with_cells this src) tr
                   | Undefined => Undefined
                   end
             end
         end
     else
       match args with
       | None => Thrown this []
       | Some x =>
           match construct_at (mem (data_ this)) (size_ this) x with
           | None => Undefined
           | Some cells => Done () (with_cells this cells) [EvConstruct x]
           end
       end)
    (λ _ this, Done (size_ this) (with_size this (S (size_ this))) []).

(** [PushBack(const T& value)] and [PushBack(T&& value)]: the new element
    is built by the copy, respectively the move constructor. *)
Definition PushBack (value : T) (this : Vector) : result T Vector unit :=
  bind (EmplaceBack (if copy_ctor_throws value then None else Some value) this)
    (λ _ this, Done () this []).

Definition PushBack_move (value : T) (this : Vector) : result T Vector unit :=
  bind (EmplaceBack (if move_ctor_throws value then None else Some value) this)
    (λ _ this, Done () this []).

(** [Emplace(position, args...)] with [pos = position - begin()].  The
    arguments are references, and the new element is built from what they
    name at the time the constructor runs: [args cells] is the outcome of
    [T(std::forward<Args>(args)...)] when the storage of the vector is
    [cells], that is [None] when an argument names no live object,
    [Some None] when the constructor throws, and the new value otherwise.
    A position outside [[begin(), end()]] makes [end() - position]
    meaningless.  The value returned is the offset of the returned
    iterator.

    In the growing branch the handler [catch (...)] ends [new_data] by
    hand and does not rethrow: the method goes on with the members of
    [new_data] as the destructor left them. *)
Definition Emplace_reading (pos : nat)
    (args : list (slot T) → option (option T)) (this : Vector)
  : result T Vector nat :=
  if decide (size_ this < pos) then Undefined
  else
  bind
    (if decide (size_ this = RawMemory_Capacity (data_ this)) then
       let count := size_ this - pos in
       let (new_data, alloc) :=
         RawMemory_within
           (if decide (size_ this = 0) then 1 else 2 * size_ this) in
       emit alloc
         match args (mem (data_ this)) with
         | None => Undefined
         | Some None => Thrown this []
         | Some (Some x) =>
             match construct_at (mem new_data) pos x with
             | None => Undefined
             | Some dst0 =>
                 emit [EvConstruct x]
                   match
                     bind (relocate (mem (data_ this)) 0 pos dst0 0)
                       (λ _ '(src, dst), relocate src pos count dst (pos + 1))
                   with
                   | Done _ (src, dst) tr =>
                       emit tr (commit this src (with_mem new_data dst))
                   | Thrown (src, dst) tr =>
                       emit tr
                         (commit this src
                            (RawMemory_dtor (with_mem new_data dst)))
                   | Undefined => Undefined
                   end
             end
         end
     else if decide (size_ this ≠ pos) then
       (* new (end()) T(std::forward<T>(data_[size_ - 1])) *)
       match mem (data_ this) !! (size_ this - 1) with
       | Some (Obj last) =>
           if move_ctor_throws last then Thrown this []
           else
             match construct_at
                     (<[size_ this - 1 := Obj (moved_from last)]>
                        (mem (data_ this)))
                     (size_ this) last with
             | None => Undefined
             | Some cells =>
                 emit [EvMoveCtor last]
                   (lift (with_cells this)
                      (bind
                         (move_backward cells pos (size_ this - 1 - pos)
                            (size_ this))
                         (λ _ cells,
                            (* data_[pos] = T(std::forward<Args>(args)...) *)
                            match args cells, cells !! pos with
                            | None, _ => Undefined
                            | Some None, _ => Thrown cells []
                            | Some (Some x), Some (Obj _) =>
                                if move_assign_throws x then
                                  Thrown cells [EvConstruct x; EvDtor x]
                                else
                                  Done () (<[pos := Obj x]> cells)
                                    [EvConstruct x; EvMoveAssign x;
                                     EvDtor (moved_from x)]
                            | Some (Some _), _ => Undefined
                            end)))
             end
       | _ => Undefined
       end
     else
       match args (mem (data_ this)) with
       | None => Undefined
       | Some None => Thrown this []
       | Some (Some x) =>
           match construct_at (mem (data_ this)) pos x with
           | None => Undefined
           | Some cells => Done () (with_cells this cells) [EvConstruct x]
           end
       end)
    (λ _ this, Done pos (with_size this (S (size_ this))) []).

(** [Emplace] with arguments that name objects outside the vector, which
    no step of the call changes: [args] is the outcome of
    [T(std::forward<Args>(args)...)], [None] when it throws. *)
Definition Emplace (pos : nat) (args : option T) (this : Vector)
  : result T Vector nat :=
  Emplace_reading pos (λ _, Some args) this.

(** What a parameter [const T& value] names: an object outside the storage
    of the vector, holding [x], or the element of the vector at index
    [i]. *)
Inductive reference : Type :=
| Outside (x : T)
| ElementAt (i : nat).

(** [T(value)] run on the storage [cells]. *)
Definition copy_from (value : reference) (cells : list (slot T))
  : option (option T) :=
  match value with
  | Outside x => Some (if copy_ctor_throws x then None else Some x)
  | ElementAt i =>
      match cells !! i with
      | Some (Obj x) => Some (if copy_ctor_throws x then None else Some x)
      | _ => None
      end
  end.

(** [Insert(position, const T& value)]; the argument has to name an object
    when the call is made. *)
Definition Insert_ref (pos : nat) (value : reference) (this : Vector)
  : result T Vector nat :=
  match value with
  | Outside _ => Emplace_reading pos (copy_from value) this
  | ElementAt i =>
      if decide (i < size_ this) then
        Emplace_reading pos (copy_from value) this
      else Undefined
  end.

(** [Insert(position, const T& value)] and [Insert(position, T&& value)]
    for a [value] outside the vector. *)
Definition Insert (pos : nat) (value : T) (this : Vector)
  : result T Vector nat :=
  Emplace pos (if copy_ctor_throws value then None else Some value) this.

Definition Insert_move (pos : nat) (value : T) (this : Vector)
  : result T Vector nat :=
  Emplace pos (if move_ctor_throws value then None else Some value) this.

(** [PopBack()]; [assert(size_ > 0)] is the caller's contract. *)
Definition PopBack (this : Vector) : result T Vector unit :=
  if decide (size_ this = 0) then Undefined
  else
    let this := with_size this (size_ this - 1) in
    lift (with_cells this) (destroy_n (mem (data_ this)) (size_ this) 1).

(** [Erase(position)] with [pos = position - begin()]; the position has to
    name an element, or the range [[position + 1, end())] is no range. *)
Definition Erase (pos : nat) (this : Vector) : result T Vector nat :=
  if decide (size_ this ≤ pos) then Undefined
  else
    bind
      (lift (with_cells this)
         (bind
            (move_forward (mem (data_ this)) (pos + 1)
               (size_ this - (pos + 1)) pos)
            (λ _ cells, destroy_n cells (size_ this - 1) 1)))
      (λ _ this, Done pos (with_size this (size_ this - 1)) []).

(** [operator=(const Vector& rhs)] for [this != &rhs], on the state of
    [*this]; [rhs] is only read. *)
Definition copy_assign_from (rhs : Vector) (this : Vector)
  : result T Vector unit :=
  if decide (RawMemory_Capacity (data_ this) < size_ rhs) then
    match Vector_copy rhs with
    | Done rhs_copy _ tr =>
        let (this', rhs_copy') := Swap this rhs_copy in
        match Vector_dtor rhs_copy' with
        | Done _ _ tr' => Done () this' (tr ++ tr')
        | _ => Undefined
        end
    | Thrown _ tr => Thrown this tr
    | Undefined => Undefined
    end
  else
    bind
      (lift (with_cells this)
         (if decide (size_ rhs < size_ this) then
            bind
              (copy_assign_loop (mem (data_ rhs)) (mem (data_ this)) 0
                 (size_ rhs))
              (λ _ cells,
                 destroy_n cells (size_ rhs) (size_ this - size_ rhs))
          else
            bind
              (copy_assign_loop (mem (data_ rhs)) (mem (data_ this)) 0
                 (size_ this))
              (λ _ cells,
                 uninitialized_copy_n (mem (data_ rhs)) (size_ this)
                   (size_ rhs - size_ this) cells (size_ this))))
      (λ _ this, Done () (with_size this (size_ rhs)) []).
End Vector.

Arguments Vector T : clear implicits.
Arguments reference T : clear implicits.

(** ** Objects at addresses *)

(** The two assignment operators take [*this] and [rhs] by reference, and the
    two may be one object: they are modelled on a store of vectors. *)

Section Store.
Context {T : Type} `{Element T}.

Definition addr : Type := nat.

(** [operator=(const Vector& rhs)]. *)
Definition copy_assign (this rhs : addr) (σ : gmap addr (Vector T))
  : result T (gmap addr (Vector T)) unit :=
  if decide (this ≠ rhs) then
    match σ !! this, σ !! rhs with
    | Some v, Some w => lift (λ v', <[this := v']> σ) (copy_assign_from w v)
    | _, _ => Undefined
    end
  else Done () σ [].

(** [data_.Swap(rhs.data_)] of the object at [this]. *)
Definition swap_data (this rhs : addr) (σ : gmap addr (Vector T))
  : option (gmap addr (Vector T)) :=
  match σ !! this, σ !! rhs with
  | Some v, Some w =>
      let (d, rd) := RawMemory_Swap (data_ v) (data_ w) in
      Some (<[rhs := {| data_ := rd; size_ := size_ w |}]>
              (<[this := {| data_ := d; size_ := size_ v |}]> σ))
  | _, _ => None
  end.

(** [operator=(Vector&& rhs)]. *)
Definition move_assign (this rhs : addr) (σ : gmap addr (Vector T))
  : result T (gmap addr (Vector T)) unit :=
  match swap_data this rhs σ with
  | Some σ1 =>
      match σ1 !! rhs with
      | Some w => Done () (<[rhs := with_size w 0]> σ1) []
      | None => Undefined
      end
  | None => Undefined
  end.
End Store.

(** ** The invariant and the abstract value of a vector *)

Section Abstraction.
Context {T : Type} `{Element T}.

(** The representation invariant: the storage is owned, has [capacity_]
    slots, [size_] is within the capacity, the slots below [size_] hold
    live objects and the slots from [size_] on are uninitialized. *)
Definition valid (v : Vector T) : bool :=
  match buffer_ (data_ v) with
  | Cells cells =>
      bool_decide (length cells = capacity_ (data_ v)) &&
      bool_decide (size_ v ≤ capacity_ (data_ v)) &&
      forallb is_obj (take (size_ v) cells) &&
      forallb is_raw (drop (size_ v) cells)
  | Released => false
  end.

(** The sequence of the values of the elements. *)
Definition elements (v : Vector T) : list T :=
  omap obj_value (take (size_ v) (mem (data_ v))).

(** The vector with elements [xs] in storage for [cap] elements. *)
Definition vec (xs : list T) (cap : nat) : Vector T :=
  {| data_ := {| buffer_ := Cells ((Obj <$> xs) ++ replicate (cap - length xs) Raw);
                 capacity_ := cap |};
     size_ := length xs |}.

(** The state in which [std::move] over a range ending with [ys] leaves
    the slot after its destination: the last source, moved from. *)
Definition vacated (a : T) (ys : list T) : T :=
  foldl (λ _ y, moved_from y) a ys.

(** The state in which [std::move_backward] leaves the first slot of its
    source range [ys], the slot after the range holding [z] before. *)
Definition hole (z : T) (ys : list T) : T :=
  match ys with
  | [] => z
  | y :: _ => moved_from y
  end.
(** The transfer selected for a reallocation, element by element: whether it
    moves, the event it leaves in the trace, whether it throws, and the value
    it leaves in the old slot. *)
Definition prefers_move : bool :=
  is_nothrow_move_constructible || negb is_copy_constructible.

Definition transfer_event (x : T) : event T :=
  if prefers_move then EvMoveCtor x else EvCopyCtor x.

Definition transfer_throws (x : T) : bool :=
  if prefers_move then move_ctor_throws x else copy_ctor_throws x.

Definition left_behind (x : T) : T :=
  if prefers_move then moved_from x else x.

(** The values move-constructed from, respectively copy-constructed from, in
    a trace, in order. *)
Definition moved (tr : trace T) : list T :=
  omap (λ e, match e with EvMoveCtor x => Some x | _ => None end) tr.

Definition copied (tr : trace T) : list T :=
  omap (λ e, match e with EvCopyCtor x => Some x | _ => None end) tr.

(** The blocks obtained from [operator new] in a trace. *)
Definition allocations (tr : trace T) : list nat :=
  omap (λ e, match e with EvAlloc n => Some n | _ => None end) tr.

(** The values whose objects were destroyed in a trace. *)
Definition destroyed (tr : trace T) : list T :=
  omap (λ e, match e with EvDtor x => Some x | _ => None end) tr.

(** The values copy-assigned in a trace. *)
Definition copy_assigned (tr : trace T) : list T :=
  omap (λ e, match e with EvCopyAssign x => Some x | _ => None end) tr.

(** The trace [tr] transfers the values [xs], all of them and in order, by
    move construction when [T]'s move constructor is declared non-throwing
    or [T] has no copy constructor, and by copy construction otherwise. *)
Definition transfers (xs : list T) (tr : trace T) : Prop :=
  moved tr =
    (if is_nothrow_move_constructible || negb is_copy_constructible
     then xs else []) ∧
  copied tr =
    (if is_nothrow_move_constructible || negb is_copy_constructible
     then [] else xs).

(** The trace [tr] has no transfer of the other kind. *)
Definition one_way (tr : trace T) : Prop :=
  if is_nothrow_move_constructible || negb is_copy_constructible
  then copied tr = [] else moved tr = [].
End Abstraction.

(** ** Sequences of calls, and sample element types *)

Section Scenarios.
Context {T : Type} `{Element T}.

(** [PushBack] of the values [xs], one after the other. *)
Fixpoint append_all (xs : list T) (this : Vector T) : result T (Vector T) unit :=
  match xs with
  | [] => Done () this []
  | x :: xs' => bind (PushBack x this) (λ _ this', append_all xs' this')
  end.

(** [Insert(begin() + pos, value)] and then [Erase(begin() + pos)]. *)
Definition insert_then_erase (pos : nat) (value : T) (this : Vector T)
  : result T (Vector T) nat :=
  bind (Insert pos value this) (λ _ this', Erase pos this').
End Scenarios.

(** The capacity [cap] that the doubling policy gives [n] appended elements:
    none for none, else a power of two from [n] to below [2 * n]. *)
Definition doubled (n cap : nat) : Prop :=
  (n = 0 ∧ cap = 0) ∨ (∃ k, cap = 2 ^ k ∧ n ≤ cap ∧ cap < 2 * n).

(** [int]: every special member function is declared and none throws. *)
Definition int_element : Element nat :=
  {| is_nothrow_move_constructible := true;
     is_copy_constructible := true;
     copy_ctor_throws := λ _, false;
     move_ctor_throws := λ _, false;
     copy_assign_throws := λ _, false;
     move_assign_throws := λ _, false;
     moved_from := λ x, x;
     value_init := Some 0;
     sizeof_T := 4 |}.

(** A class holding a number whose move constructor is not declared
    [noexcept] and whose copy constructor throws on the value [13]; a moved
    from object holds [0]. *)
Definition fragile_element : Element nat :=
  {| is_nothrow_move_constructible := false;
     is_copy_constructible := true;
     copy_ctor_throws := λ x, bool_decide (x = 13);
     move_ctor_throws := λ _, false;
     copy_assign_throws := λ x, bool_decide (x = 13);
     move_assign_throws := λ _, false;
     moved_from := λ _, 0;
     value_init := Some 0;
     sizeof_T := 8 |}.

(** A move-only class holding a number: no copy constructor, and a move
    constructor that is not declared [noexcept]. *)
Definition move_only_element : Element nat :=
  {| is_nothrow_move_constructible := false;
     is_copy_constructible := false;
     copy_ctor_throws := λ _, false;
     move_ctor_throws := λ _, false;
     copy_assign_throws := λ _, false;
     move_assign_throws := λ _, false;
     moved_from := λ _, 0;
     value_init := Some 0;
     sizeof_T := 8 |}.

(** Sample vectors of numbers: one with room left, one that is full, one
    that is full and holds the value on which the copy constructor of
    [fragile_element] throws; and two stores of two vectors each. *)
Definition roomy_vector : Vector nat := vec [1; 2; 3] 4.

Definition full_vector : Vector nat := vec [1; 2] 2.

Definition poisoned_vector : Vector nat := vec [1; 13] 2.

Definition long_and_short : gmap addr (Vector nat) :=
  <[0 := vec [1; 2; 3] 4]> (<[1 := vec [7] 1]> ∅).

Definition one_and_empty : gmap addr (Vector nat) :=
  <[0 := vec [1] 1]> (<[1 := Vector_default]> ∅).

(** ** Further sequences of calls and projections of traces *)

Section MoreScenarios.
Context {T : Type} `{Element T}.

(** [Reserve(k)] and then [PushBack] of the values [xs]. *)
Definition reserve_then_append (k : nat) (xs : list T) (this : Vector T)
  : result T (Vector T) unit :=
  bind (Reserve k this) (λ _ this', append_all xs this').

(** [PushBack(value)] and then [PopBack()]. *)
Definition push_then_pop (value : T) (this : Vector T)
  : result T (Vector T) unit :=
  bind (PushBack value this) (λ _ this', PopBack this').

(** The new elements built from the arguments of a call in a trace. *)
Definition constructed (tr : trace T) : list T :=
  omap (λ e, match e with EvConstruct x => Some x | _ => None end) tr.

(** The values move-assigned in a trace. *)
Definition move_assigned (tr : trace T) : list T :=
  omap (λ e, match e with EvMoveAssign x => Some x | _ => None end) tr.
End MoreScenarios.

(** A class holding a number whose move assignment throws on the value
    [13]; construction never throws. *)
Definition stubborn_element : Element nat :=
  {| is_nothrow_move_constructible := true;
     is_copy_constructible := true;
     copy_ctor_throws := λ _, false;
     move_ctor_throws := λ _, false;
     copy_assign_throws := λ _, false;
     move_assign_throws := λ x, bool_decide (x = 13);
     moved_from := λ _, 0;
     value_init := Some 0;
     sizeof_T := 8 |}.

(** A store with an empty vector and one holding the value that the copy
    constructor of [fragile_element] cannot copy. *)
Definition empty_and_poisoned : gmap addr (Vector nat) :=
  <[0 := Vector_default]> (<[1 := poisoned_vector]> ∅).

(** A class holding a number next to an array of [2^62] bytes: the byte
    count of four of its objects is [2^64]. *)
Definition bulky_element : Element nat :=
  {| is_nothrow_move_constructible := true;
     is_copy_constructible := true;
     copy_ctor_throws := λ _, false;
     move_ctor_throws := λ _, false;
     copy_assign_throws := λ _, false;
     move_assign_throws := λ _, false;
     moved_from := λ x, x;
     value_init := Some 0;
     sizeof_T := 2 ^ 62 |}.

(** * Properties *)

(** ** Results *)

Section ResultLemmas.
Context {T : Type}.

Lemma emit_nil {S A} (r : result T S A) : emit [] r = r.
Proof. by destruct r. Qed.

Lemma emit_emit {S A} (tr1 tr2 : trace T) (r : result T S A) :
  emit tr1 (emit tr2 r) = emit (tr1 ++ tr2) r.
Proof. destruct r; simpl; by rewrite ?app_assoc. Qed.
End ResultLemmas.

(** ** The invariant, in terms of [vec] *)

Section AbstractionLemmas.
Context {T : Type} `{Element T}.

Lemma forallb_is_obj (cells : list (slot T)) :
  forallb is_obj cells = true → ∃ xs, cells = Obj <$> xs.
Proof.
  induction cells as [|[|x] cells IH]; simpl; intros Hall.
  - by exists [].
  - done.
  - destruct (IH Hall) as [xs ->]. by exists (x :: xs).
Qed.

Lemma forallb_is_raw (cells : list (slot T)) :
  forallb is_raw cells = true → cells = replicate (length cells) Raw.
Proof.
  induction cells as [|[|x] cells IH]; simpl; intros Hall; [done| |done].
  f_equal. by apply IH.
Qed.

Lemma forallb_is_obj_fmap (xs : list T) : forallb is_obj (Obj <$> xs) = true.
Proof. by induction xs. Qed.

Lemma forallb_is_raw_replicate n : forallb is_raw (replicate n (@Raw T)) = true.
Proof. by induction n. Qed.

Lemma valid_vec (xs : list T) (cap : nat) :
  length xs ≤ cap → valid (vec xs cap) = true.
Proof.
  intros Hle. unfold valid, vec; simpl.
  rewrite take_app_length', drop_app_length' by by rewrite length_fmap.
  rewrite forallb_is_obj_fmap, forallb_is_raw_replicate.
  rewrite !bool_decide_eq_true_2; [done..|].
  rewrite length_app, length_fmap, length_replicate. lia.
Qed.

Lemma valid_inv (v : Vector T) :
  valid v = true → ∃ xs cap, length xs ≤ cap ∧ v = vec xs cap.
Proof.
  destruct v as [[[cells|] cap] n]; unfold valid; simpl; [|done].
  intros Hv. repeat (apply andb_prop in Hv as [Hv ?]).
  apply bool_decide_eq_true_1 in Hv.
  match goal with Hle : bool_decide _ = true |- _ =>
    apply bool_decide_eq_true_1 in Hle end.
  match goal with Ho : forallb is_obj _ = true |- _ =>
    apply forallb_is_obj in Ho as [xs Hxs] end.
  match goal with Hr : forallb is_raw _ = true |- _ =>
    apply forallb_is_raw in Hr; rename Hr into Hraw end.
  assert (length xs = n) as Hn.
  { rewrite <-(length_fmap Obj xs), <-Hxs, length_take. lia. }
  exists xs, cap. split; [lia|].
  unfold vec. rewrite Hn. do 2 f_equal. f_equal.
  rewrite <-(take_drop n cells) at 1. rewrite Hxs, Hraw at 1.
  by rewrite length_drop, Hv.
Qed.

Lemma valid_iff (v : Vector T) :
  valid v = true ↔ ∃ xs cap, length xs ≤ cap ∧ v = vec xs cap.
Proof.
  split; [apply valid_inv|]. intros (xs & cap & Hle & ->). by apply valid_vec.
Qed.

Lemma omap_obj_value (xs : list T) : omap obj_value (Obj <$> xs) = xs.
Proof. induction xs; simpl; by f_equal. Qed.

Lemma Size_vec (xs : list T) cap : Size (vec xs cap) = length xs.
Proof. done. Qed.

Lemma Capacity_vec (xs : list T) cap : Capacity (vec xs cap) = cap.
Proof. done. Qed.

Lemma elements_vec (xs : list T) cap : elements (vec xs cap) = xs.
Proof.
  unfold elements, vec, mem; simpl.
  rewrite take_app_length' by by rewrite length_fmap.
  apply omap_obj_value.
Qed.


(** A vector is [vec xs cap] as soon as its parts are. *)
Lemma vec_intro (xs : list T) (k cap n : nat) :
  cap = length xs + k → n = length xs →
  {| data_ := {| buffer_ := Cells ((Obj <$> xs) ++ replicate k Raw);
                 capacity_ := cap |};
     size_ := n |} = vec xs cap.
Proof.
  intros -> ->. unfold vec.
  by replace (length xs + k - length xs) with k by lia.
Qed.
End AbstractionLemmas.

(** ** The storage operations on blocks of a known shape *)

Section StorageLemmas.
Context {T : Type} `{Element T}.
Implicit Types (pre post cells : list (slot T)) (xs ys : list T).

Lemma lookup_middle pre post (c : slot T) :
  (pre ++ c :: post) !! length pre = Some c.
Proof. by apply list_lookup_middle. Qed.

Lemma insert_middle pre post (c c' : slot T) :
  <[length pre := c']> (pre ++ c :: post) = pre ++ c' :: post.
Proof.
  rewrite insert_app_r_alt by lia. by rewrite Nat.sub_diag.
Qed.

Lemma construct_at_middle pre post (c : slot T) (x : T) :
  construct_at (pre ++ c :: post) (length pre) x = Some (pre ++ Obj x :: post).
Proof.
  unfold construct_at. rewrite insert_middle.
  case_decide as Hlt; [done|].
  rewrite length_app in Hlt. simpl in Hlt. lia.
Qed.

(** Shifting the focus of a block one slot to the right. *)
Lemma snoc_focus pre post (c : slot T) :
  pre ++ c :: post = (pre ++ [c]) ++ post.
Proof. by rewrite <-app_assoc. Qed.

Lemma length_snoc pre (c : slot T) : length (pre ++ [c]) = S (length pre).
Proof. rewrite length_app. simpl. lia. Qed.

Lemma destroy_n_spec ys pre post first :
  first = length pre →
  destroy_n (pre ++ (Obj <$> ys) ++ post) first (length ys) =
  Done () (pre ++ replicate (length ys) Raw ++ post) (EvDtor <$> ys).
Proof.
  revert pre first. induction ys as [|y ys IH]; intros pre first ->; [done|].
  simpl. rewrite lookup_middle, insert_middle.
  rewrite (snoc_focus pre), (IH (pre ++ [Raw])) by by rewrite length_snoc.
  simpl. by rewrite <-app_assoc.
Qed.

Lemma uninitialized_copy_loop_spec ys spre spost dpre dmid dpost first d_first cur :
  first = length spre → cur = length dpre → length dmid = length ys →
  Forall (λ y, copy_ctor_throws y = false) ys →
  uninitialized_copy_loop (spre ++ (Obj <$> ys) ++ spost) first (length ys)
    (dpre ++ dmid ++ dpost) d_first cur =
  Done () (dpre ++ (Obj <$> ys) ++ dpost) (EvCopyCtor <$> ys).
Proof.
  revert spre dpre dmid first cur.
  induction ys as [|y ys IH]; intros spre dpre dmid first cur -> -> Hlen Hok.
  { by destruct dmid. }
  destruct dmid as [|c dmid]; [done|]. simpl in Hlen.
  apply Forall_cons in Hok as [Hy Hok].
  simpl. rewrite lookup_middle, Hy, construct_at_middle.
  rewrite (snoc_focus spre), (snoc_focus dpre).
  rewrite (IH (spre ++ [Obj y]) (dpre ++ [Obj y]) dmid);
    rewrite ?length_snoc; [|done|done|lia|done].
  simpl. by rewrite <-app_assoc.
Qed.

Lemma uninitialized_copy_n_spec ys spre spost dpre dmid dpost first d_first :
  first = length spre → d_first = length dpre → length dmid = length ys →
  Forall (λ y, copy_ctor_throws y = false) ys →
  uninitialized_copy_n (spre ++ (Obj <$> ys) ++ spost) first (length ys)
    (dpre ++ dmid ++ dpost) d_first =
  Done () (dpre ++ (Obj <$> ys) ++ dpost) (EvCopyCtor <$> ys).
Proof. intros. by apply uninitialized_copy_loop_spec. Qed.

Lemma uninitialized_move_loop_spec ys spre spost dpre dmid dpost first d_first cur :
  first = length spre → cur = length dpre → length dmid = length ys →
  Forall (λ y, move_ctor_throws y = false) ys →
  uninitialized_move_loop (spre ++ (Obj <$> ys) ++ spost) first (length ys)
    (dpre ++ dmid ++ dpost) d_first cur =
  Done () (spre ++ (Obj <$> (moved_from <$> ys)) ++ spost,
           dpre ++ (Obj <$> ys) ++ dpost) (EvMoveCtor <$> ys).
Proof.
  revert spre dpre dmid first cur.
  induction ys as [|y ys IH]; intros spre dpre dmid first cur -> -> Hlen Hok.
  { by destruct dmid. }
  destruct dmid as [|c dmid]; [done|]. simpl in Hlen.
  apply Forall_cons in Hok as [Hy Hok].
  simpl. rewrite lookup_middle, Hy, construct_at_middle, insert_middle.
  rewrite (snoc_focus spre), (snoc_focus dpre).
  rewrite (IH (spre ++ [Obj (moved_from y)]) (dpre ++ [Obj y]) dmid);
    rewrite ?length_snoc; [|done|done|lia|done].
  simpl. by rewrite <-!app_assoc.
Qed.

Lemma uninitialized_move_n_spec ys spre spost dpre dmid dpost first d_first :
  first = length spre → d_first = length dpre → length dmid = length ys →
  Forall (λ y, move_ctor_throws y = false) ys →
  uninitialized_move_n (spre ++ (Obj <$> ys) ++ spost) first (length ys)
    (dpre ++ dmid ++ dpost) d_first =
  Done () (spre ++ (Obj <$> (moved_from <$> ys)) ++ spost,
           dpre ++ (Obj <$> ys) ++ dpost) (EvMoveCtor <$> ys).
Proof. intros. by apply uninitialized_move_loop_spec. Qed.

Lemma uninitialized_value_construct_loop_spec (x : T) n pre mid post first cur :
  value_init = Some x → cur = length pre → length mid = n →
  uninitialized_value_construct_loop (pre ++ mid ++ post) first cur n =
  Done () (pre ++ replicate n (Obj x) ++ post) (replicate n (EvValueInit x)).
Proof.
  intros Hx. revert pre mid cur.
  induction n as [|n IH]; intros pre mid cur -> Hlen.
  { by destruct mid. }
  destruct mid as [|c mid]; [done|]. simpl in Hlen.
  simpl. rewrite Hx, construct_at_middle, (snoc_focus pre).
  rewrite (IH (pre ++ [Obj x]) mid); rewrite ?length_snoc; [|done|lia].
  simpl. by rewrite <-app_assoc.
Qed.

Lemma lookup_middle_S pre post (c c' : slot T) :
  (pre ++ c :: c' :: post) !! S (length pre) = Some c'.
Proof. by rewrite (snoc_focus pre), <-(length_snoc pre c), lookup_middle. Qed.

Lemma insert_middle_S pre post (c c' d : slot T) :
  <[S (length pre) := d]> (pre ++ c :: c' :: post) = pre ++ c :: d :: post.
Proof.
  by rewrite (snoc_focus pre), <-(length_snoc pre c), insert_middle,
    <-snoc_focus.
Qed.

(** A move assignment to the slot before, respectively after, its source. *)
Lemma move_assign_at_left pre post (a y : T) to from :
  to = length pre → from = S (length pre) → move_assign_throws y = false →
  move_assign_at (pre ++ Obj a :: Obj y :: post) to from =
  Done () (pre ++ Obj y :: Obj (moved_from y) :: post) [EvMoveAssign y].
Proof.
  intros -> -> Hy. unfold move_assign_at.
  by rewrite lookup_middle_S, lookup_middle, Hy, insert_middle,
    insert_middle_S.
Qed.

Lemma move_assign_at_right pre post (y z : T) to from :
  to = S (length pre) → from = length pre → move_assign_throws y = false →
  move_assign_at (pre ++ Obj y :: Obj z :: post) to from =
  Done () (pre ++ Obj (moved_from y) :: Obj y :: post) [EvMoveAssign y].
Proof.
  intros -> -> Hy. unfold move_assign_at.
  by rewrite lookup_middle_S, lookup_middle, Hy, insert_middle_S,
    insert_middle.
Qed.

Lemma move_forward_spec ys pre post (a : T) first d_first :
  d_first = length pre → first = S (length pre) →
  Forall (λ y, move_assign_throws y = false) ys →
  move_forward (pre ++ Obj a :: (Obj <$> ys) ++ post) first (length ys) d_first =
  Done () (pre ++ (Obj <$> ys) ++ Obj (vacated a ys) :: post)
    (EvMoveAssign <$> ys).
Proof.
  revert pre a first d_first.
  induction ys as [|y ys IH]; intros pre a first d_first -> -> Hok; [done|].
  apply Forall_cons in Hok as [Hy Hok]. simpl.
  rewrite (move_assign_at_left pre) by done. simpl.
  rewrite (snoc_focus pre).
  rewrite (IH (pre ++ [Obj y]) (moved_from y)); rewrite ?length_snoc; [|done..].
  simpl. by rewrite <-app_assoc.
Qed.

Lemma move_backward_spec ys pre post (z : T) first d_last :
  first = length pre → d_last = length pre + length ys + 1 →
  Forall (λ y, move_assign_throws y = false) ys →
  move_backward (pre ++ (Obj <$> ys) ++ Obj z :: post) first (length ys) d_last =
  Done () (pre ++ Obj (hole z ys) :: (Obj <$> ys) ++ post)
    (EvMoveAssign <$> reverse ys).
Proof.
  revert post z first d_last.
  induction ys as [|y ys IH] using rev_ind; intros post z first d_last -> -> Hok.
  { done. }
  apply Forall_app in Hok as [Hok Hy]. rewrite Forall_singleton in Hy.
  rewrite length_app. simpl.
  replace (length ys + 1) with (S (length ys)) by lia. simpl.
  rewrite fmap_app. simpl.
  replace (pre ++ ((Obj <$> ys) ++ [Obj y]) ++ Obj z :: post)
    with ((pre ++ (Obj <$> ys)) ++ Obj y :: Obj z :: post)
    by by rewrite <-!app_assoc.
  rewrite (move_assign_at_right (pre ++ (Obj <$> ys))); [|rewrite length_app, length_fmap; lia..|done].
  simpl. rewrite <-app_assoc.
  rewrite (IH (Obj y :: post) (moved_from y)); [|done|lia|done].
  rewrite reverse_snoc, <-app_assoc. simpl. do 3 f_equal. by destruct ys.
Qed.

Lemma copy_assign_loop_spec ys spre spost dpre dmid dpost i :
  i = length spre → i = length dpre → length dmid = length ys →
  Forall (λ y, copy_assign_throws y = false) ys →
  copy_assign_loop (spre ++ (Obj <$> ys) ++ spost)
    (dpre ++ (Obj <$> dmid) ++ dpost) i (length ys) =
  Done () (dpre ++ (Obj <$> ys) ++ dpost) (EvCopyAssign <$> ys).
Proof.
  revert spre dpre dmid i.
  induction ys as [|y ys IH]; intros spre dpre dmid i -> Hi Hlen Hok.
  { by destruct dmid. }
  destruct dmid as [|c dmid]; [done|]. simpl in Hlen.
  apply Forall_cons in Hok as [Hy Hok].
  simpl. unfold copy_assign_at.
  rewrite lookup_middle, Hi, lookup_middle, Hy, insert_middle. simpl.
  rewrite (snoc_focus spre), (snoc_focus dpre).
  rewrite (IH (spre ++ [Obj y]) (dpre ++ [Obj y]) dmid);
    rewrite ?length_snoc; [|lia|lia|lia|done].
  simpl. by rewrite <-app_assoc.
Qed.
End StorageLemmas.

(** ** The methods on valid vectors, when no element operation throws *)

Section MethodLemmas.
Context {T : Type} `{Element T}.
Implicit Types (pre post cells : list (slot T)) (xs ys zs : list T).

#[local] Arguments Nat.mul : simpl never.
#[local] Arguments Nat.sub : simpl never.

(** Equalities of blocks, or of their lengths, up to the arithmetic of the
    sizes. *)
Ltac cells_eq :=
  repeat (rewrite ?fmap_app, ?length_app, ?length_fmap, <-?app_assoc; simpl);
  repeat match goal with
    | |- _ ++ _ = _ ++ _ => f_equal
    | |- _ :: _ = _ :: _ => f_equal
    | |- replicate _ _ = replicate _ _ => f_equal
    | |- @eq nat _ _ => lia
    end.

Lemma relocate_spec ys spre spost dpre dmid dpost first d_first :
  first = length spre → d_first = length dpre → length dmid = length ys →
  Forall (λ y, transfer_throws y = false) ys →
  relocate (spre ++ (Obj <$> ys) ++ spost) first (length ys)
    (dpre ++ dmid ++ dpost) d_first =
  Done () (spre ++ (Obj <$> (left_behind <$> ys)) ++ spost,
           dpre ++ (Obj <$> ys) ++ dpost) (transfer_event <$> ys).
Proof.
  intros Hf Hd Hlen Hok.
  unfold relocate, transfer_throws, transfer_event, left_behind, prefers_move in *.
  destruct (is_nothrow_move_constructible || negb is_copy_constructible).
  - by apply uninitialized_move_n_spec.
  - rewrite uninitialized_copy_n_spec by done. simpl.
    by rewrite list_fmap_id.
Qed.

Lemma commit_spec (this : Vector T) zs post (new_data : RawMemory T) :
  length zs = size_ this →
  commit this ((Obj <$> zs) ++ post) new_data =
  Done () {| data_ := new_data; size_ := size_ this |} (EvDtor <$> zs).
Proof.
  intros Hlen. unfold commit. rewrite <-Hlen.
  pose proof (destroy_n_spec zs [] post 0 eq_refl) as Hd. simpl in Hd.
  rewrite Hd. simpl. by destruct new_data.
Qed.

(** The block obtained for a count whose byte count fits has room for
    that many elements; when the byte count wrapped, for fewer. *)
Lemma granted_fits n : fits_size_t n = true → granted n = n.
Proof.
  unfold fits_size_t, granted, byte_count. intros Hfit.
  apply N.ltb_lt in Hfit.
  rewrite N.mod_small by done. rewrite N.div_mul by done.
  apply Nat2N.id.
Qed.

Lemma granted_wraps n : fits_size_t n = false → granted n < n.
Proof.
  unfold fits_size_t, granted, byte_count. intros Hwrap.
  apply N.ltb_ge in Hwrap.
  assert (((N.of_nat n * N.pos sizeof_T) mod 2 ^ 64 / N.pos sizeof_T <
           N.of_nat n)%N) as Hlt; [|lia].
  apply N.Div0.div_lt_upper_bound.
  pose proof (N.mod_upper_bound (N.of_nat n * N.pos sizeof_T) (2 ^ 64)).
  lia.
Qed.

(** On a count whose byte count fits, the constructor is the one the
    methods use for the counts they compute; and twice the size of a block
    of fewer than [2^63] bytes is such a count. *)
Lemma RawMemory_new_fits n :
  fits_size_t n = true → RawMemory_new n = RawMemory_within n.
Proof.
  intros Hfit. unfold RawMemory_new, RawMemory_within, Allocate. simpl.
  by rewrite granted_fits.
Qed.

Lemma fits_size_t_doubling n :
  (N.of_nat n * N.pos sizeof_T < 2 ^ 63)%N → fits_size_t (2 * n) = true.
Proof.
  intros Hblock. unfold fits_size_t. apply N.ltb_lt.
  rewrite Nat2N.inj_mul. change (N.of_nat 2) with 2%N.
  change (2 ^ 64)%N with (2 * 2 ^ 63)%N. lia.
Qed.

(** [Reserve] beyond the capacity, whatever block [Allocate] obtains, as
    long as the elements fit in it. *)
Lemma Reserve_granted_spec xs cap k :
  length xs ≤ cap → cap < k → length xs ≤ granted k →
  Forall (λ y, transfer_throws y = false) xs →
  Reserve k (vec xs cap) =
  Done ()
    {| data_ := {| buffer_ := Cells ((Obj <$> xs) ++
                                     replicate (granted k - length xs) Raw);
                   capacity_ := k |};
       size_ := length xs |}
    (EvAlloc k :: (transfer_event <$> xs) ++ (EvDtor <$> (left_behind <$> xs))).
Proof.
  intros Hle Hlt Hroom Hok. unfold Reserve. simpl.
  case_decide; [lia|]. case_decide; [lia|].
  unfold mem at 1 2. simpl.
  replace (replicate (granted k) (@Raw T))
    with (replicate (length xs) (@Raw T) ++
          replicate (granted k - length xs) Raw)
    by (rewrite <-replicate_add; f_equal; lia).
  pose proof (relocate_spec xs [] (replicate (cap - length xs) Raw)
                [] (replicate (length xs) Raw)
                (replicate (granted k - length xs) Raw)
                0 0 eq_refl eq_refl (length_replicate _ _) Hok) as Hr.
  simpl in Hr. rewrite Hr.
  simpl. by rewrite commit_spec by by rewrite !length_fmap.
Qed.

Lemma Reserve_spec xs cap k :
  length xs ≤ cap → cap < k → fits_size_t k = true →
  Forall (λ y, transfer_throws y = false) xs →
  Reserve k (vec xs cap) =
  Done () (vec xs k)
    (EvAlloc k :: (transfer_event <$> xs) ++ (EvDtor <$> (left_behind <$> xs))).
Proof.
  intros Hle Hlt Hfit Hok.
  rewrite Reserve_granted_spec by (rewrite ?granted_fits; (lia || done)).
  by rewrite granted_fits.
Qed.

Lemma vec_eq cells cap n xs :
  cells = (Obj <$> xs) ++ replicate (cap - length xs) Raw → n = length xs →
  {| data_ := {| buffer_ := Cells cells; capacity_ := cap |}; size_ := n |} =
  vec xs cap.
Proof. by intros -> ->. Qed.

Lemma construct_at_app pre post (c : slot T) (x : T) i :
  i = length pre →
  construct_at (pre ++ c :: post) i x = Some (pre ++ Obj x :: post).
Proof. intros ->. apply construct_at_middle. Qed.

Lemma raw_split n k :
  k < n → replicate n (@Raw T) = replicate k Raw ++ Raw :: replicate (n - k - 1) Raw.
Proof.
  intros Hlt. replace n with (k + S (n - k - 1)) at 1 by lia.
  by rewrite replicate_add.
Qed.

Lemma construct_at_raw n k (x : T) :
  k < n →
  construct_at (replicate n Raw) k x =
  Some (replicate k Raw ++ Obj x :: replicate (n - k - 1) Raw).
Proof.
  intros Hlt. rewrite (raw_split n k) by done.
  apply construct_at_app. by rewrite length_replicate.
Qed.

Lemma construct_at_end xs k (x : T) :
  construct_at ((Obj <$> xs) ++ replicate (S k) Raw) (length xs) x =
  Some ((Obj <$> (xs ++ [x])) ++ replicate k Raw).
Proof.
  simpl. rewrite construct_at_app by by rewrite length_fmap.
  by rewrite fmap_app, <-app_assoc.
Qed.

Lemma EmplaceBack_grow_spec xs cap (x : T) :
  length xs = cap →
  Forall (λ y, transfer_throws y = false) xs →
  EmplaceBack (Some x) (vec xs cap) =
  Done (length xs)
    (vec (xs ++ [x]) (if decide (length xs = 0) then 1 else 2 * length xs))
    (EvAlloc (if decide (length xs = 0) then 1 else 2 * length xs) ::
     EvConstruct x :: (transfer_event <$> xs) ++
     (EvDtor <$> (left_behind <$> xs))).
Proof.
  intros <- Hok. unfold EmplaceBack. simpl.
  case_decide; [|done].
  set (n := if decide (length xs = 0) then 1 else 2 * length xs).
  assert (length xs < n) as Hn by (unfold n; case_decide; lia).
  case_decide; [lia|].
  unfold mem at 1 2. simpl.
  rewrite construct_at_raw by done.
  pose proof (relocate_spec xs [] (replicate (length xs - length xs) Raw)
                [] (replicate (length xs) Raw)
                (Obj x :: replicate (n - length xs - 1) Raw)
                0 0 eq_refl eq_refl (length_replicate _ _) Hok) as Hr.
  simpl in Hr. rewrite Hr.
  simpl. rewrite commit_spec by by rewrite !length_fmap.
  simpl. do 2 f_equal.
  - unfold with_size, with_mem. simpl. apply vec_eq.
    + rewrite fmap_app, <-app_assoc, length_app. simpl.
      do 3 f_equal. lia.
    + rewrite length_app. simpl. lia.
  - by rewrite app_nil_r.
Qed.

Lemma EmplaceBack_room_spec xs cap (x : T) :
  length xs < cap →
  EmplaceBack (Some x) (vec xs cap) =
  Done (length xs) (vec (xs ++ [x]) cap) [EvConstruct x].
Proof.
  intros Hlt. unfold EmplaceBack. simpl.
  case_decide; [lia|].
  unfold mem. simpl.
  replace (cap - length xs) with (S (cap - length xs - 1)) by lia.
  rewrite construct_at_end. simpl. do 2 f_equal.
  apply vec_eq.
  - rewrite length_app. simpl. do 2 f_equal. lia.
  - rewrite length_app. simpl. lia.
Qed.

Lemma Emplace_reading_grow_spec xs ys cap (x : T) args :
  length (xs ++ ys) = cap →
  args (mem (data_ (vec (xs ++ ys) cap))) = Some (Some x) →
  Forall (λ y, transfer_throws y = false) (xs ++ ys) →
  Emplace_reading (length xs) args (vec (xs ++ ys) cap) =
  Done (length xs)
    (vec (xs ++ x :: ys)
       (if decide (length (xs ++ ys) = 0) then 1 else 2 * length (xs ++ ys)))
    (EvAlloc (if decide (length (xs ++ ys) = 0) then 1
              else 2 * length (xs ++ ys)) ::
     EvConstruct x :: (transfer_event <$> (xs ++ ys)) ++
     (EvDtor <$> (left_behind <$> (xs ++ ys)))).
Proof.
  intros <- Hargs Hok. apply Forall_app in Hok as [Hpre Hsuf].
  unfold Emplace_reading. rewrite Hargs. simpl.
  set (n := if decide (length (xs ++ ys) = 0) then 1
            else 2 * length (xs ++ ys)).
  assert (length (xs ++ ys) < n) as Hn by (unfold n; case_decide; lia).
  rewrite length_app in Hn.
  case_decide as Hpos; [rewrite length_app in Hpos; lia|].
  case_decide; [|done]. case_decide; [lia|].
  unfold mem at 1 2. simpl.
  rewrite construct_at_raw by lia.
  rewrite length_app, Nat.sub_diag, app_nil_r, fmap_app.
  pose proof (relocate_spec xs [] (Obj <$> ys)
                [] (replicate (length xs) Raw)
                (Obj x :: replicate (n - length xs - 1) Raw)
                0 0 eq_refl eq_refl (length_replicate _ _) Hpre) as Hr.
  simpl in Hr. rewrite Hr. clear Hr. simpl.
  replace (length xs + length ys - length xs) with (length ys) by lia.
  replace (n - length xs - 1)
    with (length ys + (n - length xs - 1 - length ys)) by lia.
  rewrite replicate_add.
  pose proof (relocate_spec ys (Obj <$> (left_behind <$> xs)) []
                ((Obj <$> xs) ++ [Obj x]) (replicate (length ys) Raw)
                (replicate (n - length xs - 1 - length ys) Raw)
                (length xs) (length xs + 1)) as Hr.
  rewrite app_nil_r, <-!app_assoc in Hr. simpl in Hr.
  rewrite Hr; [|by rewrite !length_fmap|rewrite length_app, length_fmap; simpl; lia
               |by rewrite length_replicate|done].
  clear Hr. simpl.
  rewrite (app_assoc (Obj <$> (left_behind <$> xs))), <-!fmap_app.
  rewrite commit_spec by (simpl; by rewrite !length_fmap, !length_app).
  simpl. do 2 f_equal.
  - unfold with_size, with_mem. simpl. apply vec_eq.
    + rewrite fmap_app, <-app_assoc, !length_app. simpl.
      do 4 f_equal. lia.
    + rewrite !length_app. simpl. lia.
  - by rewrite app_nil_r, !fmap_app, <-app_assoc.
Qed.

Lemma Emplace_grow_spec xs ys cap (x : T) :
  length (xs ++ ys) = cap →
  Forall (λ y, transfer_throws y = false) (xs ++ ys) →
  Emplace (length xs) (Some x) (vec (xs ++ ys) cap) =
  Done (length xs)
    (vec (xs ++ x :: ys)
       (if decide (length (xs ++ ys) = 0) then 1 else 2 * length (xs ++ ys)))
    (EvAlloc (if decide (length (xs ++ ys) = 0) then 1
              else 2 * length (xs ++ ys)) ::
     EvConstruct x :: (transfer_event <$> (xs ++ ys)) ++
     (EvDtor <$> (left_behind <$> (xs ++ ys)))).
Proof. intros. by apply Emplace_reading_grow_spec. Qed.

Lemma Emplace_reading_room_end_spec xs cap (x : T) args :
  length xs < cap →
  args (mem (data_ (vec xs cap))) = Some (Some x) →
  Emplace_reading (length xs) args (vec xs cap) =
  Done (length xs) (vec (xs ++ [x]) cap) [EvConstruct x].
Proof.
  intros Hlt Hargs. unfold Emplace_reading. rewrite Hargs. simpl.
  case_decide; [lia|]. case_decide; [lia|]. case_decide; [done|].
  unfold mem. simpl.
  replace (cap - length xs) with (S (cap - length xs - 1)) by lia.
  rewrite construct_at_end. simpl. do 2 f_equal.
  apply vec_eq.
  - rewrite length_app. simpl. do 2 f_equal. lia.
  - rewrite length_app. simpl. lia.
Qed.

Lemma Emplace_room_end_spec xs cap (x : T) :
  length xs < cap →
  Emplace (length xs) (Some x) (vec xs cap) =
  Done (length xs) (vec (xs ++ [x]) cap) [EvConstruct x].
Proof. intros. by apply Emplace_reading_room_end_spec. Qed.

(** The storage of [vec (xs ++ ys ++ [l]) cap] when the tail [ys ++ [l]]
    was shifted one slot to the right, before the new element is assigned
    to the slot at [length xs]: [k] slots are left uninitialized. *)
Lemma Emplace_reading_room_spec xs ys (l x : T) cap k args :
  cap = length (xs ++ ys ++ [l]) + S k →
  move_ctor_throws l = false →
  Forall (λ y, move_assign_throws y = false) ys →
  args ((Obj <$> xs) ++ Obj (hole (moved_from l) ys) :: (Obj <$> ys) ++
        Obj l :: replicate k Raw) = Some (Some x) →
  move_assign_throws x = false →
  Emplace_reading (length xs) args (vec (xs ++ ys ++ [l]) cap) =
  Done (length xs) (vec (xs ++ x :: ys ++ [l]) cap)
    (EvMoveCtor l :: (EvMoveAssign <$> reverse ys) ++
     [EvConstruct x; EvMoveAssign x; EvDtor (moved_from x)]).
Proof.
  intros Hcap Hl Hys Hargs Hx. unfold Emplace_reading. simpl.
  rewrite !length_app in *. simpl in *.
  case_decide; [lia|]. case_decide; [lia|]. case_decide; [|lia].
  unfold mem. simpl.
  replace (cap - (length xs + (length ys + 1))) with (S k) by lia.
  assert (length xs + (length ys + 1) - 1 = length (Obj <$> (xs ++ ys))) as Hlast.
  { rewrite length_fmap, length_app. lia. }
  rewrite !fmap_app. simpl.
  replace (((Obj <$> xs) ++ (Obj <$> ys) ++ [Obj l]) ++ Raw :: replicate k Raw)
    with ((Obj <$> (xs ++ ys)) ++ Obj l :: Raw :: replicate k Raw)
    by by rewrite fmap_app, <-!app_assoc.
  replace (length xs + (length ys + 1) - 1 - length xs) with (length ys) by lia.
  rewrite Hlast, lookup_middle, Hl, insert_middle.
  rewrite (snoc_focus (Obj <$> xs ++ ys)).
  rewrite construct_at_app
    by (rewrite length_snoc, length_fmap, length_app; lia).
  simpl.
  rewrite fmap_app, <-!app_assoc. simpl.
  rewrite (move_backward_spec ys (Obj <$> xs));
    [|by rewrite length_fmap|rewrite length_fmap; lia|done].
  simpl. rewrite Hargs.
  rewrite <-(length_fmap Obj xs), lookup_middle, Hx, insert_middle. simpl.
  do 2 f_equal.
  - unfold with_size, with_cells, with_mem. simpl. apply vec_eq.
    + subst cap. cells_eq.
    + cells_eq.
  - by rewrite app_nil_r.
Qed.

Lemma Emplace_room_spec xs ys (l x : T) cap :
  length (xs ++ ys ++ [l]) < cap →
  move_ctor_throws l = false →
  Forall (λ y, move_assign_throws y = false) ys →
  move_assign_throws x = false →
  Emplace (length xs) (Some x) (vec (xs ++ ys ++ [l]) cap) =
  Done (length xs) (vec (xs ++ x :: ys ++ [l]) cap)
    (EvMoveCtor l :: (EvMoveAssign <$> reverse ys) ++
     [EvConstruct x; EvMoveAssign x; EvDtor (moved_from x)]).
Proof.
  intros Hlt Hl Hys Hx.
  apply (Emplace_reading_room_spec xs ys l x cap
           (cap - length (xs ++ ys ++ [l]) - 1)); try done. lia.
Qed.

Lemma Erase_spec xs ys (a : T) cap :
  length (xs ++ a :: ys) ≤ cap →
  Forall (λ y, move_assign_throws y = false) ys →
  Erase (length xs) (vec (xs ++ a :: ys) cap) =
  Done (length xs) (vec (xs ++ ys) cap)
    ((EvMoveAssign <$> ys) ++ [EvDtor (vacated a ys)]).
Proof.
  intros Hle Hys. unfold Erase. simpl.
  rewrite !length_app in *. simpl in *.
  case_decide; [lia|].
  unfold mem. simpl.
  rewrite fmap_app, <-app_assoc. simpl.
  replace (length xs + S (length ys) - (length xs + 1)) with (length ys) by lia.
  rewrite (move_forward_spec ys (Obj <$> xs));
    [|by rewrite length_fmap|rewrite length_fmap; lia|done].
  simpl.
  pose proof (destroy_n_spec [vacated a ys] ((Obj <$> xs) ++ (Obj <$> ys))
                (replicate (cap - (length xs + S (length ys))) Raw)
                (length xs + S (length ys) - 1)) as Hd.
  simpl in Hd. rewrite <-app_assoc in Hd. rewrite Hd
    by (rewrite length_app, !length_fmap; lia).
  simpl. rewrite app_nil_r. f_equal.
  unfold with_size, with_cells, with_mem. simpl. apply vec_eq.
  - rewrite fmap_app, <-!app_assoc, length_app. do 2 f_equal.
    replace (cap - (length xs + length ys))
      with (S (cap - (length xs + S (length ys)))) by lia.
    done.
  - cells_eq.
Qed.
End MethodLemmas.

(** ** The transfers are defined on blocks of the right shape *)

Section Totality.
Context {T : Type} `{Element T}.
Implicit Types (pre post cells : list (slot T)) (xs ys zs : list T).

Lemma final_state_emit {S A} (tr : trace T) (r : result T S A) :
  final_state (emit tr r) = final_state r.
Proof. by destruct r. Qed.

Lemma final_state_lift {S S' A} (f : S → S') (r : result T S A) :
  final_state (lift f r) = f <$> final_state r.
Proof. by destruct r. Qed.

Lemma final_state_rethrow {S A B} (r : result T S A) :
  final_state (rethrow (B:=B) r) = final_state r.
Proof. by destruct r. Qed.

Lemma uninitialized_copy_loop_total ys spre spost dpre built dmid dpost
    first d_first cur :
  first = length spre → d_first = length dpre →
  cur = length dpre + length built → length dmid = length ys →
  is_Some (final_state
    (uninitialized_copy_loop (spre ++ (Obj <$> ys) ++ spost) first (length ys)
       (dpre ++ (Obj <$> built) ++ dmid ++ dpost) d_first cur)).
Proof.
  revert spre built dmid first cur.
  induction ys as [|y ys IH]; intros spre built dmid first cur -> -> -> Hlen.
  { by eexists. }
  destruct dmid as [|c dmid]; [done|]. simpl in Hlen.
  simpl. rewrite lookup_middle.
  destruct (copy_ctor_throws y).
  - replace (length dpre + length built - length dpre) with (length built) by lia.
    rewrite final_state_rethrow, destroy_n_spec by done. by eexists.
  - rewrite app_assoc, construct_at_app
      by (rewrite length_app, length_fmap; lia).
    rewrite final_state_emit, (snoc_focus spre).
    replace ((dpre ++ (Obj <$> built)) ++ Obj y :: dmid ++ dpost)
      with (dpre ++ (Obj <$> (built ++ [y])) ++ dmid ++ dpost)
      by (rewrite fmap_app, <-!app_assoc; done).
    apply IH; rewrite ?length_snoc, ?length_app; simpl; lia.
Qed.

Lemma uninitialized_move_loop_total ys spre spost dpre built dmid dpost
    first d_first cur :
  first = length spre → d_first = length dpre →
  cur = length dpre + length built → length dmid = length ys →
  ∃ zs dst,
    length zs = length ys ∧
    final_state
      (uninitialized_move_loop (spre ++ (Obj <$> ys) ++ spost) first (length ys)
         (dpre ++ (Obj <$> built) ++ dmid ++ dpost) d_first cur) =
    Some (spre ++ (Obj <$> zs) ++ spost, dst).
Proof.
  revert spre built dmid first cur.
  induction ys as [|y ys IH]; intros spre built dmid first cur -> -> -> Hlen.
  { by exists [], (dpre ++ (Obj <$> built) ++ dmid ++ dpost). }
  destruct dmid as [|c dmid]; [done|]. simpl in Hlen.
  simpl. rewrite lookup_middle.
  destruct (move_ctor_throws y).
  - replace (length dpre + length built - length dpre) with (length built) by lia.
    rewrite final_state_lift, final_state_rethrow, destroy_n_spec by done.
    by eexists (y :: ys), _.
  - rewrite app_assoc, construct_at_app
      by (rewrite length_app, length_fmap; lia).
    rewrite final_state_emit, insert_middle, (snoc_focus spre).
    replace ((dpre ++ (Obj <$> built)) ++ Obj y :: dmid ++ dpost)
      with (dpre ++ (Obj <$> (built ++ [y])) ++ dmid ++ dpost)
      by (rewrite fmap_app, <-!app_assoc; done).
    destruct (IH (spre ++ [Obj (moved_from y)]) (built ++ [y]) dmid
                (S (length spre)) (S (length dpre + length built)))
      as (zs & dst & Hzs & Hfin);
      [rewrite ?length_snoc, ?length_app; simpl; lia..|].
    exists (moved_from y :: zs), dst. split; [simpl; lia|].
    etrans; [exact Hfin|]. by rewrite <-app_assoc.
Qed.

Lemma relocate_total ys spre spost dpre dmid dpost first d_first :
  first = length spre → d_first = length dpre → length dmid = length ys →
  ∃ zs dst,
    length zs = length ys ∧
    final_state
      (relocate (spre ++ (Obj <$> ys) ++ spost) first (length ys)
         (dpre ++ dmid ++ dpost) d_first) =
    Some (spre ++ (Obj <$> zs) ++ spost, dst).
Proof.
  intros Hf Hd Hlen. unfold relocate.
  destruct (is_nothrow_move_constructible || negb is_copy_constructible).
  - apply (uninitialized_move_loop_total ys spre spost dpre [] dmid dpost);
      [done|done|simpl; lia|done].
  - rewrite final_state_lift.
    destruct (uninitialized_copy_loop_total ys spre spost dpre [] dmid dpost
                first d_first d_first) as [dst Hdst];
      [done|done|simpl; lia|done|].
    unfold uninitialized_copy_n. simpl in Hdst. rewrite Hdst.
    by exists ys, dst.
Qed.
End Totality.

(** ** Which events a call can leave in its trace *)

Section Silence.
Context {T : Type} `{Element T} {B : Type} (f : event T → option B).
Implicit Types (cells src dst : list (slot T)).

Lemma silent_emit {S A} (tr : trace T) (r : result T S A) :
  omap f tr = [] → omap f (events r) = [] → omap f (events (emit tr r)) = [].
Proof. intros Htr Hr. destruct r; simpl in *; [..|done]; by rewrite omap_app, Htr, Hr. Qed.

Lemma silent_bind {S A A'} (r : result T S A) (k : A → S → result T S A') :
  omap f (events r) = [] → (∀ a s, omap f (events (k a s)) = []) →
  omap f (events (bind r k)) = [].
Proof. intros Hr Hk. destruct r; simpl in *; [|done..]. by apply silent_emit. Qed.

Lemma silent_lift {S S' A} (g : S → S') (r : result T S A) :
  omap f (events (lift g r)) = omap f (events r).
Proof. by destruct r. Qed.

Lemma silent_rethrow {S A A'} (r : result T S A) :
  omap f (events (rethrow (B:=A') r)) = omap f (events r).
Proof. by destruct r. Qed.

Lemma silent_destroy_n cells first n :
  (∀ x, f (EvDtor x) = None) → omap f (events (destroy_n cells first n)) = [].
Proof.
  intros Hd. revert cells first. induction n as [|n IH]; intros cells first; [done|].
  simpl. destruct (cells !! first) as [[|x]|]; [done| |done].
  apply silent_emit; [simpl; by rewrite Hd|apply IH].
Qed.

Lemma silent_uninitialized_copy_loop src first n dst d_first cur :
  (∀ x, f (EvDtor x) = None) → (∀ x, f (EvCopyCtor x) = None) →
  omap f (events (uninitialized_copy_loop src first n dst d_first cur)) = [].
Proof.
  intros Hd Hc. revert first dst cur.
  induction n as [|n IH]; intros first dst cur; [done|].
  simpl. destruct (src !! first) as [[|x]|]; [done| |done].
  destruct (copy_ctor_throws x).
  - rewrite silent_rethrow. by apply silent_destroy_n.
  - destruct (construct_at dst cur x); [|done].
    apply silent_emit; [simpl; by rewrite Hc|apply IH].
Qed.

Lemma silent_uninitialized_move_loop src first n dst d_first cur :
  (∀ x, f (EvDtor x) = None) → (∀ x, f (EvMoveCtor x) = None) →
  omap f (events (uninitialized_move_loop src first n dst d_first cur)) = [].
Proof.
  intros Hd Hm. revert src first dst cur.
  induction n as [|n IH]; intros src first dst cur; [done|].
  simpl. destruct (src !! first) as [[|x]|]; [done| |done].
  destruct (move_ctor_throws x).
  - rewrite silent_lift, silent_rethrow. by apply silent_destroy_n.
  - destruct (construct_at dst cur x); [|done].
    apply silent_emit; [simpl; by rewrite Hm|apply IH].
Qed.

(** A relocation leaves only destructions and transfers of the one kind
    selected. *)
Lemma silent_relocate src first n dst d_first :
  (∀ x, f (EvDtor x) = None) → (∀ x, f (transfer_event x) = None) →
  omap f (events (relocate src first n dst d_first)) = [].
Proof.
  intros Hd Ht. unfold relocate, transfer_event, prefers_move in *.
  destruct (is_nothrow_move_constructible || negb is_copy_constructible).
  - by apply silent_uninitialized_move_loop.
  - rewrite silent_lift. by apply silent_uninitialized_copy_loop.
Qed.

Lemma silent_commit (this : Vector T) src (new_data : RawMemory T) :
  (∀ x, f (EvDtor x) = None) → omap f (events (commit this src new_data)) = [].
Proof.
  intros Hd. unfold commit.
  pose proof (silent_destroy_n src 0 (size_ this) Hd) as Hs.
  by destruct (destroy_n src 0 (size_ this)).
Qed.

Lemma silent_Allocate n :
  (∀ k, f (EvAlloc k) = None) → omap f (RawMemory_new (T:=T) n).2 = [].
Proof. intros Ha. simpl. case_decide; [done|]. simpl. by rewrite Ha. Qed.

Lemma silent_within n :
  (∀ k, f (EvAlloc k) = None) → omap f (RawMemory_within (T:=T) n).2 = [].
Proof. intros Ha. simpl. case_decide; [done|]. simpl. by rewrite Ha. Qed.

Lemma silent_Reserve k (v : Vector T) :
  (∀ n, f (EvAlloc n) = None) → (∀ x, f (EvDtor x) = None) →
  (∀ x, f (transfer_event x) = None) →
  omap f (events (Reserve k v)) = [].
Proof.
  intros Ha Hd Ht. unfold Reserve. case_decide; [done|].
  destruct (RawMemory_new k) as [new_data alloc] eqn:Hnew.
  apply silent_emit.
  { change alloc with (new_data, alloc).2. rewrite <-Hnew. by apply silent_Allocate. }
  pose proof (silent_relocate (mem (data_ v)) 0 (size_ v) (mem new_data) 0 Hd Ht) as Hr.
  destruct (relocate _ _ _ _ _) as [? [src dst] tr|[src dst] tr|]; simpl in *; [|done..].
  change tr with (events (Done (A:=unit) () (src, dst) tr)).
  apply (silent_emit (S:=Vector T)); [done|]. by apply silent_commit.
Qed.

Lemma silent_EmplaceBack (a : option T) (v : Vector T) :
  (∀ n, f (EvAlloc n) = None) → (∀ x, f (EvDtor x) = None) →
  (∀ x, f (EvConstruct x) = None) → (∀ x, f (transfer_event x) = None) →
  omap f (events (EmplaceBack a v)) = [].
Proof.
  intros Ha Hd Hc Ht. unfold EmplaceBack. apply silent_bind; [|done].
  case_decide.
  - destruct (RawMemory_within _) as [new_data alloc] eqn:Hnew.
    apply silent_emit.
    { change alloc with (new_data, alloc).2. rewrite <-Hnew. by apply silent_within. }
    destruct a as [x|]; [|done].
    destruct (construct_at _ _ _) as [dst0|]; [|done].
    apply silent_emit; [simpl; by rewrite Hc|].
    pose proof (silent_relocate (mem (data_ v)) 0 (size_ v) dst0 0 Hd Ht) as Hr.
    destruct (relocate _ _ _ _ _) as [? [src dst] tr|[src dst] tr|];
      simpl in *; [|done..].
    change tr with (events (Done (A:=unit) () (src, dst) tr)).
    apply (silent_emit (S:=Vector T)); [done|]. by apply silent_commit.
  - destruct a as [x|]; [|done].
    destruct (construct_at _ _ _); [|done]. simpl. by rewrite Hc.
Qed.

Lemma silent_Emplace_grow pos (a : option T) (v : Vector T) :
  size_ v = RawMemory_Capacity (data_ v) →
  (∀ n, f (EvAlloc n) = None) → (∀ x, f (EvDtor x) = None) →
  (∀ x, f (EvConstruct x) = None) → (∀ x, f (transfer_event x) = None) →
  omap f (events (Emplace pos a v)) = [].
Proof.
  intros Hfull Ha Hd Hc Ht. unfold Emplace, Emplace_reading. case_decide; [done|].
  apply silent_bind; [|done].
  case_decide; [|done].
  destruct (RawMemory_within _) as [new_data alloc] eqn:Hnew.
  apply silent_emit.
  { change alloc with (new_data, alloc).2. rewrite <-Hnew. by apply silent_within. }
  destruct a as [x|]; [|done].
  destruct (construct_at _ _ _) as [dst0|]; [|done].
  apply silent_emit; [simpl; by rewrite Hc|].
  match goal with |- context [bind ?r ?k] =>
    assert (omap f (events (bind r k)) = []) as Hr;
    [|destruct (bind r k) as [? [src dst] tr|[src dst] tr|]] end.
  { apply silent_bind; [by apply silent_relocate|].
    intros _ [src dst]. by apply silent_relocate. }
  - change tr with (events (Done (A:=unit) () (src, dst) tr)).
    apply (silent_emit (S:=Vector T)); [done|]. by apply silent_commit.
  - change tr with (events (Done (A:=unit) () (src, dst) tr)).
    apply (silent_emit (S:=Vector T)); [done|]. by apply silent_commit.
  - done.
Qed.
End Silence.

(** * The claims *)

Section Claims.
Context {T : Type} `{Element T}.
Implicit Types (v w : Vector T) (xs ys : list T) (x : T).

#[local] Arguments Nat.mul : simpl never.
#[local] Arguments Nat.sub : simpl never.

Lemma omap_fmap_None {B} (f : event T → option B) (g : T → event T) xs :
  (∀ x, f (g x) = None) → omap f (g <$> xs) = [].
Proof. intros Hfg. induction xs; simpl; [done|]. by rewrite Hfg. Qed.

Lemma omap_fmap_Some (f : event T → option T) (g : T → event T) xs :
  (∀ x, f (g x) = Some x) → omap f (g <$> xs) = xs.
Proof. intros Hfg. induction xs; simpl; [done|]. rewrite Hfg. by f_equal. Qed.

(** The projections of a trace on the traces of the method specifications. *)
Lemma moved_transfer_events xs :
  moved (transfer_event <$> xs) =
  if is_nothrow_move_constructible || negb is_copy_constructible then xs else [].
Proof.
  unfold moved, transfer_event, prefers_move.
  destruct (is_nothrow_move_constructible || negb is_copy_constructible);
    induction xs; simpl; by f_equal.
Qed.

Lemma copied_transfer_events xs :
  copied (transfer_event <$> xs) =
  if is_nothrow_move_constructible || negb is_copy_constructible then [] else xs.
Proof.
  unfold copied, transfer_event, prefers_move.
  destruct (is_nothrow_move_constructible || negb is_copy_constructible);
    induction xs; simpl; by f_equal.
Qed.

Lemma moved_dtor_events xs : moved (EvDtor <$> xs) = [].
Proof. unfold moved. by induction xs. Qed.

Lemma copied_dtor_events xs : copied (EvDtor <$> xs) = [].
Proof. unfold copied. by induction xs. Qed.

Lemma transfers_growth_trace xs ys (pre : trace T) :
  moved pre = [] → copied pre = [] →
  transfers xs (pre ++ (transfer_event <$> xs) ++ (EvDtor <$> ys)).
Proof.
  intros Hm Hc. unfold transfers. split.
  - unfold moved in *. rewrite !omap_app, Hm. fold (moved (transfer_event <$> xs)).
    fold (moved (EvDtor <$> ys)).
    by rewrite moved_transfer_events, moved_dtor_events, app_nil_r.
  - unfold copied in *. rewrite !omap_app, Hc. fold (copied (transfer_event <$> xs)).
    fold (copied (EvDtor <$> ys)).
    by rewrite copied_transfer_events, copied_dtor_events, app_nil_r.
Qed.

(** [one_way] from the lemma [lem] on the events a method can leave. *)
Ltac one_way_by lem :=
  let E := fresh "E" in
  unfold one_way, copied, moved;
  destruct (is_nothrow_move_constructible || negb is_copy_constructible) eqn:E;
  apply lem; try done;
  intros; unfold transfer_event, prefers_move; by rewrite E.

Lemma destroyed_growth_trace xs ys (pre : trace T) :
  destroyed pre = [] →
  destroyed (pre ++ (transfer_event <$> xs) ++ (EvDtor <$> ys)) = ys.
Proof.
  intros Hd. unfold destroyed in *. rewrite !omap_app, Hd.
  rewrite omap_fmap_None, omap_fmap_Some; [done|done|].
  intros y. unfold transfer_event. by destruct prefers_move.
Qed.

Lemma allocations_growth_trace xs ys (pre : trace T) :
  allocations (pre ++ (transfer_event <$> xs) ++ (EvDtor <$> ys)) =
  allocations pre.
Proof.
  unfold allocations. rewrite !omap_app.
  rewrite !omap_fmap_None; [by rewrite app_nil_r|done|].
  intros y. unfold transfer_event. by destruct prefers_move.
Qed.

(** C1. In each of the three reallocating operations (Reserve beyond the
    capacity, EmplaceBack and Emplace on a full vector) the elements present
    are transferred to the new storage by move construction if and only if
    [T]'s move constructor is declared non-throwing or [T] has no copy
    constructor, and by copy construction otherwise.  Whatever happens
    during the call, its trace has no transfer of the other kind.  When the
    transfer does not throw, the call returns with the elements, in order,
    in the one block it allocated, the new element of EmplaceBack and
    Emplace at its place among them; the transfer is that of all the
    elements, in order, by the kind selected; and the objects of the old
    storage are destroyed in the state in which that kind of transfer
    leaves them, moved from or untouched.  For Reserve the elements have to
    fit in the block obtained, or the transfer writes past it; they do, and
    the result is the valid vector of the capacity asked for, when the
    byte count of that capacity fits [size_t]. *)
Theorem growth_transfers_by_trait v :
  (∀ k, one_way (events (Reserve k v))) ∧
  (∀ a, one_way (events (EmplaceBack a v))) ∧
  (∀ pos a, Size v = Capacity v → one_way (events (Emplace pos a v))) ∧
  (valid v = true →
   Forall (λ y, transfer_throws y = false) (elements v) →
   (∀ k, Capacity v < k → Size v ≤ granted k →
      ∃ tr,
        Reserve k v =
          Done ()
            {| data_ :=
                 {| buffer_ := Cells ((Obj <$> elements v) ++
                                      replicate (granted k - Size v) Raw);
                    capacity_ := k |};
               size_ := Size v |} tr ∧
        (fits_size_t k = true →
           Reserve k v = Done () (vec (elements v) k) tr) ∧
        transfers (elements v) tr ∧ allocations tr = [k] ∧
        destroyed tr = left_behind <$> elements v) ∧
   (∀ x, Size v = Capacity v →
      ∃ tr,
        EmplaceBack (Some x) v =
          Done (Size v)
            (vec (elements v ++ [x])
               (if decide (Size v = 0) then 1 else 2 * Size v)) tr ∧
        transfers (elements v) tr ∧
        allocations tr = [if decide (Size v = 0) then 1 else 2 * Size v] ∧
        destroyed tr = left_behind <$> elements v) ∧
   (∀ pos x, Size v = Capacity v → pos ≤ Size v →
      ∃ tr,
        Emplace pos (Some x) v =
          Done pos
            (vec (take pos (elements v) ++ x :: drop pos (elements v))
               (if decide (Size v = 0) then 1 else 2 * Size v)) tr ∧
        transfers (elements v) tr ∧
        allocations tr = [if decide (Size v = 0) then 1 else 2 * Size v] ∧
        destroyed tr = left_behind <$> elements v)).
Proof.
  split; [|split; [|split]].
  - intros k. one_way_by @silent_Reserve.
  - intros a. one_way_by @silent_EmplaceBack.
  - intros pos a Hfull. one_way_by @silent_Emplace_grow.
  - intros Hv Hok. apply valid_inv in Hv as (xs & cap & Hle & ->).
    rewrite elements_vec in *. rewrite Size_vec, Capacity_vec.
    split; [|split].
    + intros k Hk Hroom. rewrite Reserve_granted_spec by done.
      eexists. split; [done|]. split; [|split; [|split]].
      * intros Hfit. by rewrite granted_fits.
      * by apply (transfers_growth_trace xs _ [EvAlloc k]).
      * apply (allocations_growth_trace xs _ [EvAlloc k]).
      * by apply (destroyed_growth_trace xs _ [EvAlloc k]).
    + intros x Hfull. rewrite EmplaceBack_grow_spec by done.
      eexists. split; [done|]. split; [|split].
      * by apply (transfers_growth_trace xs _ [EvAlloc _; EvConstruct x]).
      * apply (allocations_growth_trace xs _ [EvAlloc _; EvConstruct x]).
      * by apply (destroyed_growth_trace xs _ [EvAlloc _; EvConstruct x]).
    + intros pos x Hfull Hpos.
      pose proof (Emplace_grow_spec (take pos xs) (drop pos xs) cap x) as He.
      rewrite take_drop, length_take_le in He by done.
      rewrite He by done.
      eexists. split; [done|]. split; [|split].
      * by apply (transfers_growth_trace _ _ [EvAlloc _; EvConstruct x]).
      * apply (allocations_growth_trace xs _ [EvAlloc _; EvConstruct x]).
      * by apply (destroyed_growth_trace xs _ [EvAlloc _; EvConstruct x]).
Qed.

Lemma bind_emit {S A B} (tr : trace T) (r : result T S A)
    (k : A → S → result T S B) :
  bind (emit tr r) k = emit tr (bind r k).
Proof. destruct r; simpl; [|done..]. by rewrite emit_emit. Qed.

(** C2. On a vector whose size equals its capacity, EmplaceBack builds the
    new element, in the new storage, before any element present is
    transferred: the trace of the call starts with the allocation and the
    construction.  Hence when the construction throws, the exception leaves
    the call with the vector exactly as it was: same storage, so same
    [Size], [Capacity] and element values.  When nothing throws, the call
    returns with the new element in slot [Size v], after the elements
    present. *)
Theorem EmplaceBack_constructs_first v :
  valid v = true → Size v = Capacity v →
  EmplaceBack None v =
    Thrown v [EvAlloc (if decide (Size v = 0) then 1 else 2 * Size v)] ∧
  (∀ x, ∃ r : result T (Vector T) nat,
     EmplaceBack (Some x) v =
       emit [EvAlloc (if decide (Size v = 0) then 1 else 2 * Size v);
             EvConstruct x] r ∧
     r ≠ Undefined) ∧
  (∀ x, Forall (λ y, transfer_throws y = false) (elements v) →
     ∃ tr, EmplaceBack (Some x) v =
           Done (Size v)
             (vec (elements v ++ [x])
                (if decide (Size v = 0) then 1 else 2 * Size v)) tr).
Proof.
  intros Hv Hfull. apply valid_inv in Hv as (xs & cap & Hle & ->).
  rewrite Size_vec, Capacity_vec in Hfull. subst cap.
  rewrite elements_vec, Size_vec.
  set (n := if decide (length xs = 0) then 1 else 2 * length xs).
  assert (length xs < n) as Hn by (unfold n; case_decide; lia).
  split; [|split].
  - unfold EmplaceBack. simpl. case_decide; [|done].
    fold n. case_decide; [lia|done].
  - intros x. unfold EmplaceBack. simpl. case_decide; [|done].
    fold n. case_decide; [lia|].
    unfold mem at 1 2. simpl. rewrite construct_at_raw by done.
    rewrite !bind_emit, emit_emit. simpl.
    eexists. split; [done|].
    destruct (relocate_total xs [] (replicate (length xs - length xs) Raw)
                [] (replicate (length xs) Raw)
                (Obj x :: replicate (n - length xs - 1) Raw) 0 0)
      as (zs & dst & Hzs & Hfin); [done|done|by rewrite length_replicate|].
    simpl in Hfin.
    destruct (relocate _ _ _ _ _) as [? [src' dst'] tr|[src' dst'] tr|];
      simpl in Hfin; [| |done].
    + injection Hfin as -> ->.
      rewrite commit_spec by by rewrite Hzs. done.
    + done.
  - intros x Hok. eexists. by apply EmplaceBack_grow_spec.
Qed.

(** C7. [Reserve(k)] with [k] within the capacity returns at once: the
    vector is left as it is, so its capacity, its size and its elements are
    unchanged, and nothing is allocated. *)
Theorem Reserve_within_capacity v k :
  k ≤ Capacity v → Reserve k v = Done () v [].
Proof. intros Hk. unfold Reserve. by case_decide. Qed.

(** C8. The move constructor gives the new vector the size and the elements,
    in order, that its source had, and leaves the source with size 0. *)
Theorem move_construct_takes_over w :
  ∃ v w' tr,
    Vector_move w = Done v w' tr ∧
    Size v = Size w ∧ elements v = elements w ∧ Capacity v = Capacity w ∧
    Size w' = 0 ∧ elements w' = [].
Proof.
  destruct w as [[buf cap] n]. unfold Vector_move. simpl.
  by eexists _, _, _.
Qed.

(** C10. Copy assignment of a vector to itself does nothing: the object,
    hence its size, its capacity and its elements, is left as it is. *)
Theorem copy_assign_self (σ : gmap addr (Vector T)) (a : addr) :
  copy_assign a a σ = Done () σ [].
Proof. unfold copy_assign. by case_decide. Qed.

Lemma NoThrow_transfer xs :
  NoThrow T → Forall (λ y, transfer_throws y = false) xs.
Proof.
  intros Hno. apply Forall_forall. intros y _. unfold transfer_throws.
  destruct (Hno y) as (? & ? & _). by destruct prefers_move.
Qed.

Lemma NoThrow_move_assign xs :
  NoThrow T → Forall (λ y, move_assign_throws y = false) xs.
Proof. intros Hno. apply Forall_forall. intros y _. apply Hno. Qed.

Lemma PushBack_spec ys cap x :
  NoThrow T → length ys ≤ cap →
  ∃ tr,
    PushBack x (vec ys cap) =
    Done () (vec (ys ++ [x])
               (if decide (length ys = cap)
                then if decide (length ys = 0) then 1 else 2 * length ys
                else cap)) tr.
Proof.
  intros Hno Hle. unfold PushBack. destruct (Hno x) as (-> & _).
  case_decide as Hfull.
  - rewrite EmplaceBack_grow_spec by (done || by apply NoThrow_transfer).
    by eexists.
  - rewrite EmplaceBack_room_spec by lia. by eexists.
Qed.

Lemma doubled_step n cap :
  n ≤ cap → doubled n cap →
  doubled (S n)
    (if decide (n = cap) then if decide (n = 0) then 1 else 2 * n else cap).
Proof.
  intros Hle [[-> ->]|(k & -> & Hlo & Hhi)].
  - right. exists 0. simpl. lia.
  - right. repeat case_decide.
    + exfalso. pose proof (Nat.pow_nonzero 2 k). lia.
    + exists (S k). rewrite Nat.pow_succ_r'. lia.
    + exists k. lia.
Qed.

Lemma doubled_least n cap j :
  0 < n → doubled n cap → n ≤ 2 ^ j → cap ≤ 2 ^ j.
Proof.
  intros Hn [[-> ->]|(k & -> & Hlo & Hhi)] Hj; [lia|].
  destruct (decide (k ≤ j)) as [Hkj|Hkj].
  - by apply Nat.pow_le_mono_r.
  - destruct k as [|k]; [lia|].
    assert (2 ^ j ≤ 2 ^ k) by (apply Nat.pow_le_mono_r; lia).
    rewrite Nat.pow_succ_r' in Hhi. lia.
Qed.

Lemma append_all_spec xs ys cap :
  NoThrow T → length ys ≤ cap → doubled (length ys) cap →
  ∃ cap' tr,
    append_all xs (vec ys cap) = Done () (vec (ys ++ xs) cap') tr ∧
    length (ys ++ xs) ≤ cap' ∧ doubled (length (ys ++ xs)) cap'.
Proof.
  intros Hno. revert ys cap.
  induction xs as [|x xs IH]; intros ys cap Hle Hd.
  { exists cap, []. by rewrite app_nil_r. }
  simpl. destruct (PushBack_spec ys cap x Hno Hle) as [tr ->]. simpl.
  destruct (IH (ys ++ [x])
              (if decide (length ys = cap)
               then if decide (length ys = 0) then 1 else 2 * length ys
               else cap)) as (cap' & tr' & -> & Hle' & Hd').
  - rewrite length_app. simpl. repeat case_decide; lia.
  - rewrite length_app. simpl. rewrite Nat.add_1_r. by apply doubled_step.
  - rewrite <-app_assoc in *. simpl in *. by eexists _, _.
Qed.

(** C4. When no element operation throws, [n] calls of [PushBack] on a
    default-constructed vector return with [Size = n], the values appended
    as elements, and as [Capacity] the least power of two that is at least
    [n] ([0] for [n = 0]); and one call on any valid vector changes the
    capacity only when the size equals the capacity, to [1] when the vector
    is empty and to twice the size otherwise. *)
Theorem append_doubles_capacity :
  NoThrow T →
  (∀ xs, ∃ v tr,
     append_all xs Vector_default = Done () v tr ∧
     Size v = length xs ∧ elements v = xs ∧
     (length xs = 0 → Capacity v = 0) ∧
     (0 < length xs →
        (∃ k, Capacity v = 2 ^ k) ∧ length xs ≤ Capacity v ∧
        ∀ j, length xs ≤ 2 ^ j → Capacity v ≤ 2 ^ j)) ∧
  (∀ v x, valid v = true →
     ∃ v' tr,
       PushBack x v = Done () v' tr ∧
       Size v' = S (Size v) ∧
       Capacity v' =
         if decide (Size v = Capacity v)
         then if decide (Size v = 0) then 1 else 2 * Size v
         else Capacity v).
Proof.
  intros Hno. split.
  - intros xs.
    destruct (append_all_spec xs [] 0 Hno) as (cap & tr & Happ & Hle & Hd);
      [done|left; done|].
    simpl in *. exists (vec xs cap), tr. split; [exact Happ|].
    rewrite Size_vec, elements_vec, Capacity_vec.
    split; [done|]. split; [done|]. split.
    + intros Hxs. destruct Hd as [[_ ->]|(k & _ & ? & ?)]; [done|lia].
    + intros Hxs. split; [|split; [done|]].
      * destruct Hd as [[? _]|(k & ? & _)]; [lia|by exists k].
      * intros j. by apply doubled_least.
  - intros v x Hv. apply valid_inv in Hv as (ys & cap & Hle & ->).
    destruct (PushBack_spec ys cap x Hno Hle) as [tr ->].
    eexists _, tr. split; [done|].
    rewrite !Size_vec, !Capacity_vec, length_app. simpl. split; [lia|done].
Qed.

Lemma copy_assign_from_shrink_spec ws vs us capw cap :
  length ws = length vs → length (vs ++ us) ≤ cap → us ≠ [] →
  Forall (λ y, copy_assign_throws y = false) ws →
  copy_assign_from (vec ws capw) (vec (vs ++ us) cap) =
  Done () (vec ws cap) ((EvCopyAssign <$> ws) ++ (EvDtor <$> us)).
Proof.
  intros Hlen Hle Hus Hok. unfold copy_assign_from. simpl.
  rewrite length_app in *.
  assert (0 < length us) by (destruct us; [done|simpl; lia]).
  case_decide; [lia|]. case_decide; [|lia].
  unfold mem. simpl.
  pose proof (copy_assign_loop_spec ws [] (replicate (capw - length ws) Raw)
                [] vs ((Obj <$> us) ++
                       replicate (cap - (length vs + length us)) Raw)
                0 eq_refl eq_refl (eq_sym Hlen) Hok) as Hloop.
  simpl in Hloop. rewrite fmap_app, <-app_assoc, Hloop. simpl.
  replace (length vs + length us - length ws) with (length us) by lia.
  rewrite (destroy_n_spec us (Obj <$> ws)) by by rewrite length_fmap.
  simpl. rewrite app_nil_r. f_equal.
  unfold with_size, with_cells, with_mem. simpl. apply vec_eq; [|done].
  f_equal. rewrite <-replicate_add. f_equal. lia.
Qed.

Lemma copy_assign_from_extend_spec ws us vs capw cap :
  length ws = length vs → length (ws ++ us) ≤ cap → length (ws ++ us) ≤ capw →
  Forall (λ y, copy_assign_throws y = false) ws →
  Forall (λ y, copy_ctor_throws y = false) us →
  copy_assign_from (vec (ws ++ us) capw) (vec vs cap) =
  Done () (vec (ws ++ us) cap) ((EvCopyAssign <$> ws) ++ (EvCopyCtor <$> us)).
Proof.
  intros Hlen Hle Hlew Hws Hus. unfold copy_assign_from. simpl.
  rewrite length_app in *.
  case_decide; [lia|]. case_decide; [lia|].
  unfold mem. simpl.
  pose proof (copy_assign_loop_spec ws []
                ((Obj <$> us) ++
                 replicate (capw - (length ws + length us)) Raw)
                [] vs (replicate (cap - length vs) Raw)
                0 eq_refl eq_refl (eq_sym Hlen)) as Hloop.
  simpl in Hloop. rewrite <-Hlen in Hloop |- *.
  rewrite fmap_app, <-app_assoc, Hloop by done.
  simpl.
  replace (length ws + length us - length ws) with (length us) by lia.
  replace (cap - length ws)
    with (length us + (cap - (length ws + length us))) by lia.
  rewrite replicate_add.
  rewrite (uninitialized_copy_n_spec us (Obj <$> ws) _ (Obj <$> ws));
    [|by rewrite length_fmap|by rewrite length_fmap|by rewrite length_replicate
     |done].
  simpl. rewrite app_nil_r. f_equal.
  unfold with_size, with_cells, with_mem. simpl. apply vec_eq.
  - by rewrite fmap_app, <-app_assoc, length_app.
  - by rewrite length_app.
Qed.

(** When the capacity is reused, an exception leaves the copy assignment
    with the size and the capacity it found. *)
Lemma copy_assign_from_thrown w v v' tr :
  size_ w ≤ RawMemory_Capacity (data_ v) →
  copy_assign_from w v = Thrown v' tr →
  size_ v' = size_ v ∧ capacity_ (data_ v') = capacity_ (data_ v).
Proof.
  intros Hle. unfold copy_assign_from. case_decide; [lia|].
  match goal with |- context [lift _ ?r] => destruct r as [? cells tr'|cells tr'|] end;
    simpl; [done| |done].
  intros [= <- _]. split; [done|].
  unfold with_cells, with_mem. simpl. by destruct (buffer_ (data_ v)).
Qed.

(** C6. Copy assignment [v = w] between two distinct vectors, when the size
    of [w] is within the capacity of [v], reuses the storage of [v]: an
    exception can leave the call only with the size and the capacity that
    [v] had, the size being written last; and when no element operation
    throws, the call returns with [v] holding the size and the elements of
    [w] in the capacity it had, nothing allocated and [w] untouched, the
    common prefix copy-assigned element by element, the elements of [v]
    beyond the size of [w] destroyed when [w] is the shorter, the elements
    of [w] beyond the size of [v] copy-constructed when [w] is the longer. *)
Theorem copy_assign_reuses_capacity (σ : gmap addr (Vector T))
    (this rhs : addr) v w :
  this ≠ rhs → σ !! this = Some v → σ !! rhs = Some w →
  valid v = true → valid w = true → Size w ≤ Capacity v →
  (∀ σ' tr, copy_assign this rhs σ = Thrown σ' tr →
     ∃ v', σ' = <[this := v']> σ ∧ Size v' = Size v ∧
           Capacity v' = Capacity v) ∧
  (Forall (λ y, copy_assign_throws y = false ∧ copy_ctor_throws y = false)
     (elements w) →
   ∃ v' tr,
     copy_assign this rhs σ = Done () (<[this := v']> σ) tr ∧
     (<[this := v']> σ) !! rhs = Some w ∧
     valid v' = true ∧
     Size v' = Size w ∧ elements v' = elements w ∧
     Capacity v' = Capacity v ∧
     allocations tr = [] ∧
     copy_assigned tr = take (Size v) (elements w) ∧
     (Size w < Size v →
        destroyed tr = drop (Size w) (elements v) ∧ copied tr = []) ∧
     (Size v ≤ Size w →
        copied tr = drop (Size v) (elements w) ∧ destroyed tr = [])).
Proof.
  intros Hne Hthis Hrhs Hv Hw Hfit.
  unfold copy_assign. case_decide; [|done]. rewrite Hthis, Hrhs. split.
  - intros σ' tr.
    destruct (copy_assign_from w v) as [?|v' tr'|] eqn:Hcall; simpl; [done| |done].
    intros [= <- <-]. exists v'. split; [done|].
    by apply copy_assign_from_thrown in Hcall.
  - apply valid_inv in Hv as (vs & cap & Hle & ->).
    apply valid_inv in Hw as (ws & capw & Hlew & ->).
    rewrite elements_vec, Size_vec, ?Capacity_vec in *.
    intros Hok. exists (vec ws cap).
    assert (Forall (λ y, copy_assign_throws y = false) ws) as Hassign
      by (eapply Forall_impl; [exact Hok|by intros ? [? ?]]).
    assert (Forall (λ y, copy_ctor_throws y = false) ws) as Hctor
      by (eapply Forall_impl; [exact Hok|by intros ? [? ?]]).
    rewrite lookup_insert_ne, Hrhs, (valid_vec ws cap) by done.
    rewrite !Size_vec, !elements_vec, Capacity_vec.
    destruct (decide (length ws < length vs)) as [Hlt|Hge].
    + pose proof (copy_assign_from_shrink_spec ws (take (length ws) vs)
                    (drop (length ws) vs) capw cap) as Hcall.
      rewrite take_drop in Hcall. rewrite Hcall; clear Hcall.
      * eexists. simpl. split; [done|]. repeat split; try done; try lia.
        -- unfold allocations. rewrite omap_app.
           by rewrite !omap_fmap_None.
        -- unfold copy_assigned. rewrite omap_app.
           rewrite omap_fmap_Some, omap_fmap_None, app_nil_r by done.
           rewrite take_ge; [done|lia].
        -- unfold destroyed. rewrite omap_app.
           by rewrite omap_fmap_None, omap_fmap_Some.
        -- unfold copied. rewrite omap_app. by rewrite !omap_fmap_None.
      * rewrite length_take. lia.
      * done.
      * intros Hnil. apply (f_equal length) in Hnil.
        rewrite length_drop in Hnil. simpl in Hnil. lia.
      * done.
    + pose proof (copy_assign_from_extend_spec (take (length vs) ws)
                    (drop (length vs) ws) vs capw cap) as Hcall.
      rewrite take_drop in Hcall. rewrite Hcall; clear Hcall.
      * eexists. simpl. split; [done|]. repeat split; try done; try lia.
        -- unfold allocations. rewrite omap_app.
           by rewrite !omap_fmap_None.
        -- unfold copy_assigned. rewrite omap_app.
           by rewrite omap_fmap_Some, omap_fmap_None, app_nil_r.
        -- unfold copied. rewrite omap_app.
           by rewrite omap_fmap_None, omap_fmap_Some.
        -- unfold destroyed. rewrite omap_app. by rewrite !omap_fmap_None.
      * rewrite length_take. lia.
      * done.
      * done.
      * by apply Forall_take.
      * by apply Forall_drop.
Qed.
End Claims.

(** ** Failing transfers by copy in [Reserve] and [EmplaceBack] *)

Section CopyFailure.
Context {T : Type} `{Element T}.
Implicit Types (v : Vector T).

Lemma with_cells_mem v : valid v = true → with_cells v (mem (data_ v)) = v.
Proof.
  intros Hv. apply valid_inv in Hv as (xs & cap & _ & ->). done.
Qed.

(** When the elements are transferred by copy, an exception leaves
    [Reserve] with the vector as it was. *)
Lemma Reserve_copy_failure v k v' tr :
  valid v = true →
  is_nothrow_move_constructible || negb is_copy_constructible = false →
  Reserve k v = Thrown v' tr → v' = v.
Proof.
  intros Hv Hmode. unfold Reserve, relocate. rewrite Hmode.
  case_decide; [done|].
  destruct (RawMemory_new k) as [new_data alloc].
  destruct (uninitialized_copy_n _ _ _ _ _) as [? dst tr'|dst tr'|];
    simpl; [| |done].
  - unfold commit. destruct (destroy_n _ _ _) as [? src' tr''| |]; [|done..].
    simpl. by destruct (with_mem new_data dst).
  - intros [= <- _]. by apply with_cells_mem.
Qed.

(** The same for [EmplaceBack], whether the construction of the new element
    or a copy throws. *)
Lemma EmplaceBack_copy_failure (a : option T) v v' tr :
  valid v = true →
  is_nothrow_move_constructible || negb is_copy_constructible = false →
  EmplaceBack a v = Thrown v' tr → v' = v.
Proof.
  intros Hv Hmode. unfold EmplaceBack, relocate. rewrite Hmode.
  case_decide.
  - destruct (RawMemory_within _) as [new_data alloc].
    destruct a as [x|]; [|simpl; by intros [= <- _]].
    destruct (construct_at _ _ _) as [dst0|]; [|done].
    destruct (uninitialized_copy_n _ _ _ _ _) as [? dst tr'|dst tr'|];
      simpl; [| |done].
    + unfold commit. destruct (destroy_n _ _ _) as [? src' tr''| |]; [|done..].
      simpl. by destruct (with_mem new_data dst).
    + intros [= <- _]. by apply with_cells_mem.
  - destruct a as [x|]; [|simpl; by intros [= <- _]].
    by destruct (construct_at _ _ _).
Qed.
End CopyFailure.

(** ** A failing construction in [Emplace] *)

Section ConstructionFailure.
Context {T : Type} `{Element T}.

#[local] Arguments Nat.mul : simpl never.
#[local] Arguments Nat.sub : simpl never.

(** In the growing branch of [Emplace] too, the new element is built before
    anything else is touched: when its construction throws, the exception
    leaves the call with the vector as it was. *)
Lemma Emplace_grow_construction_failure (v : Vector T) pos :
  pos ≤ Size v → Size v = Capacity v →
  Emplace pos None v =
  Thrown v [EvAlloc (if decide (Size v = 0) then 1 else 2 * Size v)].
Proof.
  intros Hpos Hfull. unfold Emplace, Emplace_reading, Size, Capacity in *.
  case_decide; [lia|]. case_decide; [|done]. simpl.
  by repeat case_decide; try lia.
Qed.
End ConstructionFailure.

(** * The claims on sample vectors *)

(** The scenario of the specification: three appends, an insertion, a
    removal and two resizes of a vector of numbers. *)
Example end_to_end_scenario :
  let H := int_element in
  append_all [1; 2; 3] Vector_default =
    Done () (vec [1; 2; 3] 4)
      [EvAlloc 1; EvConstruct 1;
       EvAlloc 2; EvConstruct 2; EvMoveCtor 1; EvDtor 1;
       EvAlloc 4; EvConstruct 3; EvMoveCtor 1; EvMoveCtor 2; EvDtor 1; EvDtor 2] ∧
  final_state (Insert 1 9 (vec [1; 2; 3] 4)) = Some (vec [1; 9; 2; 3] 4) ∧
  final_state (Erase 0 (vec [1; 9; 2; 3] 4)) = Some (vec [9; 2; 3] 4) ∧
  final_state (Resize 5 (vec [9; 2; 3] 4)) = Some (vec [9; 2; 3; 0; 0] 5) ∧
  final_state (Resize 1 (vec [9; 2; 3; 0; 0] 5)) = Some (vec [9] 5).
Proof. repeat split. Qed.

Lemma growth_transfers_by_trait_witness :
  valid full_vector = true ∧
  Forall (λ y, transfer_throws (H:=fragile_element) y = false)
    (elements full_vector) ∧
  Capacity full_vector < 5 ∧
  Size full_vector ≤ granted (H:=fragile_element) 5 ∧
  fits_size_t (H:=fragile_element) 5 = true ∧
  Size full_vector = Capacity full_vector ∧ 1 ≤ Size full_vector ∧
  (∃ tr,
     Reserve (H:=fragile_element) 5 full_vector = Done () (vec [1; 2] 5) tr ∧
     transfers (H:=fragile_element) [1; 2] tr ∧ allocations tr = [5] ∧
     destroyed tr = [1; 2]) ∧
  (∃ tr,
     EmplaceBack (H:=fragile_element) (Some 3) full_vector =
       Done 2 (vec [1; 2; 3] 4) tr ∧
     transfers (H:=fragile_element) [1; 2] tr ∧ allocations tr = [4] ∧
     destroyed tr = [1; 2]) ∧
  (∃ tr,
     Emplace (H:=fragile_element) 1 (Some 3) full_vector =
       Done 1 (vec [1; 3; 2] 4) tr ∧
     transfers (H:=fragile_element) [1; 2] tr ∧ allocations tr = [4] ∧
     destroyed tr = [1; 2]).
Proof.
  assert (valid full_vector = true) as Hv by reflexivity.
  assert (Forall (λ y, transfer_throws (H:=fragile_element) y = false)
            (elements full_vector)) as Hok
    by (repeat constructor).
  assert (Capacity full_vector < 5) as Hk by (vm_compute; lia).
  assert (Size full_vector ≤ granted (H:=fragile_element) 5) as Hroom
    by (vm_compute; lia).
  assert (fits_size_t (H:=fragile_element) 5 = true) as Hfit by reflexivity.
  assert (Size full_vector = Capacity full_vector) as Hfull by reflexivity.
  assert (1 ≤ Size full_vector) as Hpos by (vm_compute; lia).
  destruct (growth_transfers_by_trait (H:=fragile_element) full_vector)
    as (_ & _ & _ & Hg).
  destruct (Hg Hv Hok) as (Hr & He & Hi).
  destruct (Hr 5 Hk Hroom) as (tr & _ & Hvec & Htr).
  split; [exact Hv|]. split; [exact Hok|]. split; [exact Hk|].
  split; [exact Hroom|]. split; [exact Hfit|]. split; [exact Hfull|].
  split; [exact Hpos|].
  split; [exists tr; split; [exact (Hvec Hfit)|exact Htr]|].
  split; [exact (He 3 Hfull)|].
  exact (Hi 1 3 Hfull Hpos).
Defined.

Lemma EmplaceBack_constructs_first_witness :
  valid full_vector = true ∧ Size full_vector = Capacity full_vector ∧
  EmplaceBack (H:=fragile_element) None full_vector =
    Thrown full_vector [EvAlloc 4].
Proof.
  split; [reflexivity|]. split; [reflexivity|].
  apply (EmplaceBack_constructs_first (H:=fragile_element) full_vector);
    reflexivity.
Defined.

Lemma append_doubles_capacity_witness :
  NoThrow nat (H:=int_element) ∧
  ∃ v tr,
    append_all (H:=int_element) [1; 2; 3; 4; 5] Vector_default = Done () v tr ∧
    Size v = 5 ∧ elements v = [1; 2; 3; 4; 5] ∧
    (∃ k, Capacity v = 2 ^ k) ∧ 5 ≤ Capacity v ∧
    ∀ j, 5 ≤ 2 ^ j → Capacity v ≤ 2 ^ j.
Proof.
  assert (NoThrow nat (H:=int_element)) as Hno by (intros x; repeat split).
  split; [exact Hno|].
  destruct (append_doubles_capacity (H:=int_element) Hno) as [Hall _].
  destruct (Hall [1; 2; 3; 4; 5]) as (v & tr & Happ & Hsize & Hel & _ & Hcap).
  exists v, tr. split; [exact Happ|]. split; [exact Hsize|].
  split; [exact Hel|]. apply Hcap. simpl. lia.
Defined.

Lemma copy_assign_reuses_capacity_witness :
  0 ≠ 1 ∧ long_and_short !! 0 = Some (vec [1; 2; 3] 4) ∧
  long_and_short !! 1 = Some (vec [7] 1) ∧
  valid (vec [1; 2; 3] 4) = true ∧ valid (vec [7] 1) = true ∧
  Size (vec [7] 1) ≤ Capacity (vec [1; 2; 3] 4) ∧
  Forall (λ y, copy_assign_throws (Element:=int_element) y = false ∧
               copy_ctor_throws (Element:=int_element) y = false)
    (elements (vec [7] 1)) ∧
  ∃ v' tr,
    copy_assign (H:=int_element) 0 1 long_and_short =
      Done () (<[0 := v']> long_and_short) tr ∧
    Size v' = 1 ∧ elements v' = [7] ∧ Capacity v' = 4 ∧
    destroyed tr = [2; 3].
Proof.
  assert (Size (vec [7] 1) ≤ Capacity (vec [1; 2; 3] 4)) as Hfit
    by (vm_compute; lia).
  assert (Forall (λ y, copy_assign_throws (Element:=int_element) y = false ∧
                       copy_ctor_throws (Element:=int_element) y = false)
            (elements (vec [7] 1))) as Hok by (repeat constructor).
  assert (0 ≠ 1) as Hne by lia.
  repeat (split; [first [reflexivity|assumption]|]).
  destruct (copy_assign_reuses_capacity (H:=int_element) long_and_short 0 1
              (vec [1; 2; 3] 4) (vec [7] 1) Hne eq_refl eq_refl eq_refl
              eq_refl Hfit) as [_ Hdone].
  destruct (Hdone Hok)
    as (v' & tr & Hcall & _ & _ & Hsize & Hel & Hcap & _ & _ & Hshort & _).
  exists v', tr. split; [exact Hcall|]. split; [exact Hsize|].
  split; [exact Hel|]. split; [exact Hcap|].
  apply Hshort. vm_compute. lia.
Defined.

Lemma Reserve_within_capacity_witness :
  2 ≤ Capacity roomy_vector ∧
  Reserve (H:=fragile_element) 2 roomy_vector = Done () roomy_vector [].
Proof.
  assert (2 ≤ Capacity roomy_vector) as Hk by (vm_compute; lia).
  split; [exact Hk|].
  apply (Reserve_within_capacity (H:=fragile_element) roomy_vector 2 Hk).
Defined.

(** C3. A reallocating insertion whose transfer by copy throws partway does
    not leave the vector in a valid state.  The vector [[1; 13]] is built in
    place by two calls of EmplaceBack and is full; inserting [7] at position
    [1] copies [1] to the new storage and throws on the copy of [13].  The
    handler of [Emplace] gives the new storage back and lets the method go
    on: the old elements are destroyed, the storage that was given back is
    swapped in and the size is incremented.  The call returns normally with
    a vector of size [3] on storage it does not own: the invariant is
    broken, and the destructor of the vector has no defined behaviour. *)
Theorem Emplace_swallows_copy_failure :
  bind (EmplaceBack (H:=fragile_element) (Some 1) Vector_default)
    (λ _ v, EmplaceBack (H:=fragile_element) (Some 13) v) =
    Done 1 poisoned_vector
      [EvAlloc 1; EvConstruct 1; EvAlloc 2; EvConstruct 13; EvCopyCtor 1;
       EvDtor 1] ∧
  Insert (H:=fragile_element) 1 7 poisoned_vector =
    Done 1
      {| data_ := {| buffer_ := Released; capacity_ := 4 |}; size_ := 3 |}
      [EvAlloc 4; EvConstruct 7; EvCopyCtor 1; EvDtor 1; EvDtor 13] ∧
  valid {| data_ := {| buffer_ := @Released nat; capacity_ := 4 |};
           size_ := 3 |} = false ∧
  elements {| data_ := {| buffer_ := @Released nat; capacity_ := 4 |};
              size_ := 3 |} = [] ∧
  Vector_dtor {| data_ := {| buffer_ := @Released nat; capacity_ := 4 |};
                 size_ := 3 |} = Undefined.
Proof. repeat split. Qed.

(** C5. [Insert] followed by [Erase] at the same position does not always
    give the vector back.  On the full vector [[1; 13]], inserting [7] at
    position [1] reallocates, the copy of [13] throws, and the
    handler of [Emplace] lets the call return normally with size [3], no
    element and storage that was given back.  [Erase] at position [1] then
    move-assigns between slots of that storage: the two calls have no
    defined behaviour, instead of leaving size [2] and the elements
    [[1; 13]]. *)
Theorem insert_then_erase_after_swallowed_failure :
  valid poisoned_vector = true ∧ Size poisoned_vector = 2 ∧
  elements poisoned_vector = [1; 13] ∧
  (∃ v' tr,
     Insert (H:=fragile_element) 1 7 poisoned_vector = Done 1 v' tr ∧
     Size v' = 3 ∧ elements v' = [] ∧ buffer_ (data_ v') = Released ∧
     Erase (H:=fragile_element) 1 v' = Undefined) ∧
  insert_then_erase (H:=fragile_element) 1 7 poisoned_vector = Undefined.
Proof.
  split; [reflexivity|]. split; [reflexivity|]. split; [reflexivity|].
  split; [|reflexivity].
  eexists _, _. split; [reflexivity|]. by repeat split.
Qed.

(** C9. Move assignment breaks the invariant.  A vector that holds one
    element after one PushBack is move-assigned from a default-constructed
    vector: the storage managers are swapped and the size of the source is
    reset, but the size of the target is left as it was.  The target ends
    with size [1] on storage of capacity [0], and the element it held sits
    in the storage of the source, whose size is [0]. *)
Theorem move_assign_keeps_stale_size :
  PushBack (H:=int_element) 1 Vector_default =
    Done () (vec [1] 1) [EvAlloc 1; EvConstruct 1] ∧
  ∃ σ',
    move_assign 0 1 one_and_empty = Done () σ' [] ∧
    σ' !! 0 = Some {| data_ := RawMemory_default; size_ := 1 |} ∧
    σ' !! 1 = Some {| data_ := {| buffer_ := Cells [Obj 1]; capacity_ := 1 |};
                      size_ := 0 |} ∧
    Capacity {| data_ := @RawMemory_default nat; size_ := 1 |} <
      Size {| data_ := @RawMemory_default nat; size_ := 1 |} ∧
    valid {| data_ := @RawMemory_default nat; size_ := 1 |} = false ∧
    valid {| data_ := {| buffer_ := Cells [Obj 1]; capacity_ := 1 |};
             size_ := 0 |} = false.
Proof.
  split; [reflexivity|]. eexists. split; [reflexivity|].
  repeat split. vm_compute. lia.
Qed.

(** * Further properties of the methods *)

(** ** Transfers that throw *)

Section ThrowingCopies.
Context {T : Type} `{Element T}.
Implicit Types (pre post cells : list (slot T)) (xs ys zs : list T).

#[local] Arguments Nat.mul : simpl never.
#[local] Arguments Nat.sub : simpl never.

(** A copy that throws after the copies of [ys1]: the objects built are
    destroyed in the order they were built and the destination is raw
    again. *)
Lemma uninitialized_copy_loop_thrown ys1 (z : T) ys2 spre spost dpre built
    dpost first d_first cur n :
  first = length spre → d_first = length dpre →
  cur = length dpre + length built →
  n = length (ys1 ++ z :: ys2) →
  Forall (λ y, copy_ctor_throws y = false) ys1 → copy_ctor_throws z = true →
  uninitialized_copy_loop (spre ++ (Obj <$> (ys1 ++ z :: ys2)) ++ spost) first n
    (dpre ++ (Obj <$> built) ++ replicate n Raw ++ dpost) d_first cur =
  Thrown (dpre ++ replicate (length built + n) Raw ++ dpost)
    ((EvCopyCtor <$> ys1) ++ (EvDtor <$> (built ++ ys1))).
Proof.
  revert spre built first cur n.
  induction ys1 as [|y ys1 IH]; intros spre built first cur n -> -> -> -> Hok Hz.
  - simpl. rewrite lookup_middle, Hz.
    replace (length dpre + length built - length dpre) with (length built) by lia.
    rewrite destroy_n_spec by done. simpl.
    rewrite app_nil_r, replicate_add, <-app_assoc. done.
  - apply Forall_cons in Hok as [Hy Hok].
    simpl. rewrite lookup_middle, Hy.
    rewrite app_assoc, construct_at_app
      by (rewrite length_app, length_fmap; lia).
    rewrite (snoc_focus spre).
    replace ((dpre ++ (Obj <$> built)) ++
             Obj y :: replicate (length (ys1 ++ z :: ys2)) Raw ++ dpost)
      with (dpre ++ (Obj <$> (built ++ [y])) ++
            replicate (length (ys1 ++ z :: ys2)) Raw ++ dpost)
      by (rewrite fmap_app, <-!app_assoc; done).
    rewrite (IH (spre ++ [Obj y]) (built ++ [y]));
      [|rewrite ?length_snoc, ?length_app; simpl; lia..|done|done|done].
    simpl. rewrite <-app_assoc. simpl. do 2 f_equal.
    rewrite length_app. simpl. do 2 f_equal. lia.
Qed.

Lemma uninitialized_copy_n_thrown ys1 (z : T) ys2 spre spost dpre dpost
    first d_first n :
  first = length spre → d_first = length dpre →
  n = length (ys1 ++ z :: ys2) →
  Forall (λ y, copy_ctor_throws y = false) ys1 → copy_ctor_throws z = true →
  uninitialized_copy_n (spre ++ (Obj <$> (ys1 ++ z :: ys2)) ++ spost) first n
    (dpre ++ replicate n Raw ++ dpost) d_first =
  Thrown (dpre ++ replicate n Raw ++ dpost)
    ((EvCopyCtor <$> ys1) ++ (EvDtor <$> ys1)).
Proof.
  intros Hf Hd Hn Hok Hz.
  apply (uninitialized_copy_loop_thrown ys1 z ys2 spre spost dpre [] dpost);
    try done. simpl. lia.
Qed.
End ThrowingCopies.

(** ** Construction and destruction *)

Section Construction.
Context {T : Type} `{Element T}.
Implicit Types (v w : Vector T) (xs ys zs : list T) (x d : T).

#[local] Arguments Nat.mul : simpl never.
#[local] Arguments Nat.sub : simpl never.

Lemma omap_replicate_Some {B} (f : event T → option B) (e : event T) (b : B) n :
  f e = Some b → omap f (replicate n e) = replicate n b.
Proof. intros He. induction n; simpl; [done|]. rewrite He. by f_equal. Qed.

Lemma omap_replicate_None {B} (f : event T → option B) (e : event T) n :
  f e = None → omap f (replicate n e) = [].
Proof. intros He. induction n; simpl; [done|]. by rewrite He. Qed.

(** X1. [Vector(size)] for a size whose byte count fits [size_t], on a
    type whose value initialization gives [d], returns a valid vector of
    exactly [size] elements, all [d], in storage of exactly [size] slots;
    [operator new] is called once, and not at all for size [0]. *)
Theorem sized_construct n d :
  fits_size_t n = true → value_init = Some d →
  ∃ v tr,
    Vector_sized n = Done v () tr ∧
    valid v = true ∧ Size v = n ∧ Capacity v = n ∧
    elements v = replicate n d ∧
    allocations tr = (if decide (n = 0) then [] else [n]).
Proof.
  intros Hfit Hd. unfold Vector_sized. simpl. rewrite granted_fits by done.
  pose proof (uninitialized_value_construct_loop_spec d n [] (replicate n Raw)
                [] 0 0 Hd eq_refl (length_replicate _ _)) as Hloop.
  rewrite !app_nil_r in Hloop. simpl in Hloop.
  unfold uninitialized_value_construct_n, mem. simpl. rewrite Hloop. simpl.
  eexists _, _. split; [done|]. unfold with_mem. simpl.
  assert ({| data_ := {| buffer_ := Cells (replicate n (Obj d)); capacity_ := n |};
             size_ := n |} = vec (replicate n d) n) as ->.
  { apply vec_eq; [|by rewrite length_replicate].
    rewrite length_replicate, Nat.sub_diag, app_nil_r.
    by rewrite fmap_replicate. }
  rewrite ?valid_vec, ?Size_vec, ?Capacity_vec, ?elements_vec,
    ?length_replicate by by rewrite length_replicate.
  repeat split. unfold allocations. rewrite omap_app.
  rewrite (omap_replicate_None _ (EvValueInit d)) by done.
  by case_decide.
Qed.

(** X2. The copy constructor, when no copy throws, returns a valid vector
    with the elements of its source in storage of exactly [Size] slots,
    whatever the capacity of the source, and leaves the source as it is;
    each element is copy-constructed once, in order, and nothing is
    destroyed. *)
Theorem copy_construct w :
  valid w = true →
  Forall (λ y, copy_ctor_throws y = false) (elements w) →
  ∃ v tr,
    Vector_copy w = Done v w tr ∧
    valid v = true ∧ elements v = elements w ∧ Size v = Size w ∧
    Capacity v = Size w ∧
    copied tr = elements w ∧ destroyed tr = [] ∧
    allocations tr = (if decide (Size w = 0) then [] else [Size w]).
Proof.
  intros Hw Hok. apply valid_inv in Hw as (xs & cap & Hle & ->).
  rewrite elements_vec, Size_vec in *.
  unfold Vector_copy. simpl. unfold mem. simpl.
  pose proof (uninitialized_copy_n_spec xs [] (replicate (cap - length xs) Raw)
                [] (replicate (length xs) Raw) [] 0 0 eq_refl eq_refl
                (length_replicate _ _) Hok) as Hcopy.
  rewrite !app_nil_r in Hcopy. simpl in Hcopy. rewrite Hcopy. simpl.
  eexists _, _. split; [done|]. unfold with_mem. simpl.
  assert ({| data_ := {| buffer_ := Cells (Obj <$> xs); capacity_ := length xs |};
             size_ := length xs |} = vec xs (length xs)) as ->.
  { apply vec_eq; [|done]. by rewrite Nat.sub_diag, app_nil_r. }
  rewrite ?valid_vec, ?elements_vec, ?Size_vec, ?Capacity_vec by done.
  repeat split.
  - unfold copied. rewrite omap_app, omap_fmap_Some by done.
    by case_decide.
  - unfold destroyed. rewrite omap_app, omap_fmap_None by done.
    by case_decide.
  - unfold allocations. rewrite omap_app, omap_fmap_None, app_nil_r by done.
    by case_decide.
Qed.

(** X3. When the copy of an element throws in the copy constructor, the
    exception leaves the call with the source as it is and no vector built:
    the elements before the one that throws were copied, and each of the
    copies was destroyed again. *)
Theorem copy_construct_failure w ys1 z ys2 :
  valid w = true → elements w = ys1 ++ z :: ys2 →
  Forall (λ y, copy_ctor_throws y = false) ys1 → copy_ctor_throws z = true →
  ∃ tr,
    Vector_copy w = Thrown w tr ∧
    copied tr = ys1 ∧ destroyed tr = ys1.
Proof.
  intros Hw Hel Hok Hz. apply valid_inv in Hw as (xs & cap & Hle & ->).
  rewrite elements_vec in Hel. subst xs.
  unfold Vector_copy. simpl. unfold mem. simpl.
  pose proof (uninitialized_copy_n_thrown ys1 z ys2 []
                (replicate (cap - length (ys1 ++ z :: ys2)) Raw) [] [] 0 0
                (length (ys1 ++ z :: ys2)) eq_refl eq_refl eq_refl Hok Hz)
    as Hcopy.
  rewrite !app_nil_r in Hcopy. simpl in Hcopy. rewrite Hcopy. simpl.
  eexists. split; [done|]. split.
  - unfold copied. rewrite !omap_app, omap_fmap_Some, omap_fmap_None by done.
    rewrite app_nil_r. by case_decide.
  - unfold destroyed. rewrite !omap_app, omap_fmap_None, omap_fmap_Some by done.
    by case_decide.
Qed.

(** X4. The move constructor allocates: the new vector takes the storage of
    the source, and the source is left valid and empty on a fresh block of
    as many slots as it had elements. *)
Theorem move_construct_source w :
  ∃ tr,
    Vector_move w = Done w (vec [] (Size w)) tr ∧
    valid (vec (T:=T) [] (Size w)) = true ∧
    allocations tr = (if decide (Size w = 0) then [] else [Size w]).
Proof.
  destruct w as [[buf cap] n]. unfold Vector_move, Size. simpl.
  eexists. split; [|split].
  - do 2 f_equal. apply vec_eq; [|done]. simpl. by rewrite Nat.sub_0_r.
  - apply valid_vec. simpl. lia.
  - unfold allocations. by case_decide.
Qed.

(** X5. The destructor of a valid vector destroys each element once, in
    order, and gives the storage back. *)
Theorem destructor_destroys_elements v :
  valid v = true →
  ∃ v' tr,
    Vector_dtor v = Done () v' tr ∧
    tr = EvDtor <$> elements v ∧ buffer_ (data_ v') = Released.
Proof.
  intros Hv. apply valid_inv in Hv as (xs & cap & Hle & ->).
  rewrite elements_vec. unfold Vector_dtor. simpl. unfold mem. simpl.
  pose proof (destroy_n_spec xs [] (replicate (cap - length xs) Raw) 0 eq_refl)
    as Hd.
  simpl in Hd. rewrite Hd. by eexists _, _.
Qed.
End Construction.

(** ** Growth *)

Section Growth.
Context {T : Type} `{Element T}.
Implicit Types (v w : Vector T) (xs ys zs : list T) (x d : T).

#[local] Arguments Nat.mul : simpl never.
#[local] Arguments Nat.sub : simpl never.

(** X6. [Reserve(k)] beyond the capacity, for [k] whose byte count fits
    [size_t] and when the transfer does not throw, returns with storage of
    exactly [k] slots obtained in one allocation and with the size and the
    elements unchanged; every object of the old storage is destroyed. *)
Theorem Reserve_grows v k :
  valid v = true → Capacity v < k → fits_size_t k = true →
  Forall (λ y, transfer_throws y = false) (elements v) →
  ∃ v' tr,
    Reserve k v = Done () v' tr ∧
    valid v' = true ∧ Capacity v' = k ∧
    Size v' = Size v ∧ elements v' = elements v ∧
    allocations tr = [k] ∧ destroyed tr = left_behind <$> elements v.
Proof.
  intros Hv Hk Hfit Hok. apply valid_inv in Hv as (xs & cap & Hle & ->).
  rewrite elements_vec, Capacity_vec, ?Size_vec in *.
  rewrite Reserve_spec by done. eexists _, _. split; [done|].
  rewrite valid_vec, Capacity_vec, Size_vec, elements_vec by lia.
  repeat split.
  - unfold allocations. simpl. rewrite omap_app.
    rewrite !omap_fmap_None; [done|done|].
    intros y. unfold transfer_event. by destruct prefers_move.
  - unfold destroyed. simpl. rewrite omap_app.
    rewrite omap_fmap_None, omap_fmap_Some; [done|done|].
    intros y. unfold transfer_event. by destruct prefers_move.
Qed.

(** X7. When the elements are transferred by copy and the copy of one
    throws, the exception leaves [Reserve(k)], for [k] beyond the capacity
    whose byte count fits [size_t], with the vector exactly as it was; the
    copies made before were destroyed again. *)
Theorem Reserve_copy_failure_strong v k ys1 z ys2 :
  valid v = true → Capacity v < k → fits_size_t k = true →
  is_nothrow_move_constructible || negb is_copy_constructible = false →
  elements v = ys1 ++ z :: ys2 →
  Forall (λ y, copy_ctor_throws y = false) ys1 → copy_ctor_throws z = true →
  ∃ tr,
    Reserve k v = Thrown v tr ∧
    copied tr = ys1 ∧ destroyed tr = ys1 ∧ moved tr = [].
Proof.
  intros Hv Hk Hfit Hmode Hel Hok Hz.
  apply valid_inv in Hv as (xs & cap & Hle & ->).
  rewrite elements_vec in Hel. rewrite Capacity_vec in Hk. subst xs.
  unfold Reserve, relocate. rewrite Hmode. simpl.
  case_decide; [lia|]. case_decide; [lia|].
  unfold mem. simpl. rewrite granted_fits by done.
  set (n := length (ys1 ++ z :: ys2)) in *.
  replace (replicate k (@Raw T))
    with (replicate n (@Raw T) ++ replicate (k - n) Raw)
    by (rewrite <-replicate_add; f_equal; lia).
  pose proof (uninitialized_copy_n_thrown ys1 z ys2 []
                (replicate (cap - n) Raw) [] (replicate (k - n) Raw) 0 0
                n eq_refl eq_refl eq_refl Hok Hz) as Hcopy.
  simpl in Hcopy. rewrite Hcopy. simpl.
  eexists. split; [done|]. split; [|split].
  - unfold copied. simpl. by rewrite omap_app, omap_fmap_Some, omap_fmap_None, app_nil_r.
  - unfold destroyed. simpl. by rewrite omap_app, omap_fmap_None, omap_fmap_Some.
  - unfold moved. simpl. by rewrite omap_app, !omap_fmap_None.
Qed.

(** X8. The same in [EmplaceBack] on a full vector: the exception leaves
    the vector exactly as it was and the copies made are destroyed, but the
    new element, built in the new storage before the transfer, is not: its
    storage is given back with the object in it. *)
Theorem EmplaceBack_copy_failure_leaks v x ys1 z ys2 :
  valid v = true → Size v = Capacity v →
  is_nothrow_move_constructible || negb is_copy_constructible = false →
  elements v = ys1 ++ z :: ys2 →
  Forall (λ y, copy_ctor_throws y = false) ys1 → copy_ctor_throws z = true →
  ∃ tr,
    EmplaceBack (Some x) v = Thrown v tr ∧
    constructed tr = [x] ∧ copied tr = ys1 ∧ destroyed tr = ys1.
Proof.
  intros Hv Hfull Hmode Hel Hok Hz.
  apply valid_inv in Hv as (xs & cap & Hle & ->).
  rewrite elements_vec in Hel. rewrite Size_vec, Capacity_vec in Hfull.
  subst xs cap.
  unfold EmplaceBack, relocate. rewrite Hmode. simpl.
  set (n := length (ys1 ++ z :: ys2)) in *.
  assert (0 < n) as Hn by (unfold n; rewrite length_app; simpl; lia).
  case_decide; [|done].
  destruct (decide (n = 0)) as [?|_]; [lia|]. case_decide; [lia|].
  unfold mem. simpl.
  rewrite construct_at_raw by lia.
  pose proof (uninitialized_copy_n_thrown ys1 z ys2 []
                (replicate (n - n) Raw) []
                (Obj x :: replicate (2 * n - n - 1) Raw) 0 0
                n eq_refl eq_refl eq_refl Hok Hz) as Hcopy.
  simpl in Hcopy. rewrite Hcopy. simpl.
  eexists. split; [done|]. split; [|split].
  - unfold constructed. simpl. by rewrite omap_app, !omap_fmap_None.
  - unfold copied. simpl. by rewrite omap_app, omap_fmap_Some, omap_fmap_None, app_nil_r.
  - unfold destroyed. simpl. by rewrite omap_app, omap_fmap_None, omap_fmap_Some.
Qed.

Lemma allocations_transfer_events xs : allocations (transfer_event <$> xs) = [].
Proof.
  unfold allocations. apply omap_fmap_None.
  intros y. unfold transfer_event. by destruct prefers_move.
Qed.

Lemma append_all_room xs ys cap :
  length ys + length xs ≤ cap →
  Forall (λ y, copy_ctor_throws y = false) xs →
  append_all xs (vec ys cap) = Done () (vec (ys ++ xs) cap) (EvConstruct <$> xs).
Proof.
  revert ys. induction xs as [|x xs IH]; intros ys Hle Hok.
  { by rewrite app_nil_r. }
  apply Forall_cons in Hok as [Hx Hok]. simpl in *.
  unfold PushBack. rewrite Hx, EmplaceBack_room_spec by lia. simpl.
  rewrite IH by (rewrite ?length_app; simpl; (lia || done)).
  simpl. by rewrite <-app_assoc.
Qed.

(** X9. After [Reserve(k)], for [k] within the capacity or with a byte
    count that fits [size_t], appending values that fit in [k] slots never
    reallocates: the whole sequence of calls allocates at most once, in
    [Reserve], and ends with the capacity that [Reserve] left, the larger
    of [k] and the capacity before. *)
Theorem reserve_then_append_allocates_once v k xs :
  valid v = true → (Capacity v < k → fits_size_t k = true) →
  Size v + length xs ≤ k →
  Forall (λ y, transfer_throws y = false) (elements v) →
  Forall (λ y, copy_ctor_throws y = false) xs →
  ∃ v' tr,
    reserve_then_append k xs v = Done () v' tr ∧
    valid v' = true ∧ elements v' = elements v ++ xs ∧
    Capacity v' = Nat.max (Capacity v) k ∧
    allocations tr = (if decide (k ≤ Capacity v) then [] else [k]).
Proof.
  intros Hv Hsz Hfit Hok Hxs. apply valid_inv in Hv as (ys & cap & Hle & ->).
  rewrite elements_vec, Capacity_vec, ?Size_vec in *.
  unfold reserve_then_append.
  destruct (decide (k ≤ cap)) as [Hk|Hk].
  - unfold Reserve. simpl. case_decide; [|done]. simpl.
    rewrite append_all_room by (lia || done). eexists _, _. split; [done|].
    rewrite valid_vec, elements_vec, Capacity_vec
      by (rewrite length_app; lia).
    repeat split; [lia|].
    unfold allocations. by apply omap_fmap_None.
  - rewrite Reserve_spec by (lia || done || (apply Hsz; lia)). simpl.
    rewrite append_all_room by (lia || done). eexists _, _. split; [done|].
    rewrite valid_vec, elements_vec, Capacity_vec
      by (rewrite length_app; lia).
    repeat split; [lia|].
    unfold allocations. simpl. rewrite !omap_app.
    fold (allocations (transfer_event <$> ys)).
    rewrite allocations_transfer_events. by rewrite !omap_fmap_None.
Qed.

Lemma Resize_within_capacity xs cap n d :
  length xs ≤ cap → n ≤ cap → value_init = Some d →
  ∃ tr,
    Resize n (vec xs cap) =
      Done () (vec (take n xs ++ replicate (n - length xs) d) cap) tr ∧
    allocations tr = [] ∧ destroyed tr = drop n xs.
Proof.
  intros Hle Hn Hd. unfold Resize, Reserve. simpl.
  case_decide; [|lia]. simpl.
  destruct (decide (length xs < n)) as [Hgrow|Hnot].
  - unfold mem. simpl.
    replace (cap - length xs) with ((n - length xs) + (cap - n)) by lia.
    rewrite replicate_add.
    unfold uninitialized_value_construct_n.
    rewrite (uninitialized_value_construct_loop_spec d (n - length xs)
               (Obj <$> xs));
      [|done|by rewrite length_fmap|by rewrite length_replicate].
    simpl. rewrite app_nil_r. eexists. split; [|split].
    + f_equal. unfold with_size, with_cells, with_mem. simpl.
      apply vec_eq.
      * rewrite take_ge by lia. rewrite fmap_app, fmap_replicate, <-app_assoc.
        rewrite length_app, length_replicate. do 3 f_equal. lia.
      * rewrite take_ge by lia. rewrite length_app, length_replicate. lia.
    + unfold allocations. by apply omap_replicate_None.
    + unfold destroyed. rewrite drop_ge by lia. by apply omap_replicate_None.
  - destruct (decide (n < length xs)) as [Hshrink|Hsame].
    + unfold mem. simpl.
      assert (Obj <$> xs = (Obj <$> take n xs) ++ (Obj <$> drop n xs)) as ->
        by by rewrite <-fmap_app, take_drop.
      rewrite <-app_assoc.
      replace (length xs - n) with (length (drop n xs))
        by (rewrite length_drop; lia).
      rewrite (destroy_n_spec (drop n xs) (Obj <$> take n xs))
        by (rewrite length_fmap, length_take; lia).
      simpl. rewrite app_nil_r. eexists. split; [|split].
      * f_equal. unfold with_size, with_cells, with_mem. simpl.
        apply vec_eq.
        -- replace (n - length xs) with 0 by lia. simpl.
           rewrite app_nil_r, length_take, length_drop, <-replicate_add.
           do 2 f_equal. lia.
        -- replace (n - length xs) with 0 by lia. simpl.
           rewrite app_nil_r, length_take. lia.
      * unfold allocations. by apply omap_fmap_None.
      * unfold destroyed. by apply omap_fmap_Some.
    + simpl. exists []. split; [|split].
      * f_equal. unfold with_size. simpl.
        assert (n = length xs) as -> by lia.
        rewrite firstn_all, Nat.sub_diag, app_nil_r. done.
      * done.
      * by rewrite drop_ge by lia.
Qed.

(** X10. [Resize(n)], for [n] within the capacity or with a byte count
    that fits [size_t], and when nothing throws, returns with exactly [n]
    elements: the first [n] of the elements it found, followed, when [n]
    exceeds the size, by value-initialized ones.  The capacity becomes [n]
    when [n] exceeds it and is kept otherwise, so shrinking never gives
    storage back; the elements beyond [n] are destroyed. *)
Theorem Resize_keeps_prefix v n d :
  valid v = true → (Capacity v < n → fits_size_t n = true) →
  value_init = Some d →
  Forall (λ y, transfer_throws y = false) (elements v) →
  ∃ v' tr,
    Resize n v = Done () v' tr ∧
    valid v' = true ∧ Size v' = n ∧
    elements v' = take n (elements v) ++ replicate (n - Size v) d ∧
    Capacity v' = Nat.max (Capacity v) n ∧
    allocations tr = (if decide (n ≤ Capacity v) then [] else [n]).
Proof.
  intros Hv Hfit Hd Hok. apply valid_inv in Hv as (xs & cap & Hle & ->).
  rewrite elements_vec, Capacity_vec, ?Size_vec in *.
  assert (length (take n xs ++ replicate (n - length xs) d) = n) as Hlen.
  { rewrite length_app, length_take, length_replicate. lia. }
  destruct (decide (n ≤ cap)) as [Hn|Hn].
  - destruct (Resize_within_capacity xs cap n d Hle Hn Hd) as (tr & -> & Ha & _).
    eexists _, _. split; [done|].
    rewrite valid_vec, Size_vec, elements_vec, Capacity_vec by lia.
    repeat split; [done|lia|done].
  - destruct (Resize_within_capacity xs n n d) as (tr & Hres & Ha & _);
      [lia|lia|done|].
    unfold Resize in *.
    rewrite Reserve_spec by (lia || done || (apply Hfit; lia)).
    unfold Reserve in Hres. simpl in Hres. case_decide; [|lia].
    simpl in *. destruct (bind _ _) as [? v' tr'| |] eqn:Hrest; [|done..].
    injection Hres as -> -> ->. simpl.
    eexists _, _. split; [done|].
    rewrite valid_vec, Size_vec, elements_vec, Capacity_vec by lia.
    repeat split; [done|lia|].
    unfold allocations in *. simpl. rewrite !omap_app, Ha.
    fold (allocations (transfer_event <$> xs)).
    rewrite allocations_transfer_events. by rewrite omap_fmap_None.
Qed.
End Growth.

(** ** Counts whose byte count does not fit [size_t] *)

Section Wrapping.
Context {T : Type} `{Element T}.
Implicit Types (v w : Vector T) (xs ys zs : list T) (x d : T).

#[local] Arguments Nat.mul : simpl never.
#[local] Arguments Nat.sub : simpl never.

(** Constructions past the end of a block. *)
Lemma uninitialized_value_construct_loop_overflow (d : T) cells first cur n :
  value_init = Some d → cur ≤ length cells → length cells < cur + n →
  uninitialized_value_construct_loop cells first cur n = Undefined.
Proof.
  intros Hd. revert cells cur.
  induction n as [|n IH]; intros cells cur Hcur Hlen; [lia|].
  simpl. rewrite Hd. unfold construct_at. case_decide as Hin; [|done].
  rewrite IH; [done|rewrite length_insert; lia..].
Qed.

Lemma uninitialized_copy_loop_overflow ys spre spost dst first d_first cur :
  first = length spre → cur ≤ length dst → length dst < cur + length ys →
  Forall (λ y, copy_ctor_throws y = false) ys →
  uninitialized_copy_loop (spre ++ (Obj <$> ys) ++ spost) first (length ys)
    dst d_first cur = Undefined.
Proof.
  revert spre dst first cur.
  induction ys as [|y ys IH]; intros spre dst first cur -> Hcur Hlen Hok;
    [simpl in Hlen; lia|].
  apply Forall_cons in Hok as [Hy Hok]. simpl in *.
  rewrite lookup_middle, Hy. unfold construct_at. case_decide as Hin; [|done].
  rewrite (snoc_focus spre).
  rewrite (IH (spre ++ [Obj y]));
    rewrite ?length_snoc, ?length_insert; (done || lia).
Qed.

Lemma uninitialized_move_loop_overflow ys spre spost dst first d_first cur :
  first = length spre → cur ≤ length dst → length dst < cur + length ys →
  Forall (λ y, move_ctor_throws y = false) ys →
  uninitialized_move_loop (spre ++ (Obj <$> ys) ++ spost) first (length ys)
    dst d_first cur = Undefined.
Proof.
  revert spre dst first cur.
  induction ys as [|y ys IH]; intros spre dst first cur -> Hcur Hlen Hok;
    [simpl in Hlen; lia|].
  apply Forall_cons in Hok as [Hy Hok]. simpl in *.
  rewrite lookup_middle, Hy. unfold construct_at. case_decide as Hin; [|done].
  rewrite insert_middle, (snoc_focus spre).
  rewrite (IH (spre ++ [Obj (moved_from y)]));
    rewrite ?length_snoc, ?length_insert; (done || lia).
Qed.

Lemma relocate_overflow ys spre spost dst first d_first :
  first = length spre → d_first ≤ length dst →
  length dst < d_first + length ys →
  Forall (λ y, transfer_throws y = false) ys →
  relocate (spre ++ (Obj <$> ys) ++ spost) first (length ys) dst d_first =
  Undefined.
Proof.
  intros Hf Hd Hlen Hok.
  unfold relocate, transfer_throws, prefers_move in *.
  destruct (is_nothrow_move_constructible || negb is_copy_constructible).
  - by apply uninitialized_move_loop_overflow.
  - unfold uninitialized_copy_n.
    by rewrite uninitialized_copy_loop_overflow.
Qed.

(** X23. [Vector(size)] for a size whose byte count does not fit
    [size_t] obtains a block with room for fewer than [size] elements and
    value-initializes [size] objects in it, past its end: the call has no
    defined behaviour. *)
Theorem sized_construct_wrapping n d :
  fits_size_t n = false → value_init = Some d →
  Vector_sized n = Undefined.
Proof.
  intros Hwrap Hd. apply granted_wraps in Hwrap.
  unfold Vector_sized. simpl. unfold uninitialized_value_construct_n, mem. simpl.
  rewrite (uninitialized_value_construct_loop_overflow d);
    rewrite ?length_replicate; (done || lia).
Qed.

(** X24. [Reserve(k)] beyond the capacity for [k] whose byte count does
    not fit [size_t]: the block obtained has room for fewer than [k]
    elements.  When the elements present fit in it, the call returns with
    the elements in that block and [Capacity] reporting [k], more than the
    block holds: the invariant of the vector is broken.  When they do not
    fit, the transfer writes past the block: the call has no defined
    behaviour. *)
Theorem Reserve_wrapping_request v k :
  valid v = true → Capacity v < k → fits_size_t k = false →
  Forall (λ y, transfer_throws y = false) (elements v) →
  granted k < k ∧
  (Size v ≤ granted k →
     ∃ v' tr,
       Reserve k v = Done () v' tr ∧
       Capacity v' = k ∧ length (mem (data_ v')) = granted k ∧
       valid v' = false ∧
       Size v' = Size v ∧ elements v' = elements v ∧ allocations tr = [k]) ∧
  (granted k < Size v → Reserve k v = Undefined).
Proof.
  intros Hv Hk Hwrap Hok. apply valid_inv in Hv as (xs & cap & Hle & ->).
  rewrite elements_vec, Capacity_vec, ?Size_vec in *.
  apply granted_wraps in Hwrap.
  split; [done|]. split.
  - intros Hroom.
    rewrite Reserve_granted_spec by done. eexists _, _. split; [done|].
    split; [done|]. split.
    { unfold mem. simpl. rewrite length_app, length_fmap, length_replicate. lia. }
    split.
    { unfold valid. simpl.
      rewrite bool_decide_eq_false_2; [done|].
      rewrite length_app, length_fmap, length_replicate. lia. }
    split; [done|]. split.
    + unfold elements, mem. simpl.
      rewrite take_app_length' by by rewrite length_fmap.
      apply omap_obj_value.
    + apply (allocations_growth_trace xs _ [EvAlloc k]).
  - intros Hsmall.
    unfold Reserve. simpl. case_decide; [lia|].
    unfold mem at 1 2. simpl.
    pose proof (relocate_overflow xs [] (replicate (cap - length xs) Raw)
                  (replicate (granted k) Raw) 0 0 eq_refl) as Hr.
    simpl in Hr. rewrite Hr; rewrite ?length_replicate; (done || lia).
Qed.
End Wrapping.

(** ** Insertion, removal and indexing *)

Section Sequence.
Context {T : Type} `{Element T}.
Implicit Types (v w : Vector T) (xs ys zs : list T) (x d : T).

#[local] Arguments Nat.mul : simpl never.
#[local] Arguments Nat.sub : simpl never.

Lemma PopBack_spec xs x cap :
  length (xs ++ [x]) ≤ cap →
  PopBack (vec (xs ++ [x]) cap) = Done () (vec xs cap) [EvDtor x].
Proof.
  intros Hle. rewrite length_app in Hle. simpl in Hle.
  unfold PopBack. simpl. rewrite length_app. simpl.
  case_decide; [lia|]. unfold mem. simpl.
  replace (length xs + 1 - 1) with (length xs) by lia.
  pose proof (destroy_n_spec [x] (Obj <$> xs)
                (replicate (cap - (length xs + 1)) Raw) (length xs)) as Hd.
  rewrite fmap_app, <-app_assoc. simpl in *.
  rewrite Hd by by rewrite length_fmap. simpl. f_equal.
  unfold with_cells, with_mem. simpl. apply vec_eq; [|lia].
  f_equal. replace (cap - length xs) with (S (cap - (length xs + 1))) by lia.
  done.
Qed.

Lemma at_index_vec xs cap i : at_index (vec xs cap) i = xs !! i.
Proof.
  unfold at_index. simpl. case_decide as Hi.
  - unfold mem. simpl.
    rewrite lookup_app_l by by rewrite length_fmap.
    rewrite list_lookup_fmap. by destruct (xs !! i).
  - symmetry. apply lookup_ge_None. lia.
Qed.

(** X11. [operator[]] agrees with the sequence of elements: on a valid
    vector it yields the element at an index below [Size], and nothing at an
    index from [Size] on, even where the index is within the capacity. *)
Theorem at_index_elements v i :
  valid v = true → at_index v i = elements v !! i.
Proof.
  intros Hv. apply valid_inv in Hv as (xs & cap & Hle & ->).
  rewrite elements_vec. apply at_index_vec.
Qed.

(** X12. [PushBack] followed by [PopBack], when nothing throws, returns
    with the size and the elements the vector had; the capacity is the one
    [PushBack] left, and the object destroyed is the one appended. *)
Theorem push_then_pop_restores v x :
  valid v = true → NoThrow T →
  ∃ v' tr,
    push_then_pop x v = Done () v' tr ∧
    valid v' = true ∧ Size v' = Size v ∧ elements v' = elements v ∧
    Capacity v' =
      (if decide (Size v = Capacity v)
       then if decide (Size v = 0) then 1 else 2 * Size v
       else Capacity v) ∧
    destroyed tr = (left_behind <$> (if decide (Size v = Capacity v)
                                     then elements v else [])) ++ [x].
Proof.
  intros Hv Hno. apply valid_inv in Hv as (xs & cap & Hle & ->).
  rewrite elements_vec, Capacity_vec, ?Size_vec in *.
  unfold push_then_pop, PushBack. destruct (Hno x) as (-> & _).
  case_decide as Hfull.
  - rewrite EmplaceBack_grow_spec by (done || by apply NoThrow_transfer).
    simpl. rewrite PopBack_spec
      by (rewrite length_app; simpl; case_decide; lia).
    simpl. eexists _, _. split; [done|].
    rewrite valid_vec, Size_vec, elements_vec, Capacity_vec
      by (case_decide; lia).
    repeat split.
    unfold destroyed. simpl. rewrite !omap_app. simpl.
    rewrite (omap_fmap_None _ transfer_event)
      by (intros y; unfold transfer_event; by destruct prefers_move).
    rewrite omap_fmap_Some by done. simpl. by rewrite app_nil_r.
  - rewrite EmplaceBack_room_spec by lia. simpl.
    rewrite PopBack_spec by (rewrite length_app; simpl; lia).
    simpl. eexists _, _. split; [done|].
    by rewrite valid_vec, Size_vec, elements_vec, Capacity_vec by lia.
Qed.

(** X13. [Erase] at a position below [Size], when no move assignment
    throws, returns the position, with the element at the position removed,
    the elements after it one slot to the left, and the capacity as it
    was. *)
Theorem Erase_deletes v pos :
  valid v = true → pos < Size v →
  Forall (λ y, move_assign_throws y = false) (drop (S pos) (elements v)) →
  ∃ v' tr,
    Erase pos v = Done pos v' tr ∧
    valid v' = true ∧ elements v' = delete pos (elements v) ∧
    Size v' = Size v - 1 ∧ Capacity v' = Capacity v ∧
    move_assigned tr = drop (S pos) (elements v) ∧
    allocations tr = [].
Proof.
  intros Hv Hpos Hok. apply valid_inv in Hv as (xs & cap & Hle & ->).
  rewrite elements_vec, Capacity_vec, ?Size_vec in *.
  destruct (lookup_lt_is_Some_2 xs pos Hpos) as [a Ha].
  pose proof (take_drop_middle xs pos a Ha) as Hsplit.
  pose proof (Erase_spec (take pos xs) (drop (S pos) xs) a cap) as Her.
  rewrite Hsplit, length_take_le in Her by lia.
  rewrite Her by done. eexists _, _. split; [done|].
  assert (length (take pos xs ++ drop (S pos) xs) = length xs - 1) as Hlen.
  { rewrite length_app, length_take, length_drop. lia. }
  rewrite valid_vec, elements_vec, Size_vec, Capacity_vec by lia.
  rewrite delete_take_drop. repeat split; [done|..].
  - unfold move_assigned. rewrite omap_app. simpl.
    by rewrite omap_fmap_Some, app_nil_r.
  - unfold allocations. rewrite omap_app. simpl.
    by rewrite omap_fmap_None.
Qed.

(** X14. Erasing the last element is [PopBack]: on a valid vector that is
    not empty, the two calls leave the same vector and the same trace, and
    neither can throw. *)
Theorem Erase_last_is_PopBack v :
  valid v = true → 0 < Size v →
  ∃ v' tr,
    Erase (Size v - 1) v = Done (Size v - 1) v' tr ∧
    PopBack v = Done () v' tr ∧
    elements v' = take (Size v - 1) (elements v).
Proof.
  intros Hv Hpos. apply valid_inv in Hv as (xs & cap & Hle & ->).
  rewrite elements_vec, ?Size_vec in *.
  destruct xs as [|x0 xs0 _] using rev_ind; [simpl in Hpos; lia|].
  rewrite length_app in *. simpl in *.
  replace (length xs0 + 1 - 1) with (length xs0) by lia.
  pose proof (Erase_spec xs0 [] x0 cap) as Her. simpl in Her.
  rewrite app_nil_r in Her.
  exists (vec xs0 cap), [EvDtor x0].
  rewrite Her by (rewrite ?length_app; simpl; (lia || done)).
  rewrite PopBack_spec by (rewrite length_app; simpl; lia).
  by rewrite elements_vec, take_app_length.
Qed.

Lemma copy_from_element zs (post : list (slot T)) i y :
  zs !! i = Some y →
  copy_from (ElementAt i) ((Obj <$> zs) ++ post) =
  Some (if copy_ctor_throws y then None else Some y).
Proof.
  intros Hi. unfold copy_from.
  rewrite lookup_app_l by (rewrite length_fmap; by eapply lookup_lt_Some).
  by rewrite list_lookup_fmap, Hi.
Qed.

(** [Emplace] of a value at the position that splits the elements in [xs]
    and [ys], when none of the element operations that this call performs
    throws: the transfer when the vector is full; else, before the end, the
    move construction of the last element, the move assignments of the
    elements shifted and that of the new value. *)
Lemma Emplace_run_spec xs ys cap x :
  length (xs ++ ys) ≤ cap →
  (length (xs ++ ys) = cap →
     Forall (λ y, transfer_throws y = false) (xs ++ ys)) →
  (length (xs ++ ys) < cap → length xs < length (xs ++ ys) →
     move_assign_throws x = false ∧
     Forall (λ y, move_assign_throws y = false)
       (drop (length xs) (take (length (xs ++ ys) - 1) (xs ++ ys))) ∧
     ∀ l, last (xs ++ ys) = Some l → move_ctor_throws l = false) →
  ∃ tr,
    Emplace (length xs) (Some x) (vec (xs ++ ys) cap) =
      Done (length xs)
        (vec (xs ++ x :: ys)
           (if decide (length (xs ++ ys) = cap)
            then if decide (length (xs ++ ys) = 0) then 1
                 else 2 * length (xs ++ ys)
            else cap)) tr.
Proof.
  intros Hle Hfull Hroom. case_decide as Hcase.
  - eexists. apply Emplace_grow_spec; [done|by apply Hfull].
  - destruct ys as [|l ys _] using rev_ind.
    + eexists. rewrite app_nil_r in *.
      apply Emplace_room_end_spec. lia.
    + destruct Hroom as (Hmx & Hmys & Hml);
        [lia|rewrite !length_app; simpl; lia|].
      eexists. apply Emplace_room_spec.
      * lia.
      * apply Hml. rewrite !app_assoc. apply last_snoc.
      * rewrite app_assoc, take_app_length' in Hmys
          by (rewrite !length_app; simpl; lia).
        by rewrite drop_app_length in Hmys.
      * done.
Qed.

(** A value outside the vector is inserted as [Insert] has it. *)
Lemma Insert_ref_Outside pos x v : Insert_ref pos (Outside x) v = Insert pos x v.
Proof. done. Qed.

(** X15. [Insert] of a value that is not an element of the vector, at a
    position from [0] to [Size], when none of the element operations that
    the call performs throws (the copy of the value; the transfer when the
    vector is full; else, before the end, the move construction of the last
    element and the move assignments of the shifted elements and of the new
    value): the call returns the position, with the new value at the
    position, the elements before it in place and the elements from it on
    one slot to the right; indexing the position then yields the value.
    The capacity changes only when the vector was full, by the doubling
    rule. *)
Theorem Insert_places_value v pos x :
  valid v = true → pos ≤ Size v →
  copy_ctor_throws x = false →
  (Size v = Capacity v →
     Forall (λ y, transfer_throws y = false) (elements v)) →
  (Size v < Capacity v → pos < Size v →
     move_assign_throws x = false ∧
     Forall (λ y, move_assign_throws y = false)
       (drop pos (take (Size v - 1) (elements v))) ∧
     ∀ l, last (elements v) = Some l → move_ctor_throws l = false) →
  ∃ v' tr,
    Insert_ref pos (Outside x) v = Done pos v' tr ∧
    valid v' = true ∧
    elements v' = take pos (elements v) ++ x :: drop pos (elements v) ∧
    at_index v' pos = Some x ∧ Size v' = S (Size v) ∧
    Capacity v' =
      (if decide (Size v = Capacity v)
       then if decide (Size v = 0) then 1 else 2 * Size v
       else Capacity v).
Proof.
  intros Hv Hpos Hx Hfull Hroom. apply valid_inv in Hv as (zs & cap & Hle & ->).
  rewrite elements_vec, Capacity_vec, ?Size_vec in *.
  rewrite Insert_ref_Outside. unfold Insert. rewrite Hx.
  pose proof (take_drop pos zs) as Hsplit.
  pose proof (length_take_le zs pos Hpos) as Hlenp.
  set (xs := take pos zs) in *. set (ys := drop pos zs) in *.
  clearbody xs ys. subst zs pos. clear Hpos.
  destruct (Emplace_run_spec xs ys cap x Hle Hfull Hroom) as (tr & Hins).
  rewrite Hins. eexists _, _. split; [done|].
  assert (length (xs ++ x :: ys) = S (length (xs ++ ys))) as Hlen.
  { rewrite !length_app. simpl. lia. }
  rewrite valid_vec, elements_vec, at_index_vec, Size_vec, Capacity_vec
    by (rewrite Hlen; repeat case_decide; lia).
  repeat split; [|done].
  by apply list_lookup_middle.
Qed.

(** X16. Inserting at the end is [PushBack]: on a valid vector, when
    nothing throws, [Insert] at position [Size] and [PushBack] leave the
    same vector and the same trace. *)
Theorem Insert_at_end_is_PushBack v x :
  valid v = true → NoThrow T →
  ∃ v' tr,
    Insert (Size v) x v = Done (Size v) v' tr ∧
    PushBack x v = Done () v' tr ∧
    elements v' = elements v ++ [x].
Proof.
  intros Hv Hno. apply valid_inv in Hv as (xs & cap & Hle & ->).
  rewrite elements_vec, ?Size_vec in *.
  unfold Insert, PushBack. destruct (Hno x) as (-> & _).
  destruct (decide (length xs = cap)) as [Hfull|Hroom].
  - pose proof (Emplace_grow_spec xs [] cap x) as Hins.
    rewrite !app_nil_r in Hins.
    rewrite Hins, EmplaceBack_grow_spec
      by (done || by apply NoThrow_transfer).
    simpl. eexists _, _. split; [done|]. rewrite app_nil_r.
    split; [done|]. by rewrite elements_vec.
  - rewrite Emplace_room_end_spec, EmplaceBack_room_spec by lia.
    simpl. eexists _, _. split; [done|]. split; [done|].
    by rewrite elements_vec.
Qed.

(** X17. In an insertion before the end of a vector with room, the new
    element is built after the tail was shifted.  When its construction
    throws, the exception leaves the call with the size it found, the
    elements from the position on one slot to the right, a moved-from
    object at the position, and the last element live in the slot after the
    last one counted: the invariant of the vector is broken. *)
Theorem Emplace_room_construction_failure xs ys l cap :
  length (xs ++ ys ++ [l]) < cap →
  move_ctor_throws l = false →
  Forall (λ y, move_assign_throws y = false) ys →
  ∃ v' tr,
    Emplace (length xs) None (vec (xs ++ ys ++ [l]) cap) = Thrown v' tr ∧
    Size v' = length (xs ++ ys ++ [l]) ∧
    elements v' = xs ++ hole (moved_from l) ys :: ys ∧
    mem (data_ v') !! Size v' = Some (Obj l) ∧
    valid v' = false.
Proof.
  intros Hlt Hl Hys. unfold Emplace, Emplace_reading. simpl.
  rewrite !length_app in *. simpl in *.
  case_decide; [lia|]. case_decide; [lia|]. case_decide; [|lia].
  unfold mem. simpl.
  set (k := cap - (length xs + (length ys + 1)) - 1).
  replace (cap - (length xs + (length ys + 1))) with (S k) by (unfold k; lia).
  assert (length xs + (length ys + 1) - 1 = length (Obj <$> (xs ++ ys))) as Hlast.
  { rewrite length_fmap, length_app. lia. }
  rewrite !fmap_app. simpl.
  replace (((Obj <$> xs) ++ (Obj <$> ys) ++ [Obj l]) ++ Raw :: replicate k Raw)
    with ((Obj <$> (xs ++ ys)) ++ Obj l :: Raw :: replicate k Raw)
    by by rewrite fmap_app, <-!app_assoc.
  replace (length xs + (length ys + 1) - 1 - length xs) with (length ys) by lia.
  rewrite Hlast, lookup_middle, Hl, insert_middle.
  rewrite (snoc_focus (Obj <$> xs ++ ys)).
  rewrite construct_at_app
    by (rewrite length_snoc, length_fmap, length_app; lia).
  simpl.
  rewrite fmap_app, <-!app_assoc. simpl.
  rewrite (move_backward_spec ys (Obj <$> xs));
    [|by rewrite length_fmap|rewrite length_fmap; lia|done].
  simpl. eexists _, _. split; [done|].
  unfold Size, elements, valid, mem, with_cells, with_mem. simpl.
  set (h := hole (moved_from l) ys).
  assert ((Obj <$> xs) ++ Obj h :: (Obj <$> ys) ++ Obj l :: replicate k Raw =
          (Obj <$> (xs ++ h :: ys)) ++ Obj l :: replicate k Raw) as ->
    by (rewrite fmap_app, <-app_assoc; done).
  assert (length (xs ++ ys ++ [l]) = length (Obj <$> (xs ++ h :: ys))) as ->
    by (rewrite length_fmap; repeat (rewrite ?length_app; simpl); lia).
  rewrite take_app_length, drop_app_length, lookup_middle, omap_obj_value.
  repeat split.
  - rewrite length_fmap, length_app. simpl. lia.
  - simpl. by rewrite andb_false_r.
Qed.
End Sequence.

(** ** Inserting an element of the vector itself, and undoing an insertion *)

Section References.
Context {T : Type} `{Element T}.
Implicit Types (v w : Vector T) (xs ys zs : list T) (x y l d : T).

#[local] Arguments Nat.mul : simpl never.
#[local] Arguments Nat.sub : simpl never.


(** X26. In a vector with room, before the end, [Insert(position, v[i])]
    builds the new element after the tail was shifted, and reads its
    argument then.  With the elements [xs ++ ys ++ [l]] and the position
    after [xs], the value inserted is the one found at index [i] of the
    shifted sequence: the element named when it lies before the position,
    the moved-from object at the position when it is the element at the
    position, and the element that was at [i - 1], not the one named, when
    it lies after the position. *)
Theorem Insert_own_element_read_after_shift xs ys l cap i y :
  length (xs ++ ys ++ [l]) < cap → i < length (xs ++ ys ++ [l]) →
  move_ctor_throws l = false →
  Forall (λ y, move_assign_throws y = false) ys →
  (xs ++ hole (moved_from l) ys :: ys ++ [l]) !! i = Some y →
  copy_ctor_throws y = false → move_assign_throws y = false →
  ∃ tr,
    Insert_ref (length xs) (ElementAt i) (vec (xs ++ ys ++ [l]) cap) =
      Done (length xs) (vec (xs ++ y :: ys ++ [l]) cap) tr ∧
    constructed tr = [y] ∧
    (i < length xs → (xs ++ ys ++ [l]) !! i = Some y) ∧
    (i = length xs → y = hole (moved_from l) ys) ∧
    (length xs < i → (xs ++ ys ++ [l]) !! (i - 1) = Some y).
Proof.
  intros Hlt Hi Hl Hys Hy Hcopy Hassign.
  unfold Insert_ref. case_decide; [|simpl in *; lia].
  rewrite (Emplace_reading_room_spec xs ys l y cap
             (cap - length (xs ++ ys ++ [l]) - 1)); [|lia|done|done| |done].
  - eexists. split; [done|]. split.
    { unfold constructed. simpl. rewrite omap_app. simpl.
      by rewrite omap_fmap_None. }
    split; [|split].
    + intros Hpre. rewrite lookup_app_l in Hy by done.
      by rewrite lookup_app_l.
    + intros ->. rewrite list_lookup_middle in Hy by done. by injection Hy.
    + intros Hpost.
      rewrite lookup_app_r in Hy |- * by lia.
      replace (i - length xs) with (S (i - 1 - length xs)) in Hy by lia.
      done.
  - pose proof (copy_from_element (xs ++ hole (moved_from l) ys :: ys ++ [l])
                  (replicate (cap - length (xs ++ ys ++ [l]) - 1) Raw) i y Hy)
      as Hc.
    rewrite Hcopy in Hc. rewrite <-Hc. f_equal.
    repeat (rewrite ?fmap_app, <-?app_assoc; simpl). done.
Qed.

(** X27. [Insert] of a value from outside the vector followed by [Erase]
    at the same position gives the vector back, size and elements, when
    none of the element operations that the two calls perform throws: the
    copy of the value, the transfer when the vector is full, else, before
    the end, the move construction of the last element and the move
    assignment of the new value, and the move assignments of the elements
    from the position on.  The capacity is the one the insertion left. *)
Theorem insert_then_erase_round_trip v pos x :
  valid v = true → pos ≤ Size v →
  copy_ctor_throws x = false →
  (Size v = Capacity v →
     Forall (λ y, transfer_throws y = false) (elements v)) →
  (Size v < Capacity v → pos < Size v →
     move_assign_throws x = false ∧
     ∀ l, last (elements v) = Some l → move_ctor_throws l = false) →
  Forall (λ y, move_assign_throws y = false) (drop pos (elements v)) →
  ∃ v' tr,
    insert_then_erase pos x v = Done pos v' tr ∧
    valid v' = true ∧ Size v' = Size v ∧ elements v' = elements v ∧
    Capacity v' =
      (if decide (Size v = Capacity v)
       then if decide (Size v = 0) then 1 else 2 * Size v
       else Capacity v).
Proof.
  intros Hv Hpos Hx Hfull Hroom Hshift.
  apply valid_inv in Hv as (zs & cap & Hle & ->).
  rewrite elements_vec, Capacity_vec, ?Size_vec in *.
  unfold insert_then_erase, Insert. rewrite Hx.
  pose proof (take_drop pos zs) as Hsplit.
  pose proof (length_take_le zs pos Hpos) as Hlenp.
  set (xs := take pos zs) in *. set (ys := drop pos zs) in *.
  clearbody xs ys. subst zs pos. clear Hpos.
  destruct (Emplace_run_spec xs ys cap x Hle Hfull) as (tr & ->).
  { intros Hlt Hin. destruct (Hroom Hlt Hin) as [Hmx Hml].
    split; [done|]. split; [|done].
    rewrite skipn_firstn_comm. apply Forall_take.
    by rewrite drop_app_length. }
  simpl.
  rewrite Erase_spec; [|rewrite !length_app in *; simpl; repeat case_decide; lia|done].
  simpl. eexists _, _. split; [done|].
  rewrite valid_vec, Size_vec, elements_vec, Capacity_vec
    by (repeat case_decide; lia).
  done.
Qed.
End References.

(** ** Assignment *)

Section Assignment.
Context {T : Type} `{Element T}.
Implicit Types (v w : Vector T) (xs ys zs ws vs : list T) (x d : T).

#[local] Arguments Nat.mul : simpl never.
#[local] Arguments Nat.sub : simpl never.

(** The projection of a trace built from the traces of the lemmas. *)
Ltac project_trace :=
  unfold copied, destroyed, allocations, copy_assigned, moved, constructed,
    move_assigned;
  repeat (rewrite ?omap_app; simpl);
  repeat first [rewrite omap_fmap_Some by done|rewrite omap_fmap_None by done];
  rewrite ?app_nil_r; simpl.

Lemma Vector_copy_spec xs cap :
  Forall (λ y, copy_ctor_throws y = false) xs →
  Vector_copy (vec xs cap) =
  Done (vec xs (length xs)) (vec xs cap)
    ((if decide (length xs = 0) then [] else [EvAlloc (length xs)]) ++
     (EvCopyCtor <$> xs)).
Proof.
  intros Hok. unfold Vector_copy. simpl. unfold mem. simpl.
  pose proof (uninitialized_copy_n_spec xs [] (replicate (cap - length xs) Raw)
                [] (replicate (length xs) Raw) [] 0 0 eq_refl eq_refl
                (length_replicate _ _) Hok) as Hcopy.
  rewrite !app_nil_r in Hcopy. simpl in Hcopy. rewrite Hcopy. simpl.
  f_equal. unfold with_mem. simpl. apply vec_eq; [|done].
  by rewrite Nat.sub_diag, app_nil_r.
Qed.

Lemma Vector_copy_thrown ys1 z ys2 cap :
  Forall (λ y, copy_ctor_throws y = false) ys1 → copy_ctor_throws z = true →
  Vector_copy (vec (ys1 ++ z :: ys2) cap) =
  Thrown (vec (ys1 ++ z :: ys2) cap)
    ([EvAlloc (length (ys1 ++ z :: ys2))] ++
     (EvCopyCtor <$> ys1) ++ (EvDtor <$> ys1)).
Proof.
  intros Hok Hz. unfold Vector_copy. simpl. unfold mem. simpl.
  pose proof (uninitialized_copy_n_thrown ys1 z ys2 []
                (replicate (cap - length (ys1 ++ z :: ys2)) Raw) [] [] 0 0
                (length (ys1 ++ z :: ys2)) eq_refl eq_refl eq_refl Hok Hz)
    as Hcopy.
  rewrite !app_nil_r in Hcopy. simpl in Hcopy. rewrite Hcopy. simpl.
  case_decide as Hlen; [|done].
  rewrite length_app in Hlen. simpl in Hlen. lia.
Qed.

Lemma Vector_dtor_spec xs cap :
  Vector_dtor (vec xs cap) =
  Done () {| data_ := {| buffer_ := Released; capacity_ := cap |};
             size_ := length xs |} (EvDtor <$> xs).
Proof.
  unfold Vector_dtor. simpl. unfold mem. simpl.
  pose proof (destroy_n_spec xs [] (replicate (cap - length xs) Raw) 0 eq_refl)
    as Hd.
  simpl in Hd. by rewrite Hd.
Qed.

(** X18. Copy assignment [v = w] between two distinct vectors, when the
    size of [w] exceeds the capacity of [v] and no copy throws, builds a
    copy of [w] and swaps it in: [v] ends valid with the elements of [w] in
    storage of exactly [Size w] slots, obtained in one allocation; every
    element [v] held is destroyed, and [w] is untouched. *)
Theorem copy_assign_reallocates (σ : gmap addr (Vector T))
    (this rhs : addr) v w :
  this ≠ rhs → σ !! this = Some v → σ !! rhs = Some w →
  valid v = true → valid w = true → Capacity v < Size w →
  Forall (λ y, copy_ctor_throws y = false) (elements w) →
  ∃ v' tr,
    copy_assign this rhs σ = Done () (<[this := v']> σ) tr ∧
    (<[this := v']> σ) !! rhs = Some w ∧
    valid v' = true ∧ elements v' = elements w ∧ Capacity v' = Size w ∧
    copied tr = elements w ∧ destroyed tr = elements v ∧
    allocations tr = [Size w] ∧ copy_assigned tr = [].
Proof.
  intros Hne Hthis Hrhs Hv Hw Hbig Hok.
  apply valid_inv in Hv as (vs & cap & Hle & ->).
  apply valid_inv in Hw as (ws & capw & Hlew & ->).
  rewrite elements_vec, Capacity_vec, ?Size_vec in *.
  unfold copy_assign. case_decide; [|done]. rewrite Hthis, Hrhs.
  unfold copy_assign_from. simpl. case_decide; [|lia].
  rewrite Vector_copy_spec by done. simpl.
  change {| data_ := {| buffer_ := Cells ((Obj <$> vs) ++
                                          replicate (cap - length vs) Raw);
                        capacity_ := cap |};
            size_ := length vs |} with (vec vs cap).
  rewrite Vector_dtor_spec. simpl.
  exists (vec ws (length ws)). eexists. split; [done|].
  rewrite lookup_insert_ne, Hrhs, valid_vec, elements_vec, Capacity_vec by done.
  case_decide; [lia|]. simpl. rewrite ?elements_vec.
  repeat split.
  - by project_trace.
  - by project_trace.
  - by project_trace.
  - by project_trace.
Qed.

(** X19. In that case, when the copy of an element of [w] throws, the
    exception leaves the call with the store as it was: [v] has kept its
    elements, its size and its storage; the copies made were destroyed
    again. *)
Theorem copy_assign_reallocation_failure (σ : gmap addr (Vector T))
    (this rhs : addr) v w ys1 z ys2 :
  this ≠ rhs → σ !! this = Some v → σ !! rhs = Some w →
  valid v = true → valid w = true → Capacity v < Size w →
  elements w = ys1 ++ z :: ys2 →
  Forall (λ y, copy_ctor_throws y = false) ys1 → copy_ctor_throws z = true →
  ∃ tr,
    copy_assign this rhs σ = Thrown σ tr ∧
    copied tr = ys1 ∧ destroyed tr = ys1 ∧ copy_assigned tr = [].
Proof.
  intros Hne Hthis Hrhs Hv Hw Hbig Hel Hok Hz.
  apply valid_inv in Hw as (ws & capw & Hlew & ->).
  rewrite elements_vec in Hel. subst ws.
  unfold copy_assign. case_decide; [|done]. rewrite Hthis, Hrhs.
  unfold copy_assign_from. rewrite Size_vec in Hbig.
  case_decide; [|simpl in *; unfold Capacity in *; lia].
  rewrite Vector_copy_thrown by done. simpl.
  rewrite insert_id by done. eexists. split; [done|].
  repeat split.
  - by project_trace.
  - by project_trace.
  - by project_trace.
Qed.

(** The storage of a valid vector fits one size only. *)
Lemma valid_with_size ws capw n :
  length ws ≤ capw →
  valid (with_size (vec ws capw) n) = true ↔ n = length ws.
Proof.
  intros Hle. split; [|intros ->; by apply valid_vec].
  unfold valid, with_size. simpl. intros Hv.
  repeat (apply andb_prop in Hv as [Hv ?]).
  match goal with Hb : bool_decide (n ≤ capw) = true |- _ =>
    apply bool_decide_eq_true_1 in Hb; rename Hb into Hn end.
  match goal with Ho : forallb is_obj _ = true |- _ =>
    apply Is_true_true_2, forallb_True in Ho; rename Ho into Hobj end.
  match goal with Hr : forallb is_raw _ = true |- _ =>
    apply Is_true_true_2, forallb_True in Hr; rename Hr into Hraw end.
  destruct (Nat.lt_trichotomy n (length ws)) as [Hlt|[->|Hgt]]; [|done|].
  - destruct (lookup_lt_is_Some_2 ws n Hlt) as [a Ha].
    eapply (Forall_lookup_1 _ _ 0 (Obj a)) in Hraw; [done|].
    rewrite lookup_drop, Nat.add_0_r, lookup_app_l by by rewrite length_fmap.
    by rewrite list_lookup_fmap, Ha.
  - eapply (Forall_lookup_1 _ _ (length ws) Raw) in Hobj; [done|].
    rewrite lookup_take_lt by done.
    rewrite lookup_app_r by by rewrite length_fmap.
    rewrite length_fmap, Nat.sub_diag. apply lookup_replicate_2. lia.
Qed.

(** X20. Move assignment [v = std::move(w)] between two distinct valid
    vectors swaps the storage of the two, sets the size of [w] to [0] and
    leaves the size of [v] as it was, destroying nothing.  So [v] is valid
    afterwards exactly when it had as many elements as [w], and [w] is
    valid afterwards exactly when [v] was empty. *)
Theorem move_assign_validity (σ : gmap addr (Vector T)) (this rhs : addr) v w :
  this ≠ rhs → σ !! this = Some v → σ !! rhs = Some w →
  valid v = true → valid w = true →
  ∃ v' w',
    move_assign this rhs σ = Done () (<[rhs := w']> (<[this := v']> σ)) [] ∧
    data_ v' = data_ w ∧ Size v' = Size v ∧
    data_ w' = data_ v ∧ Size w' = 0 ∧
    (valid v' = true ↔ Size v = Size w) ∧
    (valid w' = true ↔ Size v = 0).
Proof.
  intros Hne Hthis Hrhs Hv Hw.
  apply valid_inv in Hv as (vs & cap & Hle & ->).
  apply valid_inv in Hw as (ws & capw & Hlew & ->).
  exists (with_size (vec ws capw) (length vs)), (with_size (vec vs cap) 0).
  unfold move_assign, swap_data. rewrite Hthis, Hrhs. simpl.
  rewrite lookup_insert_eq, insert_insert_eq. split; [done|].
  rewrite !valid_with_size by done. unfold Size. simpl.
  repeat split; try done; intros; simpl in *; lia.
Qed.

(** X21. Move assignment of a valid vector to itself leaves its storage as
    it is and sets its size to [0], destroying nothing: the vector is valid
    afterwards only if it was empty. *)
Theorem move_assign_self (σ : gmap addr (Vector T)) (a : addr) v :
  σ !! a = Some v → valid v = true →
  ∃ v',
    move_assign a a σ = Done () (<[a := v']> σ) [] ∧
    data_ v' = data_ v ∧ Size v' = 0 ∧
    (valid v' = true ↔ Size v = 0).
Proof.
  intros Ha Hv. apply valid_inv in Hv as (vs & cap & Hle & ->).
  exists (with_size (vec vs cap) 0).
  unfold move_assign, swap_data. rewrite Ha. simpl.
  rewrite lookup_insert_eq, !insert_insert_eq. split; [done|].
  rewrite valid_with_size by done. unfold Size. simpl.
  repeat split; try done; intros; simpl in *; lia.
Qed.
End Assignment.

(** ** A move assignment that throws in [Erase] *)

Section ThrowingErase.
Context {T : Type} `{Element T}.
Implicit Types (pre post cells : list (slot T)) (xs ys zs : list T).

#[local] Arguments Nat.mul : simpl never.
#[local] Arguments Nat.sub : simpl never.

Lemma move_forward_thrown ys1 (z : T) ys2 pre post (a : T) first d_first n :
  d_first = length pre → first = S (length pre) →
  n = length (ys1 ++ z :: ys2) →
  Forall (λ y, move_assign_throws y = false) ys1 →
  move_assign_throws z = true →
  move_forward (pre ++ Obj a :: (Obj <$> (ys1 ++ z :: ys2)) ++ post)
    first n d_first =
  Thrown (pre ++ (Obj <$> ys1) ++
          Obj (vacated a ys1) :: (Obj <$> (z :: ys2)) ++ post)
    (EvMoveAssign <$> ys1).
Proof.
  revert pre a first d_first n.
  induction ys1 as [|y ys1 IH]; intros pre a first d_first n -> -> -> Hok Hz.
  - simpl. unfold move_assign_at.
    by rewrite lookup_middle_S, lookup_middle, Hz.
  - apply Forall_cons in Hok as [Hy Hok]. simpl.
    rewrite (move_assign_at_left pre) by done. simpl.
    rewrite (snoc_focus pre).
    rewrite (IH (pre ++ [Obj y]) (moved_from y));
      rewrite ?length_snoc; [|done..].
    simpl. by rewrite <-app_assoc.
Qed.

(** X22. When a move assignment throws while [Erase] shifts the tail, the
    exception leaves the call with a valid vector of the size and the
    capacity it found: the elements shifted so far are in their new places,
    a moved-from object fills the gap, and the element that could not be
    moved and those after it are where they were. *)
Theorem Erase_failure_keeps_valid xs (a : T) ys1 z ys2 cap :
  length (xs ++ a :: ys1 ++ z :: ys2) ≤ cap →
  Forall (λ y, move_assign_throws y = false) ys1 →
  move_assign_throws z = true →
  ∃ v' tr,
    Erase (length xs) (vec (xs ++ a :: ys1 ++ z :: ys2) cap) = Thrown v' tr ∧
    valid v' = true ∧
    Size v' = length (xs ++ a :: ys1 ++ z :: ys2) ∧ Capacity v' = cap ∧
    elements v' = xs ++ ys1 ++ vacated a ys1 :: z :: ys2 ∧
    move_assigned tr = ys1 ∧ destroyed tr = [].
Proof.
  intros Hle Hok Hz. unfold Erase. simpl.
  assert (length (xs ++ a :: ys1 ++ z :: ys2) =
          length (xs ++ ys1 ++ vacated a ys1 :: z :: ys2)) as Hlen.
  { repeat (rewrite ?length_app; simpl). lia. }
  case_decide as Hpos; [rewrite length_app in Hpos; simpl in Hpos; lia|].
  unfold mem. simpl.
  rewrite fmap_app, <-app_assoc. simpl.
  rewrite (move_forward_thrown ys1 z ys2 (Obj <$> xs));
    [|by rewrite length_fmap|rewrite length_fmap; lia
     |rewrite length_app; simpl; lia|done|done].
  simpl. exists (vec (xs ++ ys1 ++ vacated a ys1 :: z :: ys2) cap).
  eexists. split.
  { f_equal. unfold with_cells, with_mem. simpl. apply vec_eq; [|done].
    rewrite <-Hlen. repeat (rewrite ?fmap_app; simpl).
    by rewrite <-?app_assoc. }
  rewrite valid_vec, Size_vec, Capacity_vec, elements_vec by lia.
  repeat split; [by rewrite Hlen|..].
  - unfold move_assigned. by apply omap_fmap_Some.
  - unfold destroyed. by apply omap_fmap_None.
Qed.
End ThrowingErase.

(** ** The further properties on sample vectors *)

Lemma int_element_NoThrow : NoThrow nat (H:=int_element).
Proof. intros x. repeat split. Defined.

Lemma sized_construct_witness :
  fits_size_t (H:=int_element) 3 = true ∧
  value_init (Element:=int_element) = Some 0 ∧
  ∃ v tr,
    Vector_sized (H:=int_element) 3 = Done v () tr ∧
    elements v = [0; 0; 0] ∧ Capacity v = 3.
Proof.
  split; [reflexivity|]. split; [reflexivity|].
  destruct (sized_construct (H:=int_element) 3 0 eq_refl eq_refl)
    as (v & tr & Hcall & _ & _ & Hcap & Hel & _).
  exists v, tr. split; [exact Hcall|]. split; [exact Hel|exact Hcap].
Defined.

Lemma copy_construct_witness :
  valid roomy_vector = true ∧
  Forall (λ y, copy_ctor_throws (Element:=int_element) y = false)
    (elements roomy_vector) ∧
  ∃ v tr,
    Vector_copy (H:=int_element) roomy_vector = Done v roomy_vector tr ∧
    elements v = elements roomy_vector ∧ Capacity v = Size roomy_vector.
Proof.
  assert (Forall (λ y, copy_ctor_throws (Element:=int_element) y = false)
            (elements roomy_vector)) as Hok by (repeat constructor).
  split; [reflexivity|]. split; [exact Hok|].
  destruct (copy_construct (H:=int_element) roomy_vector eq_refl Hok)
    as (v & tr & Hcall & _ & Hel & _ & Hcap & _).
  exists v, tr. split; [exact Hcall|]. split; [exact Hel|exact Hcap].
Defined.

Lemma copy_construct_failure_witness :
  valid poisoned_vector = true ∧ elements poisoned_vector = [1] ++ 13 :: [] ∧
  Forall (λ y, copy_ctor_throws (Element:=fragile_element) y = false) [1] ∧
  copy_ctor_throws (Element:=fragile_element) 13 = true ∧
  ∃ tr,
    Vector_copy (H:=fragile_element) poisoned_vector =
      Thrown poisoned_vector tr ∧
    copied tr = [1] ∧ destroyed tr = [1].
Proof.
  assert (Forall (λ y, copy_ctor_throws (Element:=fragile_element) y = false)
            [1]) as Hok by (repeat constructor).
  split; [reflexivity|]. split; [reflexivity|]. split; [exact Hok|].
  split; [reflexivity|].
  exact (copy_construct_failure (H:=fragile_element) poisoned_vector [1] 13 []
           eq_refl eq_refl Hok eq_refl).
Defined.

Lemma destructor_destroys_elements_witness :
  valid roomy_vector = true ∧
  ∃ v' tr,
    Vector_dtor roomy_vector = Done () v' tr ∧
    tr = EvDtor <$> elements roomy_vector ∧
    buffer_ (data_ v') = Released.
Proof.
  split; [reflexivity|].
  exact (destructor_destroys_elements roomy_vector eq_refl).
Defined.

Lemma Reserve_grows_witness :
  valid full_vector = true ∧ Capacity full_vector < 5 ∧
  fits_size_t (H:=int_element) 5 = true ∧
  Forall (λ y, transfer_throws (H:=int_element) y = false)
    (elements full_vector) ∧
  ∃ v' tr,
    Reserve (H:=int_element) 5 full_vector = Done () v' tr ∧
    Capacity v' = 5 ∧ elements v' = elements full_vector.
Proof.
  assert (Capacity full_vector < 5) as Hk by (vm_compute; lia).
  assert (Forall (λ y, transfer_throws (H:=int_element) y = false)
            (elements full_vector)) as Hok by (repeat constructor).
  split; [reflexivity|]. split; [exact Hk|]. split; [reflexivity|].
  split; [exact Hok|].
  destruct (Reserve_grows (H:=int_element) full_vector 5 eq_refl Hk eq_refl
              Hok)
    as (v' & tr & Hcall & _ & Hcap & _ & Hel & _).
  exists v', tr. split; [exact Hcall|]. split; [exact Hcap|exact Hel].
Defined.

Lemma Reserve_copy_failure_strong_witness :
  valid poisoned_vector = true ∧ Capacity poisoned_vector < 5 ∧
  fits_size_t (H:=fragile_element) 5 = true ∧
  is_nothrow_move_constructible (Element:=fragile_element) ||
    negb (is_copy_constructible (Element:=fragile_element)) = false ∧
  elements poisoned_vector = [1] ++ 13 :: [] ∧
  Forall (λ y, copy_ctor_throws (Element:=fragile_element) y = false) [1] ∧
  copy_ctor_throws (Element:=fragile_element) 13 = true ∧
  ∃ tr,
    Reserve (H:=fragile_element) 5 poisoned_vector = Thrown poisoned_vector tr ∧
    copied tr = [1] ∧ destroyed tr = [1] ∧ moved tr = [].
Proof.
  assert (Capacity poisoned_vector < 5) as Hk by (vm_compute; lia).
  assert (Forall (λ y, copy_ctor_throws (Element:=fragile_element) y = false)
            [1]) as Hok by (repeat constructor).
  split; [reflexivity|]. split; [exact Hk|]. split; [reflexivity|].
  split; [reflexivity|]. split; [reflexivity|]. split; [exact Hok|].
  split; [reflexivity|].
  exact (Reserve_copy_failure_strong (H:=fragile_element) poisoned_vector 5
           [1] 13 [] eq_refl Hk eq_refl eq_refl eq_refl Hok eq_refl).
Defined.

Lemma EmplaceBack_copy_failure_leaks_witness :
  valid poisoned_vector = true ∧
  Size poisoned_vector = Capacity poisoned_vector ∧
  is_nothrow_move_constructible (Element:=fragile_element) ||
    negb (is_copy_constructible (Element:=fragile_element)) = false ∧
  elements poisoned_vector = [1] ++ 13 :: [] ∧
  Forall (λ y, copy_ctor_throws (Element:=fragile_element) y = false) [1] ∧
  copy_ctor_throws (Element:=fragile_element) 13 = true ∧
  ∃ tr,
    EmplaceBack (H:=fragile_element) (Some 5) poisoned_vector =
      Thrown poisoned_vector tr ∧
    constructed tr = [5] ∧ copied tr = [1] ∧ destroyed tr = [1].
Proof.
  assert (Forall (λ y, copy_ctor_throws (Element:=fragile_element) y = false)
            [1]) as Hok by (repeat constructor).
  split; [reflexivity|]. split; [reflexivity|]. split; [reflexivity|].
  split; [reflexivity|]. split; [exact Hok|]. split; [reflexivity|].
  exact (EmplaceBack_copy_failure_leaks (H:=fragile_element) poisoned_vector 5
           [1] 13 [] eq_refl eq_refl eq_refl eq_refl Hok eq_refl).
Defined.

Lemma reserve_then_append_allocates_once_witness :
  valid full_vector = true ∧
  (Capacity full_vector < 6 → fits_size_t (H:=int_element) 6 = true) ∧
  Size full_vector + length [3; 4; 5] ≤ 6 ∧
  Forall (λ y, transfer_throws (H:=int_element) y = false)
    (elements full_vector) ∧
  Forall (λ y, copy_ctor_throws (Element:=int_element) y = false) [3; 4; 5] ∧
  ∃ v' tr,
    reserve_then_append (H:=int_element) 6 [3; 4; 5] full_vector =
      Done () v' tr ∧
    elements v' = elements full_vector ++ [3; 4; 5] ∧
    allocations tr =
      (if decide (6 ≤ Capacity full_vector) then [] else [6]).
Proof.
  assert (Size full_vector + length [3; 4; 5] ≤ 6) as Hfit by (vm_compute; lia).
  assert (Forall (λ y, transfer_throws (H:=int_element) y = false)
            (elements full_vector)) as Hok by (repeat constructor).
  assert (Forall (λ y, copy_ctor_throws (Element:=int_element) y = false)
            [3; 4; 5]) as Hxs by (repeat constructor).
  split; [reflexivity|]. split; [intros _; reflexivity|].
  split; [exact Hfit|]. split; [exact Hok|]. split; [exact Hxs|].
  destruct (reserve_then_append_allocates_once (H:=int_element) full_vector 6
              [3; 4; 5] eq_refl (λ _, eq_refl) Hfit Hok Hxs)
    as (v' & tr & Hcall & _ & Hel & _ & Ha).
  exists v', tr. split; [exact Hcall|]. split; [exact Hel|exact Ha].
Defined.

Lemma Resize_keeps_prefix_witness :
  valid roomy_vector = true ∧
  (Capacity roomy_vector < 5 → fits_size_t (H:=int_element) 5 = true) ∧
  value_init (Element:=int_element) = Some 0 ∧
  Forall (λ y, transfer_throws (H:=int_element) y = false)
    (elements roomy_vector) ∧
  ∃ v' tr,
    Resize (H:=int_element) 5 roomy_vector = Done () v' tr ∧
    Size v' = 5 ∧
    elements v' =
      take 5 (elements roomy_vector) ++ replicate (5 - Size roomy_vector) 0 ∧
    Capacity v' = Nat.max (Capacity roomy_vector) 5.
Proof.
  assert (Forall (λ y, transfer_throws (H:=int_element) y = false)
            (elements roomy_vector)) as Hok by (repeat constructor).
  split; [reflexivity|]. split; [intros _; reflexivity|].
  split; [reflexivity|]. split; [exact Hok|].
  destruct (Resize_keeps_prefix (H:=int_element) roomy_vector 5 0 eq_refl
              (λ _, eq_refl) eq_refl Hok)
    as (v' & tr & Hcall & _ & Hsize & Hel & Hcap & _).
  exists v', tr. split; [exact Hcall|]. split; [exact Hsize|].
  split; [exact Hel|exact Hcap].
Defined.

Lemma at_index_elements_witness :
  valid roomy_vector = true ∧
  at_index roomy_vector 1 = elements roomy_vector !! 1 ∧
  at_index roomy_vector 3 = elements roomy_vector !! 3.
Proof.
  split; [reflexivity|].
  split; exact (at_index_elements roomy_vector _ eq_refl).
Defined.

Lemma push_then_pop_restores_witness :
  valid full_vector = true ∧ NoThrow nat (H:=int_element) ∧
  ∃ v' tr,
    push_then_pop (H:=int_element) 9 full_vector = Done () v' tr ∧
    Size v' = Size full_vector ∧ elements v' = elements full_vector.
Proof.
  split; [reflexivity|]. split; [exact int_element_NoThrow|].
  destruct (push_then_pop_restores (H:=int_element) full_vector 9 eq_refl
              int_element_NoThrow)
    as (v' & tr & Hcall & _ & Hsize & Hel & _).
  exists v', tr. split; [exact Hcall|]. split; [exact Hsize|exact Hel].
Defined.

Lemma Erase_deletes_witness :
  valid roomy_vector = true ∧ 0 < Size roomy_vector ∧
  Forall (λ y, move_assign_throws (Element:=int_element) y = false)
    (drop 1 (elements roomy_vector)) ∧
  ∃ v' tr,
    Erase (H:=int_element) 0 roomy_vector = Done 0 v' tr ∧
    elements v' = delete 0 (elements roomy_vector) ∧
    Capacity v' = Capacity roomy_vector.
Proof.
  assert (0 < Size roomy_vector) as Hpos by (vm_compute; lia).
  assert (Forall (λ y, move_assign_throws (Element:=int_element) y = false)
            (drop 1 (elements roomy_vector))) as Hok by (repeat constructor).
  split; [reflexivity|]. split; [exact Hpos|]. split; [exact Hok|].
  destruct (Erase_deletes (H:=int_element) roomy_vector 0 eq_refl Hpos Hok)
    as (v' & tr & Hcall & _ & Hel & _ & Hcap & _).
  exists v', tr. split; [exact Hcall|]. split; [exact Hel|exact Hcap].
Defined.

Lemma Erase_last_is_PopBack_witness :
  valid roomy_vector = true ∧ 0 < Size roomy_vector ∧
  ∃ v' tr,
    Erase (H:=int_element) (Size roomy_vector - 1) roomy_vector =
      Done (Size roomy_vector - 1) v' tr ∧
    PopBack roomy_vector = Done () v' tr ∧
    elements v' = take (Size roomy_vector - 1) (elements roomy_vector).
Proof.
  assert (0 < Size roomy_vector) as Hpos by (vm_compute; lia).
  split; [reflexivity|]. split; [exact Hpos|].
  exact (Erase_last_is_PopBack (H:=int_element) roomy_vector eq_refl Hpos).
Defined.

Lemma Insert_places_value_witness :
  valid roomy_vector = true ∧ 1 ≤ Size roomy_vector ∧
  copy_ctor_throws (Element:=fragile_element) 9 = false ∧
  (Size roomy_vector = Capacity roomy_vector →
     Forall (λ y, transfer_throws (H:=fragile_element) y = false)
       (elements roomy_vector)) ∧
  (Size roomy_vector < Capacity roomy_vector → 1 < Size roomy_vector →
     move_assign_throws (Element:=fragile_element) 9 = false ∧
     Forall (λ y, move_assign_throws (Element:=fragile_element) y = false)
       (drop 1 (take (Size roomy_vector - 1) (elements roomy_vector))) ∧
     ∀ l, last (elements roomy_vector) = Some l →
          move_ctor_throws (Element:=fragile_element) l = false) ∧
  ∃ v' tr,
    Insert_ref (H:=fragile_element) 1 (Outside 9) roomy_vector =
      Done 1 v' tr ∧
    elements v' =
      take 1 (elements roomy_vector) ++ 9 :: drop 1 (elements roomy_vector) ∧
    at_index v' 1 = Some 9.
Proof.
  assert (1 ≤ Size roomy_vector) as Hpos by (vm_compute; lia).
  assert (Size roomy_vector = Capacity roomy_vector →
          Forall (λ y, transfer_throws (H:=fragile_element) y = false)
            (elements roomy_vector)) as Hfull
    by (intros Hf; vm_compute in Hf; lia).
  assert (Size roomy_vector < Capacity roomy_vector → 1 < Size roomy_vector →
          move_assign_throws (Element:=fragile_element) 9 = false ∧
          Forall (λ y, move_assign_throws (Element:=fragile_element) y = false)
            (drop 1 (take (Size roomy_vector - 1) (elements roomy_vector))) ∧
          ∀ l, last (elements roomy_vector) = Some l →
               move_ctor_throws (Element:=fragile_element) l = false) as Hroom.
  { intros _ _. split; [reflexivity|]. split; [repeat constructor|].
    intros l _. reflexivity. }
  split; [reflexivity|]. split; [exact Hpos|]. split; [reflexivity|].
  split; [exact Hfull|]. split; [exact Hroom|].
  destruct (Insert_places_value (H:=fragile_element) roomy_vector 1 9 eq_refl
              Hpos eq_refl Hfull Hroom)
    as (v' & tr & Hcall & _ & Hel & Hat & _).
  exists v', tr. split; [exact Hcall|]. split; [exact Hel|exact Hat].
Defined.

Lemma Insert_at_end_is_PushBack_witness :
  valid full_vector = true ∧ NoThrow nat (H:=int_element) ∧
  ∃ v' tr,
    Insert (H:=int_element) (Size full_vector) 9 full_vector =
      Done (Size full_vector) v' tr ∧
    PushBack (H:=int_element) 9 full_vector = Done () v' tr ∧
    elements v' = elements full_vector ++ [9].
Proof.
  split; [reflexivity|]. split; [exact int_element_NoThrow|].
  exact (Insert_at_end_is_PushBack (H:=int_element) full_vector 9 eq_refl
           int_element_NoThrow).
Defined.

Lemma Emplace_room_construction_failure_witness :
  length ([1] ++ [2] ++ [3]) < 4 ∧
  move_ctor_throws (Element:=int_element) 3 = false ∧
  Forall (λ y, move_assign_throws (Element:=int_element) y = false) [2] ∧
  ∃ v' tr,
    Emplace (H:=int_element) (length [1]) None (vec ([1] ++ [2] ++ [3]) 4) =
      Thrown v' tr ∧
    Size v' = length ([1] ++ [2] ++ [3]) ∧
    elements v' = [1] ++ hole (H:=int_element) 3 [2] :: [2] ∧
    mem (data_ v') !! Size v' = Some (Obj 3) ∧
    valid v' = false.
Proof.
  assert (length ([1] ++ [2] ++ [3]) < 4) as Hlt by (vm_compute; lia).
  assert (Forall (λ y, move_assign_throws (Element:=int_element) y = false) [2])
    as Hok by (repeat constructor).
  split; [exact Hlt|]. split; [reflexivity|]. split; [exact Hok|].
  exact (Emplace_room_construction_failure (H:=int_element) [1] [2] 3 4 Hlt
           eq_refl Hok).
Defined.

Lemma copy_assign_reallocates_witness :
  1 ≠ 0 ∧ long_and_short !! 1 = Some (vec [7] 1) ∧
  long_and_short !! 0 = Some (vec [1; 2; 3] 4) ∧
  valid (vec [7] 1) = true ∧ valid (vec [1; 2; 3] 4) = true ∧
  Capacity (vec [7] 1) < Size (vec [1; 2; 3] 4) ∧
  Forall (λ y, copy_ctor_throws (Element:=int_element) y = false)
    (elements (vec [1; 2; 3] 4)) ∧
  ∃ v' tr,
    copy_assign (H:=int_element) 1 0 long_and_short =
      Done () (<[1 := v']> long_and_short) tr ∧
    elements v' = [1; 2; 3] ∧ Capacity v' = 3 ∧ destroyed tr = [7].
Proof.
  assert (1 ≠ 0) as Hne by lia.
  assert (Capacity (vec [7] 1) < Size (vec [1; 2; 3] 4)) as Hbig
    by (vm_compute; lia).
  assert (Forall (λ y, copy_ctor_throws (Element:=int_element) y = false)
            (elements (vec [1; 2; 3] 4))) as Hok by (repeat constructor).
  split; [exact Hne|]. split; [reflexivity|]. split; [reflexivity|].
  split; [reflexivity|]. split; [reflexivity|]. split; [exact Hbig|].
  split; [exact Hok|].
  destruct (copy_assign_reallocates (H:=int_element) long_and_short 1 0
              (vec [7] 1) (vec [1; 2; 3] 4) Hne eq_refl eq_refl eq_refl
              eq_refl Hbig Hok)
    as (v' & tr & Hcall & _ & _ & Hel & Hcap & _ & Hd & _).
  exists v', tr. split; [exact Hcall|]. split; [exact Hel|].
  split; [exact Hcap|exact Hd].
Defined.

Lemma copy_assign_reallocation_failure_witness :
  0 ≠ 1 ∧ empty_and_poisoned !! 0 = Some Vector_default ∧
  empty_and_poisoned !! 1 = Some poisoned_vector ∧
  valid (@Vector_default nat) = true ∧ valid poisoned_vector = true ∧
  Capacity (@Vector_default nat) < Size poisoned_vector ∧
  elements poisoned_vector = [1] ++ 13 :: [] ∧
  Forall (λ y, copy_ctor_throws (Element:=fragile_element) y = false) [1] ∧
  copy_ctor_throws (Element:=fragile_element) 13 = true ∧
  ∃ tr,
    copy_assign (H:=fragile_element) 0 1 empty_and_poisoned =
      Thrown empty_and_poisoned tr ∧
    copied tr = [1] ∧ destroyed tr = [1] ∧ copy_assigned tr = [].
Proof.
  assert (0 ≠ 1) as Hne by lia.
  assert (Capacity (@Vector_default nat) < Size poisoned_vector) as Hbig
    by (vm_compute; lia).
  assert (Forall (λ y, copy_ctor_throws (Element:=fragile_element) y = false)
            [1]) as Hok by (repeat constructor).
  split; [exact Hne|]. split; [reflexivity|]. split; [reflexivity|].
  split; [reflexivity|]. split; [reflexivity|]. split; [exact Hbig|].
  split; [reflexivity|]. split; [exact Hok|]. split; [reflexivity|].
  exact (copy_assign_reallocation_failure (H:=fragile_element)
           empty_and_poisoned 0 1 Vector_default poisoned_vector [1] 13 []
           Hne eq_refl eq_refl eq_refl eq_refl Hbig eq_refl Hok eq_refl).
Defined.

Lemma move_assign_validity_witness :
  0 ≠ 1 ∧ one_and_empty !! 0 = Some (vec [1] 1) ∧
  one_and_empty !! 1 = Some Vector_default ∧
  valid (vec [1] 1) = true ∧ valid (@Vector_default nat) = true ∧
  ∃ v' w',
    move_assign 0 1 one_and_empty =
      Done () (<[1 := w']> (<[0 := v']> one_and_empty)) [] ∧
    Size v' = Size (vec [1] 1) ∧
    (valid v' = true ↔ Size (vec [1] 1) = Size (@Vector_default nat)) ∧
    (valid w' = true ↔ Size (vec [1] 1) = 0).
Proof.
  assert (0 ≠ 1) as Hne by lia.
  split; [exact Hne|]. split; [reflexivity|]. split; [reflexivity|].
  split; [reflexivity|]. split; [reflexivity|].
  destruct (move_assign_validity one_and_empty 0 1 (vec [1] 1) Vector_default
              Hne eq_refl eq_refl eq_refl eq_refl)
    as (v' & w' & Hcall & _ & Hsize & _ & _ & Hv & Hw).
  exists v', w'. split; [exact Hcall|]. split; [exact Hsize|].
  split; [exact Hv|exact Hw].
Defined.

Lemma move_assign_self_witness :
  one_and_empty !! 0 = Some (vec [1] 1) ∧ valid (vec [1] 1) = true ∧
  ∃ v',
    move_assign 0 0 one_and_empty = Done () (<[0 := v']> one_and_empty) [] ∧
    data_ v' = data_ (vec [1] 1) ∧ Size v' = 0 ∧
    (valid v' = true ↔ Size (vec [1] 1) = 0).
Proof.
  split; [reflexivity|]. split; [reflexivity|].
  exact (move_assign_self one_and_empty 0 (vec [1] 1) eq_refl eq_refl).
Defined.

Lemma Erase_failure_keeps_valid_witness :
  length ([1] ++ 2 :: [3] ++ 13 :: [4]) ≤ 5 ∧
  Forall (λ y, move_assign_throws (Element:=stubborn_element) y = false) [3] ∧
  move_assign_throws (Element:=stubborn_element) 13 = true ∧
  ∃ v' tr,
    Erase (H:=stubborn_element) (length [1])
      (vec ([1] ++ 2 :: [3] ++ 13 :: [4]) 5) = Thrown v' tr ∧
    valid v' = true ∧
    Size v' = length ([1] ++ 2 :: [3] ++ 13 :: [4]) ∧ Capacity v' = 5 ∧
    elements v' = [1] ++ [3] ++ vacated (H:=stubborn_element) 2 [3] :: 13 :: [4] ∧
    move_assigned tr = [3] ∧ destroyed tr = [].
Proof.
  assert (length ([1] ++ 2 :: [3] ++ 13 :: [4]) ≤ 5) as Hle by (vm_compute; lia).
  assert (Forall (λ y, move_assign_throws (Element:=stubborn_element) y = false)
            [3]) as Hok by (repeat constructor).
  split; [exact Hle|]. split; [exact Hok|]. split; [reflexivity|].
  exact (Erase_failure_keeps_valid (H:=stubborn_element) [1] 2 [3] 13 [4] 5
           Hle Hok eq_refl).
Defined.

Lemma sized_construct_wrapping_witness :
  fits_size_t (H:=bulky_element) 4 = false ∧
  value_init (Element:=bulky_element) = Some 0 ∧
  Vector_sized (H:=bulky_element) 4 = Undefined.
Proof.
  split; [reflexivity|]. split; [reflexivity|].
  exact (sized_construct_wrapping (H:=bulky_element) 4 0 eq_refl eq_refl).
Defined.

Lemma Reserve_wrapping_request_witness :
  valid (T:=nat) Vector_default = true ∧
  Capacity (T:=nat) Vector_default < 4 ∧
  fits_size_t (H:=bulky_element) 4 = false ∧
  Forall (λ y, transfer_throws (H:=bulky_element) y = false)
    (elements Vector_default) ∧
  Size (T:=nat) Vector_default ≤ granted (H:=bulky_element) 4 ∧
  ∃ v' tr,
    Reserve (H:=bulky_element) 4 Vector_default = Done () v' tr ∧
    Capacity v' = 4 ∧ length (mem (data_ v')) = 0 ∧ valid v' = false.
Proof.
  assert (Capacity (T:=nat) Vector_default < 4) as Hk by (vm_compute; lia).
  assert (Forall (λ y, transfer_throws (H:=bulky_element) y = false)
            (elements Vector_default)) as Hok by constructor.
  assert (Size (T:=nat) Vector_default ≤ granted (H:=bulky_element) 4)
    as Hroom by (vm_compute; lia).
  split; [reflexivity|]. split; [exact Hk|]. split; [reflexivity|].
  split; [exact Hok|]. split; [exact Hroom|].
  destruct (Reserve_wrapping_request (H:=bulky_element) Vector_default 4
              eq_refl Hk eq_refl Hok) as (_ & Hdone & _).
  destruct (Hdone Hroom) as (v' & tr & Hcall & Hcap & Hlen & Hv & _).
  exists v', tr. split; [exact Hcall|]. split; [exact Hcap|].
  split; [exact Hlen|exact Hv].
Defined.


Lemma Insert_own_element_read_after_shift_witness :
  length ([] ++ [1; 2] ++ [3]) < 4 ∧ 2 < length ([] ++ [1; 2] ++ [3]) ∧
  move_ctor_throws (Element:=int_element) 3 = false ∧
  Forall (λ y, move_assign_throws (Element:=int_element) y = false) [1; 2] ∧
  ([] ++ hole (H:=int_element) (moved_from (Element:=int_element) 3) [1; 2]
         :: [1; 2] ++ [3]) !! 2 = Some 2 ∧
  copy_ctor_throws (Element:=int_element) 2 = false ∧
  move_assign_throws (Element:=int_element) 2 = false ∧
  roomy_vector = vec ([] ++ [1; 2] ++ [3]) 4 ∧
  elements roomy_vector !! 2 = Some 3 ∧
  ∃ tr,
    Insert_ref (H:=int_element) 0 (ElementAt 2) roomy_vector =
      Done 0 (vec [2; 1; 2; 3] 4) tr.
Proof.
  assert (length ([] ++ [1; 2] ++ [3]) < 4) as Hlt by (vm_compute; lia).
  assert (2 < length ([] ++ [1; 2] ++ [3])) as Hi by (vm_compute; lia).
  assert (Forall (λ y, move_assign_throws (Element:=int_element) y = false)
            [1; 2]) as Hys by (repeat constructor).
  split; [exact Hlt|]. split; [exact Hi|]. split; [reflexivity|].
  split; [exact Hys|]. split; [reflexivity|]. split; [reflexivity|].
  split; [reflexivity|]. split; [reflexivity|]. split; [reflexivity|].
  destruct (Insert_own_element_read_after_shift (H:=int_element) [] [1; 2] 3 4
              2 2 Hlt Hi eq_refl Hys eq_refl eq_refl eq_refl)
    as (tr & Hcall & _).
  exists tr. exact Hcall.
Defined.

Lemma insert_then_erase_round_trip_witness :
  valid roomy_vector = true ∧ 1 ≤ Size roomy_vector ∧
  copy_ctor_throws (Element:=fragile_element) 9 = false ∧
  (Size roomy_vector = Capacity roomy_vector →
     Forall (λ y, transfer_throws (H:=fragile_element) y = false)
       (elements roomy_vector)) ∧
  (Size roomy_vector < Capacity roomy_vector → 1 < Size roomy_vector →
     move_assign_throws (Element:=fragile_element) 9 = false ∧
     ∀ l, last (elements roomy_vector) = Some l →
          move_ctor_throws (Element:=fragile_element) l = false) ∧
  Forall (λ y, move_assign_throws (Element:=fragile_element) y = false)
    (drop 1 (elements roomy_vector)) ∧
  ∃ v' tr,
    insert_then_erase (H:=fragile_element) 1 9 roomy_vector = Done 1 v' tr ∧
    Size v' = Size roomy_vector ∧ elements v' = elements roomy_vector.
Proof.
  assert (1 ≤ Size roomy_vector) as Hpos by (vm_compute; lia).
  assert (Size roomy_vector = Capacity roomy_vector →
          Forall (λ y, transfer_throws (H:=fragile_element) y = false)
            (elements roomy_vector)) as Hfull
    by (intros Hf; vm_compute in Hf; lia).
  assert (Size roomy_vector < Capacity roomy_vector → 1 < Size roomy_vector →
          move_assign_throws (Element:=fragile_element) 9 = false ∧
          ∀ l, last (elements roomy_vector) = Some l →
               move_ctor_throws (Element:=fragile_element) l = false) as Hroom.
  { intros _ _. split; [reflexivity|]. intros l _. reflexivity. }
  assert (Forall (λ y, move_assign_throws (Element:=fragile_element) y = false)
            (drop 1 (elements roomy_vector))) as Hshift
    by (repeat constructor).
  split; [reflexivity|]. split; [exact Hpos|]. split; [reflexivity|].
  split; [exact Hfull|]. split; [exact Hroom|]. split; [exact Hshift|].
  destruct (insert_then_erase_round_trip (H:=fragile_element) roomy_vector 1 9
              eq_refl Hpos eq_refl Hfull Hroom Hshift)
    as (v' & tr & Hcall & _ & Hsize & Hel & _).
  exists v', tr. split; [exact Hcall|]. split; [exact Hsize|exact Hel].
Defined.
